(** * AGSA image collector: crawl-and-dedup pipeline

    A shallow embedding of [agsa-site/tools/extract_site_images.py] and the
    properties of its perceptual deduplicator, frontier walker, image
    fetcher and manifest writer.

    Conventions of the embedding:
    - Python [int] is [Z]; [str] and [bytes] are [string] (the text handled
      here is ASCII: URLs, hexadecimal fingerprints, file names);
    - a Python object that is mutated through several names (a [Candidate])
      lives in an object store ([heap]) and is passed around as a reference;
    - [set] is [gset], a [dict] whose iteration order matters is an
      insertion-ordered association list;
    - everything outside the script (the HTTP session, robots.txt, the HTML
      parser, the image codec, urllib, SHA-1, the [imagehash] package) is a
      field of the record [World]. *)

From Stdlib Require Import ZArith String Ascii List Lia Bool.
From Stdlib Require DecimalString HexadecimalString.
From stdpp Require Import base gmap sets list strings sorting.

Open Scope string_scope.
Open Scope list_scope.
Open Scope nat_scope.

(** ** Python string primitives *)

Module Py.

Definition ord (c : ascii) : Z := Z.of_nat (nat_of_ascii c).

(** [str.startswith] and [str.endswith]. *)
Definition startswith (s p : string) : bool := String.prefix p s.

Fixpoint endswith (s p : string) : bool :=
  (s =? p)%string ||
  match s with
  | EmptyString => false
  | String _ s' => endswith s' p
  end.

(** [p in s] on strings: [p] occurs as a substring of [s]. *)
Fixpoint contains (s p : string) : bool :=
  String.prefix p s ||
  match s with
  | EmptyString => false
  | String _ s' => contains s' p
  end.

(** [str.isspace] on the ASCII range: TAB, LF, VT, FF, CR, FS, GS, RS, US
    and the space. *)
Definition is_space (c : ascii) : bool :=
  let n := ord c in
  ((9 <=? n) && (n <=? 13) || (28 <=? n) && (n <=? 32))%Z.

Fixpoint lstrip (s : string) : string :=
  match s with
  | EmptyString => EmptyString
  | String c s' => if is_space c then lstrip s' else s
  end.

Fixpoint rstrip (s : string) : string :=
  match s with
  | EmptyString => EmptyString
  | String c s' =>
      match rstrip s' with
      | EmptyString => if is_space c then EmptyString else String c EmptyString
      | r => String c r
      end
  end.

Definition strip (s : string) : string := rstrip (lstrip s).

(** [s.rstrip("/")]. *)
Fixpoint rstrip_char (x : ascii) (s : string) : string :=
  match s with
  | EmptyString => EmptyString
  | String c s' =>
      match rstrip_char x s' with
      | EmptyString => if Ascii.eqb c x then EmptyString else String c EmptyString
      | r => String c r
      end
  end.

Definition lower_char (c : ascii) : ascii :=
  let n := ord c in
  if ((65 <=? n) && (n <=? 90))%Z then ascii_of_nat (nat_of_ascii c + 32) else c.

Fixpoint lower (s : string) : string :=
  match s with
  | EmptyString => EmptyString
  | String c s' => String (lower_char c) (lower s')
  end.

(** [s.split(sep)] for a one-character separator: never empty, the pieces
    between the separators in order. *)
Fixpoint split (sep : ascii) (s : string) : list string :=
  match s with
  | EmptyString => [EmptyString]
  | String c s' =>
      if Ascii.eqb c sep then EmptyString :: split sep s'
      else match split sep s' with
           | [] => [String c EmptyString]
           | p :: ps => String c p :: ps
           end
  end.

(** [s[:n]]. *)
Fixpoint take (n : nat) (s : string) : string :=
  match n, s with
  | S n', String c s' => String c (take n' s')
  | _, _ => EmptyString
  end.

Fixpoint repeat_char (c : ascii) (n : nat) : string :=
  match n with
  | O => EmptyString
  | S n' => String c (repeat_char c n')
  end.

(** Left padding with ["0"] up to a minimum width, as the [0w] format
    specifier does for a non-negative number. *)
Definition zfill (w : nat) (s : string) : string :=
  repeat_char "0" (w - String.length s) +:+ s.

(** [f"{n:03d}"] and [f"{n:016x}"] for [n >= 0]. *)
Definition format_03d (n : N) : string :=
  zfill 3 (DecimalString.NilZero.string_of_uint (N.to_uint n)).

Definition format_016x (n : N) : string :=
  zfill 16 (HexadecimalString.NilZero.string_of_uint (N.to_hex_uint n)).

(** *** [int(s, 16)]

    The accepted grammar is CPython's: optional surrounding whitespace, an
    optional sign, an optional [0x]/[0X] prefix (which may be followed by
    one underscore), then hexadecimal digits separated by at most one
    underscore at a time.  [None] stands for [ValueError]. *)

Definition hex_digit_val (c : ascii) : option Z :=
  let n := ord c in
  if ((48 <=? n) && (n <=? 57))%Z then Some (n - 48)%Z
  else if ((97 <=? n) && (n <=? 102))%Z then Some (n - 87)%Z
  else if ((65 <=? n) && (n <=? 70))%Z then Some (n - 55)%Z
  else None.

Fixpoint hex_digits (acc : Z) (after_underscore : bool) (s : string) : option Z :=
  match s with
  | EmptyString => if after_underscore then None else Some acc
  | String c s' =>
      if Ascii.eqb c "_" then
        if after_underscore then None else hex_digits acc true s'
      else
        match hex_digit_val c with
        | Some d => hex_digits (16 * acc + d)%Z false s'
        | None => None
        end
  end.

Definition split_sign (s : string) : bool * string :=
  match s with
  | String "-" r => (true, r)
  | String "+" r => (false, r)
  | _ => (false, s)
  end.

Definition skip_0x (s : string) : string :=
  match s with
  | String "0" (String x r) =>
      if Ascii.eqb x "x" || Ascii.eqb x "X" then
        match r with
        | String "_" r' => r'
        | _ => r
        end
      else s
  | _ => s
  end.

Definition int16 (s : string) : option Z :=
  let '(neg, body) := split_sign (strip s) in
  match skip_0x body with
  | EmptyString => None
  | String c _ as digits =>
      if Ascii.eqb c "_" then None
      else (fun v => if neg then (- v)%Z else v) <$> hex_digits 0 false digits
  end.

(** [int.bit_count]: the number of ones in the binary representation of
    the absolute value. *)
Fixpoint pos_bit_count (p : positive) : Z :=
  match p with
  | xH => 1
  | xO q => pos_bit_count q
  | xI q => 1 + pos_bit_count q
  end.

Definition bit_count (x : Z) : Z :=
  match x with
  | Z0 => 0
  | Zpos p | Zneg p => pos_bit_count p
  end.

(** The three-way comparison behind Python's [<] on [str]: lexicographic
    on code points. *)
Definition str_compare (a b : string) : comparison := String.compare a b.

(** *** [pathlib]: [Path(p).name] and [Path(p).suffix] (POSIX flavour)

    The name is the last component of the path once empty and ["."]
    components are dropped; the suffix is the part of the name from its last
    dot, provided that dot is neither the first nor the last character. *)

Definition path_parts (p : string) : list string :=
  filter (fun x => x ≠ "" ∧ x ≠ ".") (split "/" p).

Definition path_name (p : string) : string := List.last (path_parts p) "".

(** [suffix_from] scans a name and returns the text from its last dot,
    ignoring a dot in first position. *)
Fixpoint suffix_from (first : bool) (s : string) : option string :=
  match s with
  | EmptyString => None
  | String c s' =>
      match suffix_from false s' with
      | Some r => Some r
      | None => if Ascii.eqb c "." && negb first then Some s else None
      end
  end.

Definition name_suffix (name : string) : string :=
  match suffix_from true name with
  | Some (String _ EmptyString) => ""
  | Some r => r
  | None => ""
  end.

Definition path_suffix (p : string) : string := name_suffix (path_name p).

End Py.

(** ** Data model *)

Definition MIN_BYTES : Z := 40 * 1024.
Definition MIN_LONGEST_SIDE : Z := 600.
Definition PHASH_DISTANCE_THRESHOLD : Z := 6.
Definition MAX_RETRIES : Z := 3.

Record Candidate := {
  id : string;
  filename : string;
  sourcePage : string;
  sourceImageUrl : string;
  alt : string;
  width : Z;
  height : Z;
  bytes : Z;
  phash : string;
  phashClusterId : string
}.

#[export] Instance Candidate_inhabited : Inhabited Candidate :=
  populate {| id := ""; filename := ""; sourcePage := ""; sourceImageUrl := "";
              alt := ""; width := 0; height := 0; bytes := 0; phash := "";
              phashClusterId := "" |}.

#[export] Instance Candidate_eq_dec : EqDecision Candidate.
Proof. solve_decision. Defined.

(** The assignment [candidate.phashClusterId = label]. *)
Definition set_phashClusterId (c : Candidate) (label : string) : Candidate :=
  {| id := id c; filename := filename c; sourcePage := sourcePage c;
     sourceImageUrl := sourceImageUrl c; alt := alt c; width := width c;
     height := height c; bytes := bytes c; phash := phash c;
     phashClusterId := label |}.

(** Candidates are objects: the store maps a reference to the current
    value of the object, and lists and clusters hold references. *)
Abbreviation ref := nat (only parsing).
Abbreviation heap := (list Candidate) (only parsing).

Definition deref (h : heap) (r : ref) : Candidate := h !!! r.

Definition assign_cluster (h : heap) (r : ref) (label : string) : heap :=
  <[r := set_phashClusterId (deref h r) label]> h.

(** ** Perceptual deduplicator *)

Definition hamming_distance_hex (a b : string) : Z :=
  if Py.startswith a "ahash-" || Py.startswith b "ahash-" then
    if (a =? b)%string then 0 else 64
  else
    match Py.int16 a, Py.int16 b with
    | Some x, Some y => Py.bit_count (Z.lxor x y)
    | _, _ => 64
    end.

(** Python compares the score tuples lexicographically. *)
Definition score (c : Candidate) : Z * Z := (bytes c, (width c * height c)%Z).

Definition tuple_ge (x y : Z * Z) : bool :=
  if (x.1 =? y.1)%Z then (y.2 <=? x.2)%Z else (y.1 <? x.1)%Z.

(** The same order as a proposition. *)
Definition lex_ge (x y : Z * Z) : Prop :=
  (y.1 < x.1 ∨ x.1 = y.1 ∧ y.2 ≤ x.2)%Z.

Definition choose_better (h : heap) (a b : ref) : ref :=
  if tuple_ge (score (deref h a)) (score (deref h b)) then a else b.

(** The dictionary built for every cluster. *)
Record Cluster := {
  cluster_id : string;
  rep : ref;
  items : list ref;
  best : ref
}.

Definition cluster_label (n : nat) : string :=
  "cluster-" +:+ Py.format_03d (N.of_nat n).

(** The inner loop with its [break]: the position and the value of the
    first cluster whose representative is close enough. *)
Fixpoint find_match (h : heap) (fp : string) (pos : nat) (clusters : list Cluster)
  : option (nat * Cluster) :=
  match clusters with
  | [] => None
  | cl :: rest =>
      if (hamming_distance_hex fp (phash (deref h (rep cl))) <=? PHASH_DISTANCE_THRESHOLD)%Z
      then Some (pos, cl)
      else find_match h fp (S pos) rest
  end.

(** One iteration of the loop over the candidates. *)
Definition cluster_step (st : heap * list Cluster) (candidate : ref) : heap * list Cluster :=
  let '(h, clusters) := st in
  match find_match h (phash (deref h candidate)) 0 clusters with
  | None =>
      let label := cluster_label (length clusters + 1) in
      let h' := assign_cluster h candidate label in
      (h', clusters ++ [{| cluster_id := label; rep := candidate;
                           items := [candidate]; best := candidate |}])
  | Some (i, matched) =>
      let h' := assign_cluster h candidate (cluster_id matched) in
      (h', <[i := {| cluster_id := cluster_id matched; rep := rep matched;
                     items := items matched ++ [candidate];
                     best := choose_better h' (best matched) candidate |}]> clusters)
  end.

Definition cluster_loop (h : heap) (candidates : list ref) : heap * list Cluster :=
  fold_left cluster_step candidates (h, []).

(** The final loop: the best member of every cluster, relabelled. *)
Definition collect_step (st : heap * list ref) (cl : Cluster) : heap * list ref :=
  let '(h, best_items) := st in
  (assign_cluster h (best cl) (cluster_id cl), best_items ++ [best cl]).

Definition cluster_candidates (h : heap) (candidates : list ref) : heap * list ref :=
  let '(h1, clusters) := cluster_loop h candidates in
  fold_left collect_step clusters (h1, []).

(** ** Manifest writer: the sort *)

Record ManifestEntry := {
  m_id : string;
  m_filename : string;
  m_sourcePage : string;
  m_sourceImageUrl : string;
  m_alt : string;
  m_width : Z;
  m_height : Z;
  m_bytes : Z;
  m_phashClusterId : string
}.

#[export] Instance ManifestEntry_eq_dec : EqDecision ManifestEntry.
Proof. solve_decision. Defined.

Definition manifest_entry (c : Candidate) : ManifestEntry :=
  {| m_id := id c; m_filename := filename c; m_sourcePage := sourcePage c;
     m_sourceImageUrl := sourceImageUrl c; m_alt := alt c; m_width := width c;
     m_height := height c; m_bytes := bytes c;
     m_phashClusterId := phashClusterId c |}.

(** The sort key [(x.phashClusterId, -x.bytes)] and its order. *)
Definition sort_key (c : Candidate) : string * Z := (phashClusterId c, (- bytes c)%Z).

Definition key_le (x y : string * Z) : bool :=
  match Py.str_compare x.1 y.1 with
  | Lt => true
  | Gt => false
  | Eq => (x.2 <=? y.2)%Z
  end.

(** [sorted(xs, key=...)] is a stable sort; insertion from the right keeps
    equal keys in their input order. *)
Fixpoint insert_by {A} (key : A -> string * Z) (x : A) (l : list A) : list A :=
  match l with
  | [] => [x]
  | y :: l' => if key_le (key x) (key y) then x :: l else y :: insert_by key x l'
  end.

Definition sorted_by {A} (key : A -> string * Z) (l : list A) : list A :=
  foldr (insert_by key) [] l.

Definition build_manifest (h : heap) (deduped : list ref) : list ManifestEntry :=
  manifest_entry <$> sorted_by sort_key (deref h <$> deduped).

(** ** The outside world

    The script talks to the network, to the HTML parser, to the image codec
    and to the file system.  None of that is the script's own code: it is
    gathered in [World], and every definition below takes the world as an
    argument, so every theorem holds whatever these components answer. *)

(** The fields of [urllib.parse.urlparse(url)] the script reads. *)
Record ParseResult := {
  scheme : string;
  netloc : string;
  path : string;
  query : string;
  fragment : string;
  hostname : option string
}.

(** A [requests.Response]. [content_type] is the Content-Type header, if
    any; [text] and [content] are the body as text and as bytes. *)
Record Response := {
  status_code : Z;
  content_type : option string;
  text : string;
  content : string
}.

(** [Response.ok]: the status is not in the 4xx or 5xx range. *)
Definition ok (r : Response) : bool :=
  negb ((400 <=? status_code r) && (status_code r <? 600))%Z.

(** A decoded [PIL.Image]: its size, the decoder's format name, and the 64
    grey levels of [image.convert("L").resize((8, 8)).getdata()]. *)
Record Image := {
  image_size : Z * Z;
  format : option string;
  gray8x8 : list Z
}.

(** An element of the parsed document with its attribute dictionary. *)
Record Tag := {
  tag_name : string;
  tag_attrs : list (string * string)
}.

(** What a request was issued for (the caller of [polite_get]). *)
Inductive Purpose := PageFetch | ImageFetch.

(** What the process did to the outside: a GET request, or a back-off sleep
    of so many milliseconds. *)
Inductive Event :=
  | EvGet (p : Purpose) (url : string)
  | EvSleep (ms : Z).

#[export] Instance Response_eq_dec : EqDecision Response.
Proof. solve_decision. Defined.

#[export] Instance Purpose_eq_dec : EqDecision Purpose.
Proof. solve_decision. Defined.

#[export] Instance Event_eq_dec : EqDecision Event.
Proof. solve_decision. Defined.

Record World := {
  urlparse : string -> ParseResult;
  urljoin : string -> string -> string;
  (** [session.get(url, timeout=...)] after the given history; [None] is a
      [requests.RequestException] (time-out, connection error). *)
  session_get : list Event -> string -> option Response;
  (** [rp.can_fetch(USER_AGENT, url)] *)
  can_fetch : string -> bool;
  (** [BeautifulSoup(html, "html.parser")]: the elements in document order *)
  BeautifulSoup : string -> list Tag;
  (** the second group of every match of [CSS_BG_RE] in a style attribute *)
  css_bg_urls : string -> list string;
  (** [Image.open(BytesIO(blob))] followed by [image.load()]; [None] when
      either raises *)
  image_open : string -> option Image;
  (** [imagehash.phash] rendered with [str], when the package is installed *)
  imagehash_phash : option (Image -> string);
  (** [hashlib.sha1(blob).hexdigest()] *)
  sha1_hexdigest : string -> string;
  (** [path.unlink()] raises [OSError] for this file name *)
  unlink_fails : string -> bool
}.

Record Args := {
  base_url : string;
  max_pages : Z;
  max_depth : Z;
  rate_limit_ms : Z;
  output_dir : string;
  allow_domains : string
}.

(** ** URL helpers *)

Definition canonical_page (W : World) (url : string) : string :=
  let parsed := urlparse W url in
  let p := if (path parsed =? "")%string then "/" else path parsed in
  scheme parsed +:+ "://" +:+ netloc parsed +:+ p.

Definition normalize_url (W : World) (base value : string) : option string :=
  if (value =? "")%string then None
  else
    let raw := Py.strip value in
    if (raw =? "")%string || Py.startswith raw "data:" || Py.startswith raw "javascript:"
    then None
    else Some (urljoin W base raw).

(** [if url:] on an optional string: [None] and [""] are both false. *)
Definition truthy (o : option string) : option string :=
  match o with
  | Some EmptyString => None
  | _ => o
  end.

Definition same_domain (W : World) (url base_hostname : string) : bool :=
  bool_decide (hostname (urlparse W url) = Some base_hostname).

Definition allowed_image_domain (W : World) (url : string) (allowed_domains : list string) : bool :=
  let host := Py.lower (default "" (hostname (urlparse W url))) in
  existsb (fun domain =>
             let domain := Py.lower domain in
             (host =? domain)%string || Py.endswith host ("." +:+ domain))
          allowed_domains.

(** ** Extractor *)

Fixpoint tag_get (attrs : list (string * string)) (k : string) : option string :=
  match attrs with
  | [] => None
  | (k', v) :: rest => if (k' =? k)%string then Some v else tag_get rest k
  end.

Definition find_all (name : string) (soup : list Tag) : list Tag :=
  filter (fun t => tag_name t = name) soup.

Definition first_word (s : string) : string :=
  match Py.split " " s with
  | w :: _ => w
  | [] => ""
  end.

Definition parse_srcset (W : World) (srcset page_url : string) : list string :=
  omap (fun part => truthy (normalize_url W page_url (first_word (Py.strip part))))
       (Py.split "," srcset).

(** Order-preserving removal of duplicates, first occurrence kept. *)
Fixpoint dedupe_on {A} (key : A -> string) (seen : gset string) (l : list A) : list A :=
  match l with
  | [] => []
  | x :: l' =>
      if bool_decide (key x ∈ seen) then dedupe_on key seen l'
      else x :: dedupe_on key ({[key x]} ∪ seen) l'
  end.

Definition img_entries (W : World) (page_url : string) (img : Tag) : list (string * string) :=
  let a := Py.strip (default "" (tag_get (tag_attrs img) "alt")) in
  let src := truthy (normalize_url W page_url (default "" (tag_get (tag_attrs img) "src"))) in
  let srcset := default "" (tag_get (tag_attrs img) "srcset") in
  (match src with Some u => [(u, a)] | None => [] end)
    ++ ((fun u => (u, a)) <$> parse_srcset W srcset page_url).

Definition meta_entries (W : World) (page_url : string) (meta : Tag) : list (string * string) :=
  let prop :=
    match truthy (tag_get (tag_attrs meta) "property") with
    | Some p => p
    | None => default "" (tag_get (tag_attrs meta) "name")
    end in
  if (Py.lower (Py.strip prop) =? "og:image")%string then
    match truthy (normalize_url W page_url (default "" (tag_get (tag_attrs meta) "content"))) with
    | Some u => [(u, "")]
    | None => []
    end
  else [].

Definition style_entries (W : World) (page_url : string) (node : Tag) : list (string * string) :=
  match tag_get (tag_attrs node) "style" with
  | Some style =>
      omap (fun m => (fun u => (u, "")) <$> truthy (normalize_url W page_url m))
           (css_bg_urls W style)
  | None => []
  end.

Definition extract_image_urls (W : World) (html page_url : string) : list (string * string) :=
  let soup := BeautifulSoup W html in
  let found :=
    (find_all "img" soup ≫= img_entries W page_url)
      ++ (find_all "meta" soup ≫= meta_entries W page_url)
      ++ (soup ≫= style_entries W page_url) in
  dedupe_on fst ∅ found.

Definition link_of (W : World) (page_url base_hostname : string) (a : Tag) : option string :=
  match tag_get (tag_attrs a) "href" with
  | None => None
  | Some href =>
      match truthy (normalize_url W page_url href) with
      | None => None
      | Some url =>
          let sch := scheme (urlparse W url) in
          if negb ((sch =? "http")%string || (sch =? "https")%string) then None
          else if negb (same_domain W url base_hostname) then None
          else Some (canonical_page W url)
      end
  end.

Definition extract_links (W : World) (html page_url base_hostname : string) : list string :=
  dedupe_on (fun x => x) ∅
            (omap (link_of W page_url base_hostname)
                  (find_all "a" (BeautifulSoup W html))).

(** ** Image fetcher and filter *)

(** [IMG_EXT_RE]: a dot, one of the extensions (case-insensitive), an
    optional query string, and the end of the text.  [$] also matches just
    before a final line feed, and [.] matches anything but a line feed. *)
Definition IMG_EXTENSIONS : list string :=
  ["jpg"; "jpeg"; "png"; "webp"; "gif"; "bmp"; "tiff"; "avif"].

Definition LF : string := String "010"%char EmptyString.

Definition at_end (s : string) : bool := (s =? "")%string || (s =? LF)%string.

Fixpoint dot_star_end (s : string) : bool :=
  at_end s ||
  match s with
  | EmptyString => false
  | String c s' => negb (Ascii.eqb c "010") && dot_star_end s'
  end.

Definition query_tail (s : string) : bool :=
  at_end s ||
  match s with
  | String "?" r => dot_star_end r
  | _ => false
  end.

Fixpoint drop (n : nat) (s : string) : string :=
  match n, s with
  | S n', String _ s' => drop n' s'
  | _, _ => s
  end.

Definition ext_here (s : string) : bool :=
  match s with
  | String "." r =>
      existsb (fun e => Py.startswith (Py.lower r) e && query_tail (drop (String.length e) r))
              IMG_EXTENSIONS
  | _ => false
  end.

Fixpoint IMG_EXT_RE_search (s : string) : bool :=
  ext_here s ||
  match s with
  | EmptyString => false
  | String _ s' => IMG_EXT_RE_search s'
  end.

(** [LOGO_HINT_RE.search]: one of the words occurs, whatever the case. *)
Definition LOGO_HINTS : list string :=
  ["logo"; "icon"; "favicon"; "badge"; "wordmark"; "emblem"; "avatar"].

Definition LOGO_HINT_RE_search (s : string) : bool :=
  existsb (Py.contains (Py.lower s)) LOGO_HINTS.

Definition GUESS_EXTENSIONS : list string :=
  [".jpg"; ".jpeg"; ".png"; ".webp"; ".gif"; ".bmp"; ".tif"; ".tiff"; ".avif"].

Definition guess_extension (W : World) (url : string) (image : Image) : string :=
  let ext := Py.lower (Py.path_suffix (path (urlparse W url))) in
  if bool_decide (ext ∈ GUESS_EXTENSIONS) then
    if (ext =? ".jpeg")%string then ".jpg" else ext
  else
    let fmt := Py.lower (default "" (format image)) in
    if (fmt =? "jpeg")%string then ".jpg"
    else if negb (fmt =? "")%string then "." +:+ fmt
    else ".jpg".

Definition should_skip (W : World) (url : string) (w h num_bytes : Z) (ext : string) : bool :=
  let name := Py.lower (Py.path_name (path (urlparse W url))) in
  let longest := Z.max w h in
  if (ext =? ".svg")%string then true
  else if LOGO_HINT_RE_search name then true
  else if (num_bytes <? MIN_BYTES)%Z then true
  else if (longest <? MIN_LONGEST_SIDE)%Z then true
  else false.

(** [int(bits, 2)] for a string of binary digits given as booleans. *)
Definition int_of_bits (bits : list bool) : N :=
  fold_left (fun acc (b : bool) => (2 * acc + (if b then 1 else 0))%N) bits 0%N.

(** The fallback compares every grey level with the mean [sum / len]; the
    division is exact for the 64 levels of an 8x8 image, so the comparison
    is the one of [p * len] with [sum]. *)
Definition ahash (pixels : list Z) : string :=
  let total := foldr Z.add 0%Z pixels in
  let n := Z.of_nat (length pixels) in
  "ahash-" +:+ Py.format_016x (int_of_bits ((fun p => (total <? p * n)%Z) <$> pixels)).

Definition compute_phash (W : World) (image : Image) : string :=
  match imagehash_phash W with
  | Some primary => primary image
  | None => ahash (gray8x8 image)
  end.

(** [polite_get]: one request, no retry.  The wait before the request only
    delays it and is not part of the model. *)
Definition polite_get (W : World) (p : Purpose) (url : string) (log : list Event)
  : option Response * list Event :=
  (session_get W log url, log ++ [EvGet p url]).

(** The loop of [download_image] over the remaining attempt numbers. *)
Fixpoint download_attempts (W : World) (url : string) (attempts : list Z) (log : list Event)
  : option string * list Event :=
  match attempts with
  | [] => (None, log)
  | attempt :: rest =>
      let '(response, log1) := polite_get W ImageFetch url log in
      match response with
      | None => download_attempts W url rest (log1 ++ [EvSleep (350 * attempt)])
      | Some r =>
          if ((status_code r =? 403) || (status_code r =? 404))%Z then (None, log1)
          else if (500 <=? status_code r)%Z then
            download_attempts W url rest (log1 ++ [EvSleep (500 * attempt)])
          else if negb (ok r) then (None, log1)
          else (Some (content r), log1)
      end
  end.

Definition download_image (W : World) (url : string) (log : list Event)
  : option string * list Event :=
  download_attempts W url (seqZ 1 MAX_RETRIES) log.

(** ** Frontier walker *)

Record Crawl := {
  queue : list (string * Z);
  visited_pages : gset string;
  (** insertion-ordered: [values()] lists the candidates as discovered *)
  downloaded_by_url : list (string * Candidate);
  (** the names of the regular files of the output directory *)
  output_files : gset string;
  log : list Event
}.

Definition with_log (st : Crawl) (l : list Event) : Crawl :=
  {| queue := queue st; visited_pages := visited_pages st;
     downloaded_by_url := downloaded_by_url st;
     output_files := output_files st; log := l |}.

Definition with_queue (st : Crawl) (q : list (string * Z)) : Crawl :=
  {| queue := q; visited_pages := visited_pages st;
     downloaded_by_url := downloaded_by_url st;
     output_files := output_files st; log := log st |}.

Definition visit (st : Crawl) (page_url : string) : Crawl :=
  {| queue := queue st; visited_pages := {[page_url]} ∪ visited_pages st;
     downloaded_by_url := downloaded_by_url st;
     output_files := output_files st; log := log st |}.

Definition accept (st : Crawl) (c : Candidate) : Crawl :=
  {| queue := queue st; visited_pages := visited_pages st;
     downloaded_by_url := downloaded_by_url st ++ [(sourceImageUrl c, c)];
     output_files := {[filename c]} ∪ output_files st; log := log st |}.

Definition is_downloaded (st : Crawl) (url : string) : bool :=
  existsb (fun kv => (kv.1 =? url)%string) (downloaded_by_url st).

(** The cheap test made before any download. *)
Definition prefiltered (W : World) (image_url : string) : bool :=
  let ext_hint := Py.lower (Py.path_suffix (path (urlparse W image_url))) in
  negb (ext_hint =? "")%string && negb (IMG_EXT_RE_search image_url)
    && negb (ext_hint =? ".svg")%string.

(** The body of the loop over the images of a page. *)
Definition process_image (W : World) (allowed_domains : list string) (page_url : string)
    (st : Crawl) (found : string * string) : Crawl :=
  let '(image_url, a) := found in
  if is_downloaded st image_url then st
  else if negb (allowed_image_domain W image_url allowed_domains) then st
  else if prefiltered W image_url then st
  else
    let '(blob, log1) := download_image W image_url (log st) in
    let st1 := with_log st log1 in
    match blob with
    | None | Some EmptyString => st1
    | Some blob =>
        let num_bytes := Z.of_nat (String.length blob) in
        match image_open W blob with
        | None => st1
        | Some image =>
            let '(w, h) := image_size image in
            let ext := guess_extension W image_url image in
            if should_skip W image_url w h num_bytes ext then st1
            else
              let fp := compute_phash W image in
              let digest := Py.take 16 (sha1_hexdigest W blob) in
              let name := digest +:+ ext in
              accept st1 {| id := digest; filename := name; sourcePage := page_url;
                            sourceImageUrl := image_url; alt := a; width := w;
                            height := h; bytes := num_bytes; phash := fp;
                            phashClusterId := "" |}
        end
    end.

Definition html_response (response : option Response) : option Response :=
  match response with
  | None => None
  | Some r =>
      if negb (ok r) || negb (Py.contains (default "" (content_type r)) "text/html")
      then None
      else Some r
  end.

(** One turn of the [while] loop; [None] when the loop condition fails. *)
Definition crawl_step (W : World) (args : Args) (allowed_domains : list string)
    (base_hostname : string) (st : Crawl) : option Crawl :=
  match queue st with
  | [] => None
  | (page_url, depth) :: rest =>
      if negb (Z.of_nat (size (visited_pages st)) <? max_pages args)%Z then None
      else
        let st := with_queue st rest in
        if bool_decide (page_url ∈ visited_pages st) then Some st
        else if (max_depth args <? depth)%Z then Some st
        else if negb (can_fetch W page_url) then Some st
        else
          let '(response, log1) := polite_get W PageFetch page_url (log st) in
          let st := with_log st log1 in
          match html_response response with
          | None => Some (visit st page_url)
          | Some r =>
              let html := text r in
              let st := visit st page_url in
              let links :=
                filter (fun link => link ∉ visited_pages st)
                       (extract_links W html page_url base_hostname) in
              let st := with_queue st (queue st ++ ((fun link => (link, (depth + 1)%Z)) <$> links)) in
              Some (fold_left (process_image W allowed_domains page_url)
                              (extract_image_urls W html page_url) st)
          end
  end.

(** The [while] loop, with a bound on the number of turns: [None] when the
    bound is reached before the loop ends. *)
Fixpoint crawl (W : World) (args : Args) (allowed_domains : list string)
    (base_hostname : string) (fuel : nat) (st : Crawl) : option Crawl :=
  match fuel with
  | O => None
  | S fuel' =>
      match crawl_step W args allowed_domains base_hostname st with
      | None => Some st
      | Some st' => crawl W args allowed_domains base_hostname fuel' st'
      end
  end.

(** ** Manifest writer and the whole run *)

Definition PRUNE_SUFFIXES : list string :=
  [".jpg"; ".jpeg"; ".png"; ".webp"; ".gif"; ".bmp"; ".tiff"].

(** The file is unlinked by the pruning loop. *)
Definition pruned (W : World) (keep_filenames : gset string) (name : string) : bool :=
  bool_decide (Py.lower (Py.name_suffix name) ∈ PRUNE_SUFFIXES)
    && negb (bool_decide (name ∈ keep_filenames))
    && negb (unlink_fails W name).

Definition prune (W : World) (keep_filenames files : gset string) : gset string :=
  filter (fun name => pruned W keep_filenames name = false) files.

Record Report := {
  pages_visited : gset string;
  candidates : heap;
  deduped : list ref;
  manifest : list ManifestEntry;
  files_left : gset string;
  events : list Event
}.

Inductive Outcome :=
  | Exit1
  | Exit0 (r : Report).

Definition parse_allow_domains (s : string) : list string :=
  omap (fun d => let d := Py.strip d in
                 if (d =? "")%string then None else Some (Py.lower d))
       (Py.split "," s).

Definition initial (W : World) (base : string) (files : gset string) : Crawl :=
  {| queue := [(canonical_page W base, 0%Z)]; visited_pages := ∅;
     downloaded_by_url := []; output_files := files; log := [] |}.

(** [list(downloaded_by_url.values())]: the objects, in insertion order,
    as a store and the list of their references. *)
Definition found_store (st : Crawl) : heap := snd <$> downloaded_by_url st.
Definition found_refs (st : Crawl) : list ref := seq 0 (length (found_store st)).

(** What [main] does once the crawl is over. *)
Definition finish (W : World) (st : Crawl) : Report :=
  let '(h', best_items) := cluster_candidates (found_store st) (found_refs st) in
  let keep_filenames : gset string := list_to_set ((fun r => filename (deref h' r)) <$> best_items) in
  {| pages_visited := visited_pages st;
     candidates := h';
     deduped := best_items;
     manifest := build_manifest h' best_items;
     files_left := {[ "manifest.json"; "approved-manifest.json"; "review.html" ]}
                     ∪ prune W keep_filenames (output_files st);
     events := log st |}.

(** [main], started in an output directory that holds [files]. [None]
    when [fuel] turns of the crawl loop were not enough. *)
Definition main (W : World) (args : Args) (files : gset string) (fuel : nat) : option Outcome :=
  let base := Py.rstrip_char "/" (base_url args) in
  let base_parsed := urlparse W base in
  match truthy (hostname base_parsed) with
  | None => Some Exit1
  | Some base_hostname =>
      if negb ((scheme base_parsed =? "http")%string || (scheme base_parsed =? "https")%string)
      then Some Exit1
      else
        let allowed_domains := parse_allow_domains (allow_domains args) ++ [Py.lower base_hostname] in
        Exit0 <$> (finish W <$> crawl W args allowed_domains base_hostname fuel (initial W base files))
  end.

(** ** The clustering rule in the words of the specification

    Stated on fingerprints alone.  [reps] are the fingerprints of the
    representatives of the clusters created so far, in creation order; a
    fingerprint joins the first cluster whose representative is within
    Hamming distance 6, and otherwise opens a new cluster of which it is the
    representative.  [spec_assign] gives, for every fingerprint in turn, the
    position of its cluster. *)

Fixpoint first_within (reps : list string) (fp : string) : option nat :=
  match reps with
  | [] => None
  | r :: rest =>
      if (hamming_distance_hex fp r <=? 6)%Z then Some 0
      else S <$> first_within rest fp
  end.

Fixpoint spec_assign (reps : list string) (fps : list string) : list nat :=
  match fps with
  | [] => []
  | fp :: rest =>
      match first_within reps fp with
      | Some i => i :: spec_assign reps rest
      | None => length reps :: spec_assign (reps ++ [fp]) rest
      end
  end.

(** The candidates assigned to cluster [k], in input order. *)
Definition members_of (k : nat) (candidates : list ref) (assignment : list nat) : list ref :=
  fst <$> filter (fun p => p.2 = k) (zip candidates assignment).

(** The fingerprints of the representatives, and of a list of candidates. *)
Definition rep_fps (h : heap) (cls : list Cluster) : list string :=
  (fun cl => phash (deref h (rep cl))) <$> cls.

Definition fps (h : heap) (cs : list ref) : list string :=
  (fun c => phash (deref h c)) <$> cs.

(** What a run of the loop over [cs], started with the clusters [cls],
    does to these clusters, and what the clusters it creates hold. *)
Definition refines (h : heap) (cls : list Cluster) (cs : list ref)
    (h' : heap) (cls' : list Cluster) : Prop :=
  let a := spec_assign (rep_fps h cls) (fps h cs) in
  (∀ r, phash (deref h' r) = phash (deref h r)) ∧
  length cls ≤ length cls' ∧
  length a = length cs ∧
  (∀ i, i ∈ a → i < length cls') ∧
  ∀ k, k < length cls' →
       ∃ cl', cls' !! k = Some cl' ∧
       match cls !! k with
       | Some cl => cluster_id cl' = cluster_id cl ∧ rep cl' = rep cl
                    ∧ items cl' = items cl ++ members_of k cs a
       | None => cluster_id cl' = cluster_label (k + 1)
                 ∧ items cl' = members_of k cs a
                 ∧ head (items cl') = Some (rep cl')
       end.

(** [x] is at least as good as [y]: more bytes, or as many bytes and at
    least as many pixels. *)
Definition at_least_as_good (x y : Candidate) : Prop :=
  (bytes y < bytes x ∨ bytes x = bytes y ∧ width y * height y ≤ width x * height x)%Z.

(** A cluster whose kept member is one of its members and is at least as
    good as each of them. *)
Definition best_of_members (h : heap) (cl : Cluster) : Prop :=
  best cl ∈ items cl ∧
  ∀ r, r ∈ items cl → at_least_as_good (deref h (best cl)) (deref h r).

(** ** Sample data *)

Module Sample.

Definition candidate (url : string) (w h b : Z) (fp : string) : Candidate :=
  {| id := ""; filename := ""; sourcePage := "https://agsafastpitch.com/";
     sourceImageUrl := url; alt := ""; width := w; height := h; bytes := b;
     phash := fp; phashClusterId := "" |}.

(** The two near-duplicates of the representative-selection example: the
    fingerprints differ in one bit. *)
Definition wide : Candidate :=
  candidate "https://agsafastpitch.com/a.jpg" 900 600 50000 "ffff000000000000".

Definition heavy : Candidate :=
  candidate "https://agsafastpitch.com/b.jpg" 640 480 80000 "ffff000000000001".

(** A third image, far from both. *)
Definition other : Candidate :=
  candidate "https://agsafastpitch.com/c.jpg" 800 600 60000 "0000ffff0000ffff".

Definition store : heap := [wide; heavy; other].

End Sample.

(** ** Fingerprints as the two algorithms produce them *)

Fixpoint all_chars (p : ascii → bool) (s : string) : bool :=
  match s with
  | EmptyString => true
  | String c s' => p c && all_chars p s'
  end.

Definition is_hexdigit (c : ascii) : bool :=
  match Py.hex_digit_val c with
  | Some _ => true
  | None => false
  end.

(** The primary algorithm renders its 64 bits as 16 hexadecimal digits. *)
Definition primary_fp (s : string) : bool :=
  (String.length s =? 16) && all_chars is_hexdigit s.

(** The fallback fingerprints are the values of [ahash]. *)
Definition fallback_fp (s : string) : Prop := ∃ pixels, s = ahash pixels.

Definition fingerprint (s : string) : Prop := fallback_fp s ∨ primary_fp s = true.

(** ** Sample worlds *)

Module Url.

(** [urlparse] for the URLs of the samples, which all have the shape
    [scheme://host/path?query#fragment] (no user, no port, no parameters):
    the scheme runs up to the colon, the host up to the first of [/?#],
    the fragment follows the first [#] and the query the first [?]. *)
Fixpoint break_at (stop : ascii → bool) (s : string) : string * string :=
  match s with
  | EmptyString => (EmptyString, EmptyString)
  | String c s' =>
      if stop c then (EmptyString, s)
      else let '(a, b) := break_at stop s' in (String c a, b)
  end.

Definition tail (s : string) : string :=
  match s with
  | EmptyString => EmptyString
  | String _ r => r
  end.

Definition parse (url : string) : ParseResult :=
  let '(sch, rest) := break_at (Ascii.eqb ":") url in
  match rest with
  | String ":" (String "/" (String "/" r)) =>
      let '(host, r1) :=
        break_at (fun c => Ascii.eqb c "/" || Ascii.eqb c "?" || Ascii.eqb c "#") r in
      let '(r2, frag) := break_at (Ascii.eqb "#") r1 in
      let '(p, q) := break_at (Ascii.eqb "?") r2 in
      {| scheme := Py.lower sch; netloc := host; path := p; query := tail q;
         fragment := tail frag;
         hostname := if (host =? "")%string then None else Some (Py.lower host) |}
  | _ =>
      {| scheme := ""; netloc := ""; path := url; query := ""; fragment := "";
         hostname := None |}
  end.

End Url.

Module Offline.

(** A world without network, codec or [imagehash]: every request fails. *)
Definition world : World :=
  {| urlparse := Url.parse;
     urljoin := fun _ ref => ref;
     session_get := fun _ _ => None;
     can_fetch := fun _ => true;
     BeautifulSoup := fun _ => [];
     css_bg_urls := fun _ => [];
     image_open := fun _ => None;
     imagehash_phash := None;
     sha1_hexdigest := fun _ => "";
     unlink_fails := fun _ => false |}.

(** The same with [imagehash] installed and answering one fingerprint. *)
Definition with_imagehash (fp : string) : World :=
  {| urlparse := urlparse world;
     urljoin := urljoin world;
     session_get := session_get world;
     can_fetch := can_fetch world;
     BeautifulSoup := BeautifulSoup world;
     css_bg_urls := css_bg_urls world;
     image_open := image_open world;
     imagehash_phash := Some (fun _ => fp);
     sha1_hexdigest := sha1_hexdigest world;
     unlink_fails := unlink_fails world |}.

(** An 8x8 image, dark on the left half and bright on the right half. *)
Definition half_bright : Image :=
  {| image_size := (800, 600)%Z; format := Some "JPEG";
     gray8x8 := concat (replicate 8 [10; 10; 10; 10; 200; 200; 200; 200]%Z) |}.

End Offline.

(** ** The order of the manifest *)

Definition str_lt (a b : string) : Prop := Py.str_compare a b = Lt.

(** The order of the sort keys, as a proposition on candidates. *)
Definition candidate_le (x y : Candidate) : Prop :=
  str_lt (phashClusterId x) (phashClusterId y) ∨
  (phashClusterId x = phashClusterId y ∧ (bytes y ≤ bytes x)%Z).

(** [x] may stand before [y]: a smaller label, or the same label and at
    least as many bytes. *)
Definition manifest_le (x y : ManifestEntry) : Prop :=
  str_lt (m_phashClusterId x) (m_phashClusterId y) ∨
  (m_phashClusterId x = m_phashClusterId y ∧ (m_bytes y ≤ m_bytes x)%Z).

(** The labels of the manifest read [cluster-001], [cluster-002], ... in
    the order in which the clusters were created. *)
Definition labels_in_creation_order (r : Report) : Prop :=
  m_phashClusterId <$> manifest r = cluster_label <$> seq 1 (length (deduped r)).

Module Labelled.

(** Three survivors carrying the labels 001, 003, 002 in this order. *)
Definition survivor (label : string) (b : Z) : Candidate :=
  {| id := ""; filename := ""; sourcePage := ""; sourceImageUrl := ""; alt := "";
     width := 800; height := 600; bytes := b; phash := ""; phashClusterId := label |}.

Definition store : heap :=
  [survivor "cluster-001" 50000; survivor "cluster-003" 70000; survivor "cluster-002" 60000].

End Labelled.

Module Thousand.

(** The state of a crawl that accepted a thousand distinct images on a
    machine without the [imagehash] package: every fingerprint is a
    fallback one, and no two are equal. *)
Definition nth_candidate (i : nat) : Candidate :=
  let digest := Py.format_016x (N.of_nat i) in
  {| id := digest; filename := digest +:+ ".jpg";
     sourcePage := "https://agsafastpitch.com/";
     sourceImageUrl := "https://agsafastpitch.com/photos/" +:+ digest +:+ ".jpg";
     alt := ""; width := 800; height := 600; bytes := 50000;
     phash := "ahash-" +:+ digest; phashClusterId := "" |}.

Definition crawled : Crawl :=
  {| queue := [];
     visited_pages := {[ "https://agsafastpitch.com/" ]};
     downloaded_by_url := (fun i => (sourceImageUrl (nth_candidate i), nth_candidate i)) <$> seq 1 1000;
     output_files := ∅;
     log := [] |}.

End Thousand.

(** A later fingerprint [y] is too far from an earlier one [x] to join a
    cluster that [x] represents. *)
Definition far_from (x y : string) : Prop :=
  (PHASH_DISTANCE_THRESHOLD < hamming_distance_hex y x)%Z.

Module Site.

(** A small site: the home page links to the teams page; both show the same
    thumbnail; the home page also shows a picture served by a script and a
    large photograph in AVIF. Every reference is absolute. *)
Definition home : string := "https://agsafastpitch.com/".
Definition teams : string := "https://agsafastpitch.com/teams".
Definition thumb : string := "https://agsafastpitch.com/img/thumb.jpg".
Definition script : string := "https://agsafastpitch.com/photo.php?file=team.jpg".
Definition field : string := "https://agsafastpitch.com/img/field.avif".

Definition home_html : string :=
  "<a href='https://agsafastpitch.com/teams'>Teams</a>"
  +:+ "<img src='https://agsafastpitch.com/img/thumb.jpg'>"
  +:+ "<img src='https://agsafastpitch.com/photo.php?file=team.jpg'>"
  +:+ "<img src='https://agsafastpitch.com/img/field.avif' alt='The field'>".

Definition teams_html : string :=
  "<a href='https://agsafastpitch.com/'>Home</a>"
  +:+ "<img src='https://agsafastpitch.com/img/thumb.jpg'>".

Definition soup (html : string) : list Tag :=
  if (html =? home_html)%string then
    [ {| tag_name := "a"; tag_attrs := [("href", teams)] |};
      {| tag_name := "img"; tag_attrs := [("src", thumb)] |};
      {| tag_name := "img"; tag_attrs := [("src", script)] |};
      {| tag_name := "img"; tag_attrs := [("src", field); ("alt", "The field")] |} ]
  else if (html =? teams_html)%string then
    [ {| tag_name := "a"; tag_attrs := [("href", home)] |};
      {| tag_name := "img"; tag_attrs := [("src", thumb)] |} ]
  else [].

Definition thumb_bytes : string := "JFIF thumbnail".
Definition script_bytes : string := "JFIF team".
Definition field_bytes : string := Py.repeat_char "x" (50 * 1000).

Definition page (html : string) : Response :=
  {| status_code := 200; content_type := Some "text/html; charset=utf-8";
     text := html; content := "" |}.

Definition picture (mime blob : string) : Response :=
  {| status_code := 200; content_type := Some mime; text := ""; content := blob |}.

Definition not_found : Response :=
  {| status_code := 404; content_type := Some "text/html"; text := ""; content := "" |}.

Definition get (url : string) : option Response :=
  if (url =? home)%string then Some (page home_html)
  else if (url =? teams)%string then Some (page teams_html)
  else if (url =? thumb)%string then Some (picture "image/jpeg" thumb_bytes)
  else if (url =? script)%string then Some (picture "image/jpeg" script_bytes)
  else if (url =? field)%string then Some (picture "image/avif" field_bytes)
  else Some not_found.

Definition decode (blob : string) : option Image :=
  if (blob =? thumb_bytes)%string then
    Some {| image_size := (120, 90)%Z; format := Some "JPEG"; gray8x8 := replicate 64 128%Z |}
  else if (blob =? script_bytes)%string then
    Some {| image_size := (160, 120)%Z; format := Some "JPEG"; gray8x8 := replicate 64 128%Z |}
  else if (blob =? field_bytes)%string then
    Some {| image_size := (1200, 800)%Z; format := Some "AVIF";
            gray8x8 := gray8x8 Offline.half_bright |}
  else None.

Definition world : World :=
  {| urlparse := Url.parse;
     urljoin := fun _ ref => ref;
     session_get := fun _ url => get url;
     can_fetch := fun _ => true;
     BeautifulSoup := soup;
     css_bg_urls := fun _ => [];
     image_open := decode;
     imagehash_phash := None;
     sha1_hexdigest := fun _ => "3f2a9c41d07be65812aa90c4f7d1e0b35c6d88a1";
     unlink_fails := fun _ => false |}.

Definition args : Args :=
  {| base_url := "https://agsafastpitch.com"; max_pages := 200; max_depth := 3;
     rate_limit_ms := 800; output_dir := "./public/images/candidates";
     allow_domains := "agsafastpitch.com,cdn2.sportngin.com" |}.

Definition allowed : list string :=
  ["agsafastpitch.com"; "cdn2.sportngin.com"; "agsafastpitch.com"].

(** A server that answers every request with a 503. *)
Definition unavailable : Response :=
  {| status_code := 503; content_type := Some "text/html"; text := ""; content := "" |}.

Definition down : World :=
  {| urlparse := Url.parse;
     urljoin := fun _ ref => ref;
     session_get := fun _ _ => Some unavailable;
     can_fetch := fun _ => true;
     BeautifulSoup := soup;
     css_bg_urls := fun _ => [];
     image_open := decode;
     imagehash_phash := None;
     sha1_hexdigest := sha1_hexdigest world;
     unlink_fails := fun _ => false |}.

End Site.

(** ** Runs of the crawl loop *)

(** One turn of the loop as a relation, and the states a crawl goes
    through. *)
Definition step (W : World) (args : Args) (allowed_domains : list string)
    (base_hostname : string) (s s' : Crawl) : Prop :=
  crawl_step W args allowed_domains base_hostname s = Some s'.

Definition reachable (W : World) (args : Args) (allowed_domains : list string)
    (base_hostname base : string) (files : gset string) (st : Crawl) : Prop :=
  rtc (step W args allowed_domains base_hostname) (initial W base files) st.

(** The pages and the images requested, and the back-off sleeps, in order. *)
Definition page_gets (l : list Event) : list string :=
  omap (fun e => match e with EvGet PageFetch u => Some u | _ => None end) l.

Definition image_gets (l : list Event) : list string :=
  omap (fun e => match e with EvGet ImageFetch u => Some u | _ => None end) l.

Definition sleeps (l : list Event) : list Z :=
  omap (fun e => match e with EvSleep ms => Some ms | _ => None end) l.

(** A URL in canonical form: the canonical form of some URL. *)
Definition canonical (W : World) (url : string) : Prop :=
  ∃ u, url = canonical_page W u.

(** What holds in every state of a crawl. *)
Definition crawl_invariant (W : World) (args : Args) (st : Crawl) : Prop :=
  (Z.of_nat (size (visited_pages st)) ≤ Z.max 0 (max_pages args))%Z ∧
  NoDup (page_gets (log st)) ∧
  (∀ u, u ∈ page_gets (log st) ↔ u ∈ visited_pages st) ∧
  Forall (fun item => canonical W item.1) (queue st) ∧
  (∀ u, u ∈ visited_pages st → canonical W u).

(** ** The sample crawls *)

Module Run.

Definition host : string := "agsafastpitch.com".
Definition base : string := "https://agsafastpitch.com".

(** The report of a run that ended with status 0. *)
Definition report_of (o : option Outcome) : option Report :=
  match o with
  | Some (Exit0 r) => Some r
  | _ => None
  end.

(** The state in which the crawl of the sample site ends. *)
Definition start : Crawl := initial Site.world base ∅.

Definition final : Crawl :=
  default start (crawl Site.world Site.args Site.allowed host 3 start).

(** The crawl of the site whose server is down, at its first turn. *)
Definition start_down : Crawl := initial Site.down base ∅.

End Run.

(** ** The claims on the fetch policy, as the specification words them *)

(** The page was requested at least twice. *)
Definition retried (evs : list Event) (page : string) : Prop :=
  2 ≤ length (filter (fun u => u = page) (page_gets evs)).

(** The extensions of [IMG_EXT_RE], with their dot. *)
Definition RASTER_EXTENSIONS : list string := (fun e => "." +:+ e) <$> IMG_EXTENSIONS.

(** The path of the URL carries an extension that is neither a raster
    extension nor [.svg]. *)
Definition unknown_extension (W : World) (url : string) : Prop :=
  let ext := Py.lower (Py.path_suffix (path (urlparse W url))) in
  ext ≠ "" ∧ (ext ∉ RASTER_EXTENSIONS) ∧ ext ≠ ".svg".

(** As the specification words it: a URL whose path extension is unknown is
    rejected without any request, whatever the state. *)
Definition rejects_unknown_extension (W : World) (url : string) : Prop :=
  unknown_extension W url →
  ∀ allowed page_url st a,
    log (process_image W allowed page_url st (url, a)) = log st.

(** As the specification words it: a page whose every fetch meets a server
    error is requested again before it is given up. *)
Definition retries_failed_page (W : World) (args : Args) (page : string) : Prop :=
  (∀ l, ∃ resp, session_get W l page = Some resp ∧ (500 ≤ status_code resp)%Z) →
  ∀ fuel r, main W args ∅ fuel = Some (Exit0 r) →
            page ∈ pages_visited r → retried (events r) page.

Module Stale.

(** Files left in the output directory by an earlier run. *)
Definition avif : string := "9b1c7e5504aa31f2.avif".
Definition jpg : string := "77aa01c3e5d2b8f0.jpg".
Definition files : gset string := {[ avif; jpg ]}.

(** A URL that the cheap test rejects. *)
Definition report : string := "https://agsafastpitch.com/docs/report.pdf".

End Stale.

(** ** Further properties: definitions *)

(** Every member of the cluster but the first is within the threshold of
    the representative, which is the first member. *)
Definition members_near_rep (h : heap) (cl : Cluster) : Prop :=
  head (items cl) = Some (rep cl) ∧
  ∀ r, r ∈ tail (items cl) →
       (hamming_distance_hex (phash (deref h r)) (phash (deref h (rep cl)))
        ≤ PHASH_DISTANCE_THRESHOLD)%Z.

(** Two objects that differ at most by their cluster label. *)
Definition same_but_label (x y : Candidate) : Prop :=
  set_phashClusterId x "" = set_phashClusterId y "".



(** The allowlist [main] builds from its arguments, for a given base host. *)
Definition allowlist (args : Args) (base_hostname : string) : list string :=
  parse_allow_domains (allow_domains args) ++ [Py.lower base_hostname].

(** Every accepted candidate is filed under its URL, passed the quality
    gate, came from an allowed host, is not labelled yet, and has its file
    in the output directory; and no URL was accepted twice. *)
Definition passed_gate (W : World) (allowed : list string) (files : gset string)
    (kv : string * Candidate) : Prop :=
  sourceImageUrl kv.2 = kv.1 ∧
  (MIN_BYTES ≤ bytes kv.2)%Z ∧
  (MIN_LONGEST_SIDE ≤ Z.max (width kv.2) (height kv.2))%Z ∧
  LOGO_HINT_RE_search (Py.lower (Py.path_name (path (urlparse W kv.1)))) = false ∧
  allowed_image_domain W kv.1 allowed = true ∧
  phashClusterId kv.2 = "" ∧
  filename kv.2 ∈ files.

Definition accepted_ok (W : World) (allowed : list string) (st : Crawl) : Prop :=
  NoDup (fst <$> downloaded_by_url st) ∧
  Forall (passed_gate W allowed (output_files st)) (downloaded_by_url st).

(** Every image requested so far is on an allowed host and passed the
    cheap extension test. *)
Definition requests_ok (W : World) (allowed : list string) (st : Crawl) : Prop :=
  ∀ u, u ∈ image_gets (log st) →
       allowed_image_domain W u allowed = true ∧ prefiltered W u = false.

(** Every page requested so far is permitted by robots.txt, and no queue
    entry is deeper than one level below the depth limit. *)
Definition pages_ok (W : World) (args : Args) (st : Crawl) : Prop :=
  (∀ u, u ∈ page_gets (log st) → can_fetch W u = true) ∧
  Forall (fun item => (0 ≤ item.2 ≤ Z.max 0 (max_depth args + 1))%Z) (queue st).

(** The output directory holds the files it held at the start and the
    files of the accepted candidates, and no other. *)
Definition files_ok (files : gset string) (st : Crawl) : Prop :=
  ∀ f, f ∈ output_files st ↔
       f ∈ files ∨ f ∈ (fun kv : string * Candidate => filename kv.2) <$> downloaded_by_url st.

(** What holds of an entry of the manifest at the end of a run. *)
Definition entry_ok (W : World) (allowed : list string) (r : Report) (m : ManifestEntry) : Prop :=
  m_filename m ∈ files_left r ∧
  (MIN_BYTES ≤ m_bytes m)%Z ∧
  (MIN_LONGEST_SIDE ≤ Z.max (m_width m) (m_height m))%Z ∧
  LOGO_HINT_RE_search (Py.lower (Py.path_name (path (urlparse W (m_sourceImageUrl m))))) = false ∧
  allowed_image_domain W (m_sourceImageUrl m) allowed = true.

(** The file can be deleted by the pruning loop: it has one of the pruned
    suffixes and its deletion does not fail. *)
Definition prunable (W : World) (name : string) : Prop :=
  Py.lower (Py.name_suffix name) ∈ PRUNE_SUFFIXES ∧ unlink_fails W name = false.

(** The base host of a run that goes past the check of the start URL. *)
Definition base_host (W : World) (args : Args) : string :=
  default "" (truthy (hostname (urlparse W (Py.rstrip_char "/" (base_url args))))).

(** The crawl of the sample site started in an output directory that holds
    the files of an earlier run, and the state in which it ends. *)
Definition stale_start : Crawl := initial Site.world Run.base Stale.files.

Definition stale_final : Crawl :=
  default stale_start (crawl Site.world Site.args Site.allowed Run.host 3 stale_start).

(** * Availability converter

    A shallow embedding of [scripts/convert_availability_json_to_slots_csv.py]:
    the three nested loops of [main] that turn the availability document
    into the rows of the slots CSV.

    - The document is the value [json.load] returns: [Json].  A JSON object
      is a [dict], a finite map from strings.
    - [AttributeError], raised by [.get] on a value that is not a [dict] and
      that nothing catches, is [None] in the option monad: the loops stop
      and nothing is written.
    - Reading the input and writing the CSV are outside the model: [main]
      takes the outcome of the reading, and returns the rows it hands to the
      CSV writer with the two numbers it prints.
    - [str] of a value that is not a string is left to the interpreter
      ([repr]).  Text is handled as bytes; the characters the script looks
      for, the space and the bar, are ASCII. *)

From Stdlib Require SpecFloat.

Module Slots.

#[warnings="-register-all"]
Inductive Json :=
  | JNull
  | JBool (b : bool)
  | JInt (n : Z)
  | JFloat (f : SpecFloat.spec_float)
  | JStr (s : string)
  | JList (l : list Json)
  | JDict (d : gmap string Json).

(** The truth value of a Python object: [None], [False], zero, the empty
    string, the empty list and the empty [dict] are false. *)
Definition truthy (v : Json) : bool :=
  match v with
  | JNull => false
  | JBool b => b
  | JInt n => negb (n =? 0)%Z
  | JFloat f => match f with SpecFloat.S754_zero _ => false | _ => true end
  | JStr s => negb (s =? "")%string
  | JList l => match l with [] => false | _ => true end
  | JDict d => negb (size d =? 0)
  end.

Definition is_dict (v : Json) : bool :=
  match v with JDict _ => true | _ => false end.

(** [(v or {}).get(key)]: [None] stands for [AttributeError]; a missing key
    gives Python's [None]. *)
Definition or_empty_get (v : Json) (key : string) : option Json :=
  if truthy v then
    match v with
    | JDict d => Some (default JNull (d !! key))
    | _ => None
    end
  else Some JNull.

(** [v or []]. *)
Definition or_empty_list (v : Json) : Json :=
  if truthy v then v else JList [].

(** [s.strip(chars)]. *)
Definition in_chars (chars : string) (c : ascii) : bool :=
  existsb (Ascii.eqb c) (list_ascii_of_string chars).

Fixpoint lstrip_chars (chars s : string) : string :=
  match s with
  | EmptyString => EmptyString
  | String c s' => if in_chars chars c then lstrip_chars chars s' else s
  end.

Fixpoint rstrip_chars (chars s : string) : string :=
  match s with
  | EmptyString => EmptyString
  | String c s' =>
      match rstrip_chars chars s' with
      | EmptyString => if in_chars chars c then EmptyString else String c EmptyString
      | r => String c r
      end
  end.

Definition strip_chars (chars s : string) : string :=
  rstrip_chars chars (lstrip_chars chars s).

(** [str(v)]. *)
Definition py_str (repr : Json → string) (v : Json) : string :=
  match v with
  | JStr s => s
  | _ => repr v
  end.

Record Args := {
  input : string;
  output : option string;
  offering_team_id : string;
  game_type : string;
  status : string;
  notes : string;
  include_slot_type : bool
}.

(** A row of the CSV, by its columns. *)
Record Row := {
  row_division : Json;
  row_offeringTeamId : string;
  row_gameDate : Json;
  row_startTime : Json;
  row_endTime : Json;
  row_fieldKey : Json;
  row_gameType : string;
  row_status : string;
  row_notes : string
}.

(** The notes of a row. *)
Definition slot_notes (repr : Json → string) (args : Args) (slot_type : Json) : string :=
  let notes := notes args in
  if include_slot_type args && truthy slot_type then
    if negb (notes =? "")%string
    then strip_chars " |" (notes +:+ " | " +:+ py_str repr slot_type)
    else py_str repr slot_type
  else notes.

(** The state of the loops: [rows] and [skipped]. *)
Abbreviation State := (list Row * nat)%type (only parsing).

Definition skip (st : State) : State := (st.1, S st.2).

(** A [for] loop whose body may raise. *)
Fixpoint for_each {A} (body : State → A → option State) (l : list A) (st : State)
  : option State :=
  match l with
  | [] => Some st
  | x :: l' =>
      match body st x with
      | None => None
      | Some st' => for_each body l' st'
      end
  end.

Definition slot_body (repr : Json → string) (args : Args) (date field_key : Json)
    (st : State) (slot : Json) : option State :=
  division ← or_empty_get slot "division";
  start ← or_empty_get slot "startTimeLocal";
  end_ ← or_empty_get slot "endTimeLocal";
  slot_type ← or_empty_get slot "slotType";
  if negb (truthy division && truthy start && truthy end_) then Some (skip st)
  else
    Some (st.1 ++ [ {| row_division := division;
                       row_offeringTeamId := offering_team_id args;
                       row_gameDate := date;
                       row_startTime := start;
                       row_endTime := end_;
                       row_fieldKey := field_key;
                       row_gameType := game_type args;
                       row_status := status args;
                       row_notes := slot_notes repr args slot_type |} ],
          st.2).

Definition field_body (repr : Json → string) (args : Args) (date : Json)
    (st : State) (field : Json) : option State :=
  field_key ← or_empty_get field "fieldKey";
  slots ← or_empty_list <$> or_empty_get field "slots";
  match slots with
  | JList l =>
      if negb (truthy field_key) then Some (skip st)
      else for_each (slot_body repr args date field_key) l st
  | _ => Some (skip st)
  end.

Definition day_body (repr : Json → string) (args : Args)
    (st : State) (day : Json) : option State :=
  date ← or_empty_get day "date";
  fields ← or_empty_list <$> or_empty_get day "fields";
  match fields with
  | JList l =>
      if negb (truthy date) then Some (skip st)
      else for_each (field_body repr args date) l st
  | _ => Some (skip st)
  end.

Inductive Outcome :=
  | Raised
  | Return1
  | Return0 (rows : list Row) (skipped : nat).

(** [main], given what reading the input gave: [None] when the file could
    not be read or parsed. *)
Definition main (repr : Json → string) (args : Args) (data : option Json) : Outcome :=
  match data with
  | None => Return1
  | Some (JList days) =>
      match for_each (day_body repr args) days ([], 0) with
      | None => Raised
      | Some (rows, skipped) => Return0 rows skipped
      end
  | Some _ => Return1
  end.

(** ** The items the loops go through *)

(** The fields of a day the loop enters, the slots of a field the loop
    enters: [None] when the day or the field is counted as skipped. *)
Definition entered (v : Json) (key list_key : string) : option (list Json) :=
  match v with
  | JDict d =>
      if truthy (default JNull (d !! key)) then
        match or_empty_list (default JNull (d !! list_key)) with
        | JList l => Some l
        | _ => None
        end
      else None
  | _ => None
  end.

Definition fields_of (day : Json) : option (list Json) := entered day "date" "fields".
Definition slots_of (field : Json) : option (list Json) := entered field "fieldKey" "slots".

(** A true value that is not a [dict]: [.get] raises on it. *)
Definition breaks (v : Json) : bool := truthy v && negb (is_dict v).

Definition field_breaks (field : Json) : bool :=
  breaks field || existsb breaks (default [] (slots_of field)).

Definition day_breaks (day : Json) : bool :=
  breaks day || existsb field_breaks (default [] (fields_of day)).

(** The number of items of a day: itself when it is skipped, else its
    fields, each counting for itself when skipped and else for its slots. *)
Definition field_items (field : Json) : nat :=
  match slots_of field with
  | None => 1
  | Some slots => length slots
  end.

Definition day_items (day : Json) : nat :=
  match fields_of day with
  | None => 1
  | Some fields => sum_list (field_items <$> fields)
  end.

(** A slot gives a row. *)
Definition complete (slot : Json) : bool :=
  match slot with
  | JDict d =>
      truthy (default JNull (d !! "division"))
      && truthy (default JNull (d !! "startTimeLocal"))
      && truthy (default JNull (d !! "endTimeLocal"))
  | _ => false
  end.

(** What holds of every row. *)
Definition row_ok (args : Args) (r : Row) : Prop :=
  truthy (row_division r) = true ∧ truthy (row_gameDate r) = true ∧
  truthy (row_startTime r) = true ∧ truthy (row_endTime r) = true ∧
  truthy (row_fieldKey r) = true ∧
  row_offeringTeamId r = offering_team_id args ∧
  row_gameType r = game_type args ∧
  row_status r = status args ∧
  (include_slot_type args = false → row_notes r = notes args).

(** The last character of a string. *)
Fixpoint last_char (s : string) : option ascii :=
  match s with
  | EmptyString => None
  | String c s' =>
      match last_char s' with
      | None => Some c
      | last => last
      end
  end.

Definition first_char (s : string) : option ascii :=
  match s with
  | EmptyString => None
  | String c _ => Some c
  end.

(** The string neither begins nor ends with a character of [chars]. *)
Definition trimmed (chars s : string) : Prop :=
  (∀ c, first_char s = Some c → in_chars chars c = false) ∧
  (∀ c, last_char s = Some c → in_chars chars c = false).

(** The rows a day gives: the complete slots of the fields the loop
    enters. *)
Definition field_rows (field : Json) : nat :=
  match slots_of field with
  | None => 0
  | Some slots => length (List.filter complete slots)
  end.

Definition day_rows (day : Json) : nat :=
  match fields_of day with
  | None => 0
  | Some fields => sum_list (field_rows <$> fields)
  end.

(** The value [.get] gives when it does not raise. *)
Definition get (v : Json) (key : string) : Json :=
  match v with
  | JDict d => default JNull (d !! key)
  | _ => JNull
  end.

(** The row of a complete slot. *)
Definition row_of (repr : Json → string) (args : Args) (date field_key slot : Json) : Row :=
  {| row_division := get slot "division";
     row_offeringTeamId := offering_team_id args;
     row_gameDate := date;
     row_startTime := get slot "startTimeLocal";
     row_endTime := get slot "endTimeLocal";
     row_fieldKey := field_key;
     row_gameType := game_type args;
     row_status := status args;
     row_notes := slot_notes repr args (get slot "slotType") |}.

(** What a loop adds to the state does not depend on the state. *)
Definition shift (st : State) (d : State) : State :=
  (st.1 ++ d.1, st.2 + d.2).

Definition additive {A} (body : State → A → option (State)) : Prop :=
  ∀ st x, body st x = shift st <$> body ([], 0) x.

(** A sample document: one complete slot, one slot without end time, a
    field without key, and a day without date. *)
Definition sample_slot : Json :=
  JDict {[ "division" := JStr "10U"; "startTimeLocal" := JStr "09:00";
           "endTimeLocal" := JStr "10:30"; "slotType" := JStr "practice" ]}.

Definition sample_open_slot : Json :=
  JDict {[ "division" := JStr "12U"; "startTimeLocal" := JStr "11:00" ]}.

Definition sample_field : Json :=
  JDict {[ "fieldKey" := JStr "park/field-1";
           "slots" := JList [sample_slot; sample_open_slot] ]}.

Definition sample_day : Json :=
  JDict {[ "date" := JStr "2026-04-11";
           "fields" := JList [sample_field; JDict {[ "slots" := JList [sample_slot] ]}] ]}.

Definition sample_days : list Json :=
  [sample_day; JDict {[ "fields" := JList [sample_field] ]}; JNull].

Definition sample_data : Json := JList sample_days.

Definition sample_args : Args :=
  {| input := "docs/ponytail_availability_by_date_2026.json"; output := None;
     offering_team_id := "LEAGUE_ADMIN"; game_type := "Swap"; status := "Open";
     notes := "spring |"; include_slot_type := true |}.

Definition sample_repr (v : Json) : string := "?".

(** The rows of the sample document. *)
Definition sample_rows : list Row :=
  [ {| row_division := JStr "10U";
       row_offeringTeamId := "LEAGUE_ADMIN";
       row_gameDate := JStr "2026-04-11";
       row_startTime := JStr "09:00";
       row_endTime := JStr "10:30";
       row_fieldKey := JStr "park/field-1";
       row_gameType := "Swap";
       row_status := "Open";
       row_notes := "spring | | practice" |} ].

End Slots.

(** * Properties *)

(** Closed decidable facts are settled by evaluation. *)
Ltac by_evaluation := apply (bool_decide_unpack _); vm_compute; exact I.

(** ** The model on sample inputs *)

Section Samples.

Example int16_samples :
  Py.int16 "ffff0000" = Some 4294901760%Z ∧ Py.int16 " 0x_1F " = Some 31%Z ∧
  Py.int16 "-f" = Some (-15)%Z ∧ Py.int16 "1__2" = None ∧ Py.int16 "ahash-00" = None ∧
  Py.int16 "" = None.
Proof. by_evaluation. Qed.

Example hamming_samples :
  hamming_distance_hex "ffff000000000000" "ffff000000000001" = 1%Z ∧
  hamming_distance_hex "ffff000000000000" "ffff0000000003ff" = 10%Z ∧
  hamming_distance_hex "not-hex" "not-hex" = 64%Z ∧
  hamming_distance_hex "ahash-0f0f0f0f0f0f0f0f" "ahash-0f0f0f0f0f0f0f0f" = 0%Z ∧
  hamming_distance_hex "ahash-0f0f0f0f0f0f0f0f" "ahash-0f0f0f0f0f0f0f0e" = 64%Z.
Proof. by_evaluation. Qed.

Example suffix_samples :
  Py.path_suffix "/img/Team.JPG" = ".JPG" ∧ Py.path_suffix "/img/.hidden" = "" ∧
  Py.path_suffix "/img/archive.tar.gz/" = ".gz" ∧ Py.path_suffix "/img/name." = "" ∧
  Py.path_suffix "/" = "" ∧ Py.path_name "/a/b/./" = "b".
Proof. by_evaluation. Qed.

Example img_ext_re_samples :
  IMG_EXT_RE_search "https://agsafastpitch.com/a.JPG" = true ∧
  IMG_EXT_RE_search "https://agsafastpitch.com/a.jpeg?w=200" = true ∧
  IMG_EXT_RE_search "https://agsafastpitch.com/a.jpg/info" = false ∧
  IMG_EXT_RE_search "https://agsafastpitch.com/a.tif" = false ∧
  IMG_EXT_RE_search "https://agsafastpitch.com/a.svg" = false.
Proof. by_evaluation. Qed.

Example label_samples :
  cluster_label 7 = "cluster-007" ∧ cluster_label 101 = "cluster-101" ∧
  cluster_label 1000 = "cluster-1000" ∧
  Py.str_compare (cluster_label 1000) (cluster_label 101) = Lt.
Proof. by_evaluation. Qed.

(** The three candidates of [Sample.store], in discovery order: the first
    two share a cluster, of which the second is kept. *)
Example clustering_sample :
  (cluster_candidates Sample.store [0; 1; 2]).2 = [1; 2] ∧
  (fun c => phashClusterId c) <$> (cluster_candidates Sample.store [0; 1; 2]).1
  = ["cluster-001"; "cluster-001"; "cluster-002"].
Proof. by_evaluation. Qed.

(** Against a server that is down, a download makes its three attempts. *)
Example download_sample :
  download_image Site.down Site.thumb []
  = (None, [EvGet ImageFetch Site.thumb; EvSleep 500;
            EvGet ImageFetch Site.thumb; EvSleep 1000;
            EvGet ImageFetch Site.thumb; EvSleep 1500]).
Proof. by_evaluation. Qed.

(** The run on the sample site: what is requested, and what is written. *)
Example run_sample :
  (fun r => (events r, m_filename <$> manifest r))
    <$> Run.report_of (main Site.world Site.args ∅ 3)
  = Some ([EvGet PageFetch Site.home; EvGet ImageFetch Site.thumb;
           EvGet ImageFetch Site.script; EvGet ImageFetch Site.field;
           EvGet PageFetch Site.teams; EvGet ImageFetch Site.thumb],
          ["3f2a9c41d07be658.avif"]).
Proof. by_evaluation. Qed.

End Samples.

(** ** The object store *)

Section Store.
Implicit Types (h : heap) (r : ref) (c : Candidate).

Lemma deref_assign_eq h r label :
  r < length h →
  deref (assign_cluster h r label) r = set_phashClusterId (deref h r) label.
Proof.
  intros Hr. unfold deref, assign_cluster.
  apply list_lookup_total_correct. by apply list_lookup_insert_eq.
Qed.

Lemma deref_assign_ne h r r' label :
  r ≠ r' → deref (assign_cluster h r label) r' = deref h r'.
Proof.
  intros Hne. unfold deref, assign_cluster.
  by rewrite list_lookup_total_insert_ne.
Qed.

Lemma deref_assign_ge h r r' label :
  length h ≤ r → deref (assign_cluster h r label) r' = deref h r'.
Proof.
  intros Hr. unfold deref, assign_cluster. by rewrite list_insert_ge.
Qed.

(** An assignment of the cluster label leaves every other field of every
    object as it was. *)
Lemma deref_assign_frame h r r' label :
  deref (assign_cluster h r label) r' = deref h r' ∨
  deref (assign_cluster h r label) r' = set_phashClusterId (deref h r') label.
Proof.
  destruct (decide (r = r')) as [<-|Hne].
  - destruct (decide (r < length h)).
    + right. by apply deref_assign_eq.
    + left. apply deref_assign_ge. lia.
  - left. by apply deref_assign_ne.
Qed.

Lemma phash_assign h r r' label :
  phash (deref (assign_cluster h r label) r') = phash (deref h r').
Proof. by destruct (deref_assign_frame h r r' label) as [-> | ->]. Qed.

Lemma score_assign h r r' label :
  score (deref (assign_cluster h r label) r') = score (deref h r').
Proof. by destruct (deref_assign_frame h r r' label) as [-> | ->]. Qed.

Lemma length_assign h r label : length (assign_cluster h r label) = length h.
Proof. unfold assign_cluster. apply length_insert. Qed.

End Store.

(** ** The order on scores *)

Lemma tuple_ge_spec x y : tuple_ge x y = true ↔ lex_ge x y.
Proof.
  unfold tuple_ge, lex_ge.
  destruct (Z.eqb_spec x.1 y.1); rewrite ?Z.leb_le, ?Z.ltb_lt; lia.
Qed.

Lemma tuple_ge_false x y : tuple_ge x y = false → lex_ge y x.
Proof.
  unfold tuple_ge, lex_ge.
  destruct (Z.eqb_spec x.1 y.1); rewrite ?Z.leb_gt, ?Z.ltb_ge; lia.
Qed.

Lemma lex_ge_refl x : lex_ge x x.
Proof. unfold lex_ge. lia. Qed.

Lemma lex_ge_trans x y z : lex_ge x y → lex_ge y z → lex_ge x z.
Proof. unfold lex_ge. lia. Qed.

Lemma choose_better_cases h a b :
  choose_better h a b = a ∧ lex_ge (score (deref h a)) (score (deref h b)) ∨
  choose_better h a b = b ∧ lex_ge (score (deref h b)) (score (deref h a))
                          ∧ ¬ lex_ge (score (deref h a)) (score (deref h b)).
Proof.
  unfold choose_better.
  destruct (tuple_ge _ _) eqn:E.
  - left. split; [done|]. by apply tuple_ge_spec.
  - right. split; [done|]. split; [by apply tuple_ge_false|].
    rewrite <- tuple_ge_spec. congruence.
Qed.

(** ** The clustering loop *)

Section Clustering.
Implicit Types (h : heap) (cls : list Cluster) (cs : list ref).

Lemma find_match_first_within h fp pos cls :
  match find_match h fp pos cls with
  | Some (i, m) => ∃ k, first_within (rep_fps h cls) fp = Some k
                        ∧ i = pos + k ∧ cls !! k = Some m
  | None => first_within (rep_fps h cls) fp = None
  end.
Proof.
  revert pos. induction cls as [|cl cls IH]; intros pos; simpl; [done|].
  unfold PHASH_DISTANCE_THRESHOLD.
  destruct (_ <=? 6)%Z.
  - exists 0. split_and!; [done | lia | done].
  - specialize (IH (S pos)). destruct (find_match h fp (S pos) cls) as [[i m]|].
    + destruct IH as (k & -> & -> & Hk). exists (S k). split_and!; [done | lia | done].
    + by rewrite IH.
Qed.

Lemma rep_fps_assign h r label cls :
  rep_fps (assign_cluster h r label) cls = rep_fps h cls.
Proof. unfold rep_fps. apply list_fmap_ext. intros ? cl _. apply phash_assign. Qed.

Lemma fps_assign h r label cs : fps (assign_cluster h r label) cs = fps h cs.
Proof. unfold fps. apply list_fmap_ext. intros ? c _. apply phash_assign. Qed.

Lemma rep_fps_insert h cls i m m' :
  cls !! i = Some m → rep m' = rep m → rep_fps h (<[i := m']> cls) = rep_fps h cls.
Proof.
  intros Hi Hrep. unfold rep_fps. rewrite list_fmap_insert, Hrep.
  apply list_insert_id. by rewrite list_lookup_fmap, Hi.
Qed.

Lemma members_of_cons_eq k c cs a :
  members_of k (c :: cs) (k :: a) = c :: members_of k cs a.
Proof. unfold members_of. simpl. rewrite filter_cons_True by done. done. Qed.

Lemma members_of_cons_ne k i c cs a :
  i ≠ k → members_of k (c :: cs) (i :: a) = members_of k cs a.
Proof. intros. unfold members_of. simpl. rewrite filter_cons_False by done. done. Qed.

Lemma cluster_step_match h cls c i m :
  find_match h (phash (deref h c)) 0 cls = Some (i, m) →
  cluster_step (h, cls) c =
    (assign_cluster h c (cluster_id m),
     <[i := {| cluster_id := cluster_id m; rep := rep m; items := items m ++ [c];
               best := choose_better (assign_cluster h c (cluster_id m)) (best m) c |}]> cls).
Proof. intros E. unfold cluster_step. by rewrite E. Qed.

Lemma cluster_step_new h cls c :
  find_match h (phash (deref h c)) 0 cls = None →
  cluster_step (h, cls) c =
    (assign_cluster h c (cluster_label (length cls + 1)),
     cls ++ [{| cluster_id := cluster_label (length cls + 1); rep := c;
                items := [c]; best := c |}]).
Proof. intros E. unfold cluster_step. by rewrite E. Qed.

Lemma cluster_fold_refines cs : ∀ h cls,
  refines h cls cs (fold_left cluster_step cs (h, cls)).1 (fold_left cluster_step cs (h, cls)).2.
Proof.
  induction cs as [|c cs IH]; intros h cls.
  - simpl. unfold refines. simpl. split_and!; [done | done | done | |].
    + intros i Hi. by apply elem_of_nil in Hi.
    + intros k Hk. apply lookup_lt_is_Some in Hk as [cl Hcl].
      exists cl. rewrite Hcl. split; [done|]. unfold members_of. simpl.
      by rewrite app_nil_r.
  - change (fold_left cluster_step (c :: cs) (h, cls))
      with (fold_left cluster_step cs (cluster_step (h, cls) c)).
    pose proof (find_match_first_within h (phash (deref h c)) 0 cls) as Hfm.
    destruct (find_match h (phash (deref h c)) 0 cls) as [[i m]|] eqn:E.
    + rewrite (cluster_step_match _ _ _ _ _ E).
      destruct Hfm as (k0 & Hfw & -> & Hm). simpl in *.
      set (h1 := assign_cluster h c (cluster_id m)).
      set (m' := {| cluster_id := cluster_id m; rep := rep m;
                    items := items m ++ [c]; best := choose_better h1 (best m) c |}).
      specialize (IH h1 (<[k0 := m']> cls)).
      destruct IH as (Hfr & Hlen & Hla & Hbound & Hk).
      unfold refines. simpl. rewrite Hfw.
      rewrite (rep_fps_insert _ _ _ m) in Hla, Hbound, Hk by done.
      unfold h1 in Hla, Hbound, Hk. rewrite rep_fps_assign, fps_assign in Hla, Hbound, Hk.
      fold h1 in Hk. rewrite length_insert in Hlen.
      split_and!.
      * intros r. rewrite Hfr. apply phash_assign.
      * done.
      * simpl. by rewrite Hla.
      * intros i [->|Hi]%elem_of_cons; [|by apply Hbound].
        apply lookup_lt_Some in Hm. lia.
      * intros k Hlt. destruct (Hk k Hlt) as (cl' & Hcl' & Hrest).
        exists cl'. split; [done|].
        destruct (decide (k = k0)) as [->|Hne].
        -- rewrite list_lookup_insert_eq in Hrest by (by eapply lookup_lt_Some).
           rewrite Hm. simpl in Hrest. destruct Hrest as (-> & -> & ->).
           rewrite members_of_cons_eq, <- app_assoc. done.
        -- rewrite list_lookup_insert_ne in Hrest by done.
           rewrite members_of_cons_ne by done. done.
    + rewrite (cluster_step_new _ _ _ E). simpl in *.
      set (label := cluster_label (length cls + 1)).
      set (h1 := assign_cluster h c label).
      set (new := {| cluster_id := label; rep := c; items := [c]; best := c |}).
      specialize (IH h1 (cls ++ [new])).
      destruct IH as (Hfr & Hlen & Hla & Hbound & Hk).
      unfold refines. simpl. rewrite Hfm.
      assert (rep_fps h1 (cls ++ [new]) = rep_fps h cls ++ [phash (deref h c)]) as Hreps.
      { unfold rep_fps. rewrite fmap_app. simpl. unfold h1.
        rewrite phash_assign. f_equal. apply list_fmap_ext. intros ? cl _. apply phash_assign. }
      rewrite Hreps in Hla, Hbound, Hk.
      unfold h1 in Hla, Hbound, Hk. rewrite fps_assign in Hla, Hbound, Hk. fold h1 in Hk.
      rewrite length_app in Hlen. simpl in Hlen.
      assert (length (rep_fps h cls) = length cls) as Hlr by (unfold rep_fps; apply length_fmap).
      split_and!.
      * intros r. rewrite Hfr. apply phash_assign.
      * lia.
      * simpl. by rewrite Hla.
      * intros i [->|Hi]%elem_of_cons; [lia | by apply Hbound].
      * intros k Hlt. destruct (Hk k Hlt) as (cl' & Hcl' & Hrest).
        exists cl'. split; [done|]. rewrite Hlr.
        destruct (decide (k < length cls)) as [Hin|Hout].
        -- rewrite lookup_app_l in Hrest by done.
           rewrite members_of_cons_ne by lia. done.
        -- rewrite (lookup_ge_None_2 cls k) by lia.
           destruct (decide (k = length cls)) as [->|Hne].
           ++ rewrite list_lookup_middle in Hrest by done. simpl in Hrest.
              destruct Hrest as (Hid & Hrep & Hitems).
              rewrite members_of_cons_eq. rewrite Hitems. simpl.
              split_and!; [by rewrite Hid | done | by rewrite Hrep].
           ++ rewrite lookup_ge_None_2 in Hrest by (rewrite length_app; simpl; lia).
              rewrite members_of_cons_ne by lia. done.
Qed.

End Clustering.

Section ClusteringClaims.
Implicit Types (h : heap) (cls : list Cluster) (cs : list ref).

Lemma cluster_loop_refines h cs :
  refines h [] cs (cluster_loop h cs).1 (cluster_loop h cs).2.
Proof. apply cluster_fold_refines. Qed.

Lemma cluster_loop_app h cs cs' :
  cluster_loop h (cs ++ cs') = fold_left cluster_step cs' (cluster_loop h cs).
Proof. unfold cluster_loop. apply fold_left_app. Qed.

(** C1. The loop of [cluster_candidates] is the sequential first-match
    rule of the specification: the clusters it builds are those of
    [spec_assign] run on the fingerprints in input order, so the assignment
    is a function of the fingerprint sequence alone.  The k-th cluster
    created is labelled with k (counting from one), holds exactly the
    candidates assigned to it, in input order, and is represented by the
    first of them; and whatever is processed afterwards, a cluster keeps
    the representative and the label it was created with. *)
Theorem cluster_loop_first_match h cs :
  let a := spec_assign [] (fps h cs) in
  let cls := (cluster_loop h cs).2 in
  length a = length cs ∧
  (∀ i, i ∈ a → i < length cls) ∧
  (∀ k, k < length cls →
        ∃ cl, cls !! k = Some cl
              ∧ cluster_id cl = cluster_label (k + 1)
              ∧ items cl = members_of k cs a
              ∧ head (items cl) = Some (rep cl)) ∧
  (∀ cs' k cl, cls !! k = Some cl →
        ∃ cl', (cluster_loop h (cs ++ cs')).2 !! k = Some cl'
               ∧ rep cl' = rep cl ∧ cluster_id cl' = cluster_id cl).
Proof.
  intros a cls.
  destruct (cluster_loop_refines h cs) as (_ & _ & Hla & Hbound & Hk).
  split_and!; [done | done | |].
  - intros k Hlt. destruct (Hk k Hlt) as (cl & Hcl & Hrest).
    exists cl. by rewrite lookup_nil in Hrest.
  - intros cs' k cl Hcl. rewrite cluster_loop_app.
    destruct (cluster_loop h cs) as [h1 cls1] eqn:E. subst cls. simpl in Hcl.
    destruct (cluster_fold_refines cs' h1 cls1) as (_ & Hlen & _ & _ & Hk').
    assert (k < length cls1) as Hlt by (by eapply lookup_lt_Some).
    destruct (Hk' k ltac:(lia)) as (cl' & Hcl' & Hrest).
    rewrite Hcl in Hrest. destruct Hrest as (Hid & Hrep & _).
    by exists cl'.
Qed.

(** *** The kept member *)

Lemma at_least_as_good_score x y : at_least_as_good x y ↔ lex_ge (score x) (score y).
Proof. done. Qed.

Lemma best_of_members_assign h r label cl :
  best_of_members h cl → best_of_members (assign_cluster h r label) cl.
Proof.
  intros [Hin Hdom]. split; [done|]. intros r' Hr'.
  apply at_least_as_good_score. rewrite !score_assign.
  apply at_least_as_good_score. by apply Hdom.
Qed.

Lemma best_of_members_join h m c :
  best_of_members h m →
  best_of_members h {| cluster_id := cluster_id m; rep := rep m;
                       items := items m ++ [c];
                       best := choose_better h (best m) c |}.
Proof.
  intros [Hin Hdom]. unfold best_of_members. simpl.
  destruct (choose_better_cases h (best m) c) as [[-> Hge] | (-> & Hge & _)].
  - split; [set_solver|].
    intros r [Hr | ->%list_elem_of_singleton]%elem_of_app; [by apply Hdom | done].
  - split; [set_solver|].
    intros r [Hr | ->%list_elem_of_singleton]%elem_of_app.
    + apply at_least_as_good_score. eapply lex_ge_trans; [exact Hge|].
      apply at_least_as_good_score. by apply Hdom.
    + apply at_least_as_good_score, lex_ge_refl.
Qed.

Lemma cluster_step_best h cls c :
  Forall (best_of_members h) cls →
  Forall (best_of_members (cluster_step (h, cls) c).1) (cluster_step (h, cls) c).2.
Proof.
  intros Hall.
  pose proof (find_match_first_within h (phash (deref h c)) 0 cls) as Hfm.
  destruct (find_match h (phash (deref h c)) 0 cls) as [[i m]|] eqn:E.
  - rewrite (cluster_step_match _ _ _ _ _ E). simpl.
    destruct Hfm as (k & _ & -> & Hm). simpl.
    apply Forall_insert.
    + eapply Forall_impl; [exact Hall|]. intros cl. apply best_of_members_assign.
    + apply best_of_members_join, best_of_members_assign.
      by eapply Forall_lookup_1 in Hall.
  - rewrite (cluster_step_new _ _ _ E). simpl.
    apply Forall_app. split.
    + eapply Forall_impl; [exact Hall|]. intros cl. apply best_of_members_assign.
    + apply Forall_singleton. split; simpl; [set_solver|].
      intros r ->%list_elem_of_singleton. apply at_least_as_good_score, lex_ge_refl.
Qed.

Lemma cluster_fold_best cs : ∀ h cls,
  Forall (best_of_members h) cls →
  Forall (best_of_members (fold_left cluster_step cs (h, cls)).1)
         (fold_left cluster_step cs (h, cls)).2.
Proof.
  induction cs as [|c cs IH]; intros h cls Hall; [done|].
  change (fold_left cluster_step (c :: cs) (h, cls))
    with (fold_left cluster_step cs (cluster_step (h, cls) c)).
  destruct (cluster_step (h, cls) c) as [h1 cls1] eqn:E.
  apply IH. pose proof (cluster_step_best h cls c Hall) as H. by rewrite E in H.
Qed.

(** C2. [choose_better] decides lexicographically on (byte size, pixel
    area), largest first: the incumbent [a] is kept exactly when it has more
    bytes than [b], or as many bytes and at least as many pixels.  When a
    candidate joins a cluster, the kept member becomes the better of the
    previous one and the newcomer, so that after the loop the kept member
    of every cluster is one of its members and is at least as good as each
    of them.  For members of (50000 bytes, 900x600) and (80000 bytes,
    640x480) the 80000-byte one is kept, in either input order. *)
Theorem kept_member_is_best :
  (∀ h a b,
      (at_least_as_good (deref h a) (deref h b) → choose_better h a b = a) ∧
      (¬ at_least_as_good (deref h a) (deref h b) → choose_better h a b = b)) ∧
  (∀ h cls c i m,
      find_match h (phash (deref h c)) 0 cls = Some (i, m) →
      let st := cluster_step (h, cls) c in
      ∃ m', st.2 !! i = Some m' ∧ items m' = items m ++ [c]
            ∧ best m' = choose_better st.1 (best m) c) ∧
  (∀ h cs, Forall (best_of_members (cluster_loop h cs).1) (cluster_loop h cs).2) ∧
  (cluster_candidates Sample.store [0; 1]).2 = [1] ∧
  (cluster_candidates Sample.store [1; 0]).2 = [1].
Proof.
  split_and!.
  - intros h a b.
    destruct (choose_better_cases h a b) as [[-> Hge] | (-> & Hge & Hn)].
    + split; [done|]. intros Hn. by destruct Hn.
    + split; [|done]. intros Hge'. by destruct Hn.
  - intros h cls c i m E st. subst st.
    rewrite (cluster_step_match _ _ _ _ _ E). simpl.
    pose proof (find_match_first_within h (phash (deref h c)) 0 cls) as Hfm.
    rewrite E in Hfm. destruct Hfm as (k & _ & -> & Hm). simpl.
    eexists. split; [apply list_lookup_insert_eq; by eapply lookup_lt_Some|]. done.
  - intros h cs. by apply cluster_fold_best.
  - by vm_compute.
  - by vm_compute.
Qed.

End ClusteringClaims.

(** ** Fingerprints and their distance *)

Section Fingerprints.

Ltac ascii_cases c := destruct c as [[] [] [] [] [] [] [] []].

Lemma hexdigit_not_space c : is_hexdigit c = true → Py.is_space c = false.
Proof. ascii_cases c; vm_compute; congruence. Qed.

Lemma hexdigit_not_special c :
  is_hexdigit c = true →
  c ≠ "-"%char ∧ c ≠ "+"%char ∧ c ≠ "_"%char ∧ c ≠ "x"%char ∧ c ≠ "X"%char ∧ c ≠ "h"%char.
Proof. ascii_cases c; vm_compute; intros; split_and!; congruence. Qed.

Lemma hexdigit_val c :
  is_hexdigit c = true → ∃ d, Py.hex_digit_val c = Some d ∧ (0 ≤ d < 16)%Z.
Proof.
  unfold is_hexdigit. destruct (Py.hex_digit_val c) as [d|] eqn:E; [|done].
  intros _. exists d. split; [done|]. revert E.
  ascii_cases c; vm_compute; intros; simplify_eq; split; congruence.
Qed.

Lemma lstrip_hex s : all_chars is_hexdigit s = true → Py.lstrip s = s.
Proof.
  destruct s as [|c s]; [done|]. simpl. intros [Hc _]%andb_prop.
  by rewrite (hexdigit_not_space c Hc).
Qed.

Lemma rstrip_hex s : all_chars is_hexdigit s = true → Py.rstrip s = s.
Proof.
  induction s as [|c s IH]; [done|]. simpl. intros [Hc Hs]%andb_prop.
  rewrite (IH Hs). destruct s; [|done]. by rewrite (hexdigit_not_space c Hc).
Qed.

Lemma hex_digits_value s : ∀ acc,
  all_chars is_hexdigit s = true →
  ∃ v, Py.hex_digits acc false s = Some (acc * 16 ^ Z.of_nat (String.length s) + v)%Z
       ∧ (0 ≤ v < 16 ^ Z.of_nat (String.length s))%Z.
Proof.
  induction s as [|c s IH]; intros acc Hall.
  - exists 0%Z. simpl. split; [f_equal; lia | lia].
  - simpl in Hall. apply andb_prop in Hall as [Hc Hs].
    destruct (hexdigit_not_special c Hc) as (_ & _ & Hus & _).
    destruct (hexdigit_val c Hc) as (d & Hd & Hrange).
    cbn [Py.hex_digits]. rewrite (proj2 (Ascii.eqb_neq c "_") Hus), Hd.
    destruct (IH (16 * acc + d)%Z Hs) as (v & -> & Hv).
    exists (d * 16 ^ Z.of_nat (String.length s) + v)%Z.
    cbn [String.length]. rewrite Nat2Z.inj_succ, Z.pow_succ_r by lia.
    split; [f_equal; lia | nia].
Qed.

Lemma int16_hex s :
  s ≠ "" → all_chars is_hexdigit s = true →
  ∃ v, Py.int16 s = Some v ∧ (0 ≤ v < 16 ^ Z.of_nat (String.length s))%Z.
Proof.
  intros Hne Hall. unfold Py.int16, Py.strip.
  rewrite (lstrip_hex s Hall), (rstrip_hex s Hall).
  destruct s as [|c s]; [done|].
  pose proof Hall as Hall'. simpl in Hall'. apply andb_prop in Hall' as [Hc Hs].
  destruct (hexdigit_not_special c Hc) as (Hm & Hp & Hus & _).
  assert (Py.split_sign (String c s) = (false, String c s)) as ->.
  { unfold Py.split_sign. revert Hm Hp. ascii_cases c; congruence. }
  assert (Py.skip_0x (String c s) = String c s) as ->.
  { unfold Py.skip_0x. destruct s as [|x r]; [by ascii_cases c|].
    simpl in Hs. apply andb_prop in Hs as [Hx _].
    destruct (hexdigit_not_special x Hx) as (_ & _ & _ & Hx1 & Hx2 & _).
    rewrite (proj2 (Ascii.eqb_neq x "x") Hx1), (proj2 (Ascii.eqb_neq x "X") Hx2).
    by ascii_cases c. }
  rewrite (proj2 (Ascii.eqb_neq c "_") Hus).
  destruct (hex_digits_value (String c s) 0 Hall) as (v & -> & Hv).
  exists v. split; [simpl; f_equal; lia | done].
Qed.

Lemma pos_bit_count_bound p : ∀ n,
  (0 ≤ n)%Z → (Z.pos p < 2 ^ n)%Z → (Py.pos_bit_count p ≤ n)%Z.
Proof.
  induction p as [q IH|q IH|]; intros n Hn Hlt.
  - assert (n ≠ 0)%Z by (intros ->; simpl in Hlt; lia).
    replace n with (Z.succ (n - 1)) in Hlt by lia.
    rewrite Z.pow_succ_r in Hlt by lia.
    cbn [Py.pos_bit_count]. specialize (IH (n - 1)%Z). lia.
  - assert (n ≠ 0)%Z by (intros ->; simpl in Hlt; lia).
    replace n with (Z.succ (n - 1)) in Hlt by lia.
    rewrite Z.pow_succ_r in Hlt by lia.
    cbn [Py.pos_bit_count]. specialize (IH (n - 1)%Z). lia.
  - assert (n ≠ 0)%Z by (intros ->; simpl in Hlt; lia).
    simpl. lia.
Qed.

Lemma bit_count_lxor_bound x y n :
  (0 ≤ n)%Z → (0 ≤ x < 2 ^ n)%Z → (0 ≤ y < 2 ^ n)%Z →
  (0 ≤ Py.bit_count (Z.lxor x y) ≤ n)%Z.
Proof.
  intros Hn Hx Hy.
  assert (0 ≤ Z.lxor x y)%Z as Hnonneg by (apply Z.lxor_nonneg; lia).
  destruct (Z.lxor x y) as [|p|p] eqn:E; [simpl; lia | | lia].
  assert (0 < n)%Z as Hpos.
  { destruct (decide (n = 0%Z)) as [->|]; [|lia].
    assert (x = 0%Z) as -> by (simpl in Hx; lia).
    assert (y = 0%Z) as -> by (simpl in Hy; lia). done. }
  assert (Z.pos p < 2 ^ n)%Z.
  { apply Z.log2_lt_pow2; [lia|]. rewrite <- E.
    eapply Z.le_lt_trans; [apply Z.log2_lxor; lia|].
    apply Z.max_lub_lt.
    - destruct (decide (x = 0%Z)) as [->|]; [simpl; lia|]. apply Z.log2_lt_pow2; lia.
    - destruct (decide (y = 0%Z)) as [->|]; [simpl; lia|]. apply Z.log2_lt_pow2; lia. }
  simpl. split; [|by apply pos_bit_count_bound].
  clear. induction p; simpl; lia.
Qed.

Lemma fallback_prefix s : fallback_fp s → Py.startswith s "ahash-" = true.
Proof.
  intros [pixels ->]. unfold ahash, Py.startswith. simpl.
  by destruct (_ +:+ _).
Qed.

Lemma fallback_prefix_app s : Py.startswith ("ahash-" +:+ s) "ahash-" = true.
Proof. unfold Py.startswith. simpl. by destruct s. Qed.

Lemma hex_no_prefix s : all_chars is_hexdigit s = true → Py.startswith s "ahash-" = false.
Proof.
  unfold Py.startswith.
  destruct s as [|c1 [|c2 s]]; [reflexivity | intros _; ascii_cases c1; reflexivity |].
  cbn [all_chars]. intros (_ & [H2 _]%andb_prop)%andb_prop.
  destruct (hexdigit_not_special c2 H2) as (_ & _ & _ & _ & _ & Hh). clear H2.
  ascii_cases c1; try reflexivity.
  ascii_cases c2; try reflexivity. done.
Qed.

Lemma primary_hex s : primary_fp s = true → all_chars is_hexdigit s = true ∧ String.length s = 16.
Proof.
  unfold primary_fp. intros [Hl Hh]%andb_prop. split; [done|]. by apply Nat.eqb_eq.
Qed.

(** A fallback fingerprint and a primary one are 64 apart, in both
    directions. *)
Lemma distance_cross a b :
  fallback_fp a → primary_fp b = true →
  hamming_distance_hex a b = 64%Z ∧ hamming_distance_hex b a = 64%Z.
Proof.
  intros Ha [Hb _]%primary_hex.
  pose proof (fallback_prefix a Ha) as Hpa. pose proof (hex_no_prefix b Hb) as Hpb.
  assert (a ≠ b) as Hne by (intros ->; congruence).
  unfold hamming_distance_hex. rewrite Hpa, Hpb. simpl.
  rewrite (proj2 (String.eqb_neq a b)) by done.
  rewrite (proj2 (String.eqb_neq b a)) by done. done.
Qed.

(** No two fingerprints are more than 64 apart. *)
Lemma distance_le_64 a b :
  fingerprint a → fingerprint b → (0 ≤ hamming_distance_hex a b ≤ 64)%Z.
Proof.
  assert (∀ a b, Py.startswith a "ahash-" || Py.startswith b "ahash-" = true →
                 (0 ≤ hamming_distance_hex a b ≤ 64)%Z) as Htag.
  { intros x y H. unfold hamming_distance_hex. rewrite H. destruct (x =? y)%string; lia. }
  intros [Ha|Ha] [Hb|Hb].
  - apply Htag. by rewrite (fallback_prefix a Ha).
  - apply Htag. by rewrite (fallback_prefix a Ha).
  - apply Htag. rewrite (fallback_prefix b Hb). apply orb_true_r.
  - destruct (primary_hex a Ha) as [Hha Hla]. destruct (primary_hex b Hb) as [Hhb Hlb].
    unfold hamming_distance_hex. rewrite (hex_no_prefix a Hha), (hex_no_prefix b Hhb). simpl.
    destruct (int16_hex a) as (x & -> & Hx); [by intros -> | done |].
    destruct (int16_hex b) as (y & -> & Hy); [by intros -> | done |].
    rewrite Hla in Hx. rewrite Hlb in Hy.
    apply bit_count_lxor_bound; [lia | exact Hx | exact Hy].
Qed.

Lemma find_match_sound h fp pos cls i m :
  find_match h fp pos cls = Some (i, m) →
  (hamming_distance_hex fp (phash (deref h (rep m))) ≤ PHASH_DISTANCE_THRESHOLD)%Z.
Proof.
  revert pos. induction cls as [|cl cls IH]; intros pos; simpl; [done|].
  destruct (_ <=? _)%Z eqn:E.
  - intros [= _ <-]. by apply Z.leb_le.
  - apply IH.
Qed.

End Fingerprints.

(** C4. A fingerprint of the fallback average-brightness hash and one of
    the primary algorithm (16 hexadecimal digits) are at distance 64 from
    each other, in both directions.  64 is above the clustering threshold
    and is the largest distance between any two fingerprints, so the
    matching loop never selects a cluster whose representative carries a
    fingerprint of the other algorithm. *)
Theorem cross_algorithm_never_match (W1 W2 : World) (primary : Image → string)
    (img1 img2 : Image) :
  imagehash_phash W1 = None →
  imagehash_phash W2 = Some primary →
  primary_fp (primary img2) = true →
  let a := compute_phash W1 img1 in
  let b := compute_phash W2 img2 in
  hamming_distance_hex a b = 64%Z ∧
  hamming_distance_hex b a = 64%Z ∧
  (PHASH_DISTANCE_THRESHOLD < 64)%Z ∧
  (∀ x y, fingerprint x → fingerprint y → (hamming_distance_hex x y ≤ 64)%Z) ∧
  (∀ h cls c i m,
      find_match h (phash (deref h c)) 0 cls = Some (i, m) →
      ¬ (phash (deref h c) = a ∧ phash (deref h (rep m)) = b) ∧
      ¬ (phash (deref h c) = b ∧ phash (deref h (rep m)) = a)).
Proof.
  intros H1 H2 Hp a b.
  assert (fallback_fp a) as Ha.
  { exists (gray8x8 img1). subst a. unfold compute_phash. by rewrite H1. }
  assert (primary_fp b = true) as Hb.
  { subst b. unfold compute_phash. by rewrite H2. }
  destruct (distance_cross a b Ha Hb) as [Hab Hba].
  split_and!; [done | done | done | |].
  - intros x y Hx Hy. by apply distance_le_64.
  - intros h cls c i m Hm. apply find_match_sound in Hm.
    unfold PHASH_DISTANCE_THRESHOLD in Hm.
    split; intros [Hc Hr]; rewrite Hc, Hr in Hm; lia.
Qed.

Lemma cross_algorithm_never_match_witness :
  hamming_distance_hex
    (compute_phash Offline.world Offline.half_bright)
    (compute_phash (Offline.with_imagehash "c3c3c3c3c3c3c3c3") Offline.half_bright)
  = 64%Z.
Proof.
  exact (proj1 (cross_algorithm_never_match
                  Offline.world (Offline.with_imagehash "c3c3c3c3c3c3c3c3")
                  (fun _ => "c3c3c3c3c3c3c3c3") Offline.half_bright Offline.half_bright
                  eq_refl eq_refl eq_refl)).
Defined.

Example ahash_half_bright :
  compute_phash Offline.world Offline.half_bright = "ahash-0f0f0f0f0f0f0f0f".
Proof. vm_compute. reflexivity. Qed.

(** ** The sort of the manifest *)

Section Sorting.

Lemma ascii_compare_lt_trans a b c :
  Ascii.compare a b = Lt → Ascii.compare b c = Lt → Ascii.compare a c = Lt.
Proof.
  unfold Ascii.compare. rewrite !N.compare_lt_iff. lia.
Qed.

Lemma ascii_compare_eq a b : Ascii.compare a b = Eq → a = b.
Proof.
  unfold Ascii.compare. intros H%N.compare_eq.
  rewrite <- (ascii_N_embedding a), <- (ascii_N_embedding b). by rewrite H.
Qed.

Lemma ascii_compare_refl a : Ascii.compare a a = Eq.
Proof. unfold Ascii.compare. apply N.compare_refl. Qed.

Lemma str_compare_refl a : Py.str_compare a a = Eq.
Proof.
  unfold Py.str_compare. induction a as [|c a IH]; [done|].
  simpl. by rewrite ascii_compare_refl.
Qed.

Lemma str_lt_trans a b c : str_lt a b → str_lt b c → str_lt a c.
Proof.
  unfold str_lt, Py.str_compare. revert b c.
  induction a as [|x a IH]; intros [|y b] [|z c]; simpl; try done.
  destruct (Ascii.compare x y) eqn:Exy; [| |done].
  - apply ascii_compare_eq in Exy as ->.
    destruct (Ascii.compare y z) eqn:Eyz; [|done|done]. apply IH.
  - intros _. destruct (Ascii.compare y z) eqn:Eyz; [| |done].
    + apply ascii_compare_eq in Eyz as <-. by rewrite Exy.
    + by rewrite (ascii_compare_lt_trans x y z Exy Eyz).
Qed.

Lemma str_lt_irrefl a : ¬ str_lt a a.
Proof. unfold str_lt. by rewrite str_compare_refl. Qed.

Lemma key_le_spec x y : key_le (sort_key x) (sort_key y) = true ↔ candidate_le x y.
Proof.
  unfold key_le, sort_key, candidate_le, str_lt. simpl.
  destruct (Py.str_compare (phashClusterId x) (phashClusterId y)) eqn:E.
  - apply String.compare_eq_iff in E. rewrite Z.leb_le. split.
    + intros H. right. split; [done | lia].
    + intros [H | [_ H]]; [done | lia].
  - split; [by left | done].
  - split; [done|]. intros [H | [H _]]; [done|].
    unfold Py.str_compare in E. rewrite H in E.
    pose proof (str_compare_refl (phashClusterId y)) as R. unfold Py.str_compare in R. congruence.
Qed.

Lemma key_le_total x y :
  key_le (sort_key x) (sort_key y) = false → candidate_le y x.
Proof.
  unfold key_le, sort_key, candidate_le, str_lt. simpl.
  unfold Py.str_compare.
  destruct (String.compare (phashClusterId x) (phashClusterId y)) eqn:E; simpl.
  - apply String.compare_eq_iff in E. rewrite Z.leb_gt. intros H. right.
    split; [done | lia].
  - done.
  - intros _. left. rewrite String.compare_antisym, E. done.
Qed.

Lemma candidate_le_trans x y z : candidate_le x y → candidate_le y z → candidate_le x z.
Proof.
  intros [H1 | [E1 B1]] [H2 | [E2 B2]].
  - left. by eapply str_lt_trans.
  - left. by rewrite <- E2.
  - left. by rewrite E1.
  - right. split; [congruence | lia].
Qed.

Lemma insert_by_perm x l : insert_by sort_key x l ≡ₚ x :: l.
Proof.
  induction l as [|y l IH]; [done|]. simpl.
  destruct (key_le _ _); [done|]. rewrite IH. apply Permutation_swap.
Qed.

Lemma sorted_by_perm l : sorted_by sort_key l ≡ₚ l.
Proof.
  induction l as [|x l IH]; [done|]. simpl.
  rewrite insert_by_perm. by rewrite IH.
Qed.

Lemma insert_by_sorted x l :
  StronglySorted candidate_le l → StronglySorted candidate_le (insert_by sort_key x l).
Proof.
  induction 1 as [|y l Hs IH Hall]; simpl.
  - repeat constructor.
  - destruct (key_le _ _) eqn:E.
    + apply key_le_spec in E. constructor; [by constructor|].
      constructor; [done|]. eapply Forall_impl; [exact Hall|].
      intros z Hz. by eapply candidate_le_trans.
    + apply key_le_total in E. constructor; [done|].
      rewrite insert_by_perm. by constructor.
Qed.

Lemma sorted_by_sorted l : StronglySorted candidate_le (sorted_by sort_key l).
Proof.
  induction l as [|x l IH]; simpl; [constructor | by apply insert_by_sorted].
Qed.

(** A list whose neighbours are already in order is left as it is. *)
Lemma sorted_by_id l :
  Sorted candidate_le l → sorted_by sort_key l = l.
Proof.
  induction 1 as [|x l Hs IH Hhd]; [done|]. simpl. rewrite IH.
  destruct Hhd as [|y l Hxy]; [done|]. simpl.
  by rewrite (proj2 (key_le_spec x y) Hxy).
Qed.

Lemma manifest_le_entry x y :
  candidate_le x y ↔ manifest_le (manifest_entry x) (manifest_entry y).
Proof. done. Qed.

Lemma build_manifest_sorted h l : StronglySorted manifest_le (build_manifest h l).
Proof.
  unfold build_manifest.
  induction (sorted_by_sorted (deref h <$> l)) as [|x l' Hs IH Hall]; [constructor|].
  rewrite fmap_cons. constructor; [done|].
  apply Forall_fmap. eapply Forall_impl; [exact Hall|]. intros y Hy. by apply manifest_le_entry.
Qed.

Lemma build_manifest_perm h l :
  build_manifest h l ≡ₚ (fun r => manifest_entry (deref h r)) <$> l.
Proof.
  unfold build_manifest. rewrite sorted_by_perm. by rewrite <- list_fmap_compose.
Qed.

End Sorting.

(** ** The labels of the survivors *)

Section Labels.
Implicit Types (h : heap) (cls : list Cluster) (cs : list ref).

Lemma cluster_step_length h cls c : length (cluster_step (h, cls) c).1 = length h.
Proof.
  unfold cluster_step. destruct (find_match _ _ _ _) as [[i m]|]; simpl; apply length_assign.
Qed.

Lemma cluster_fold_length cs : ∀ h cls,
  length (fold_left cluster_step cs (h, cls)).1 = length h.
Proof.
  induction cs as [|c cs IH]; intros h cls; [done|].
  change (fold_left cluster_step (c :: cs) (h, cls))
    with (fold_left cluster_step cs (cluster_step (h, cls) c)).
  destruct (cluster_step (h, cls) c) as [h1 cls1] eqn:E.
  rewrite IH. pose proof (cluster_step_length h cls c) as H. by rewrite E in H.
Qed.

Lemma elem_of_members_of r k cs a :
  r ∈ members_of k cs a → ∃ i, cs !! i = Some r ∧ a !! i = Some k.
Proof.
  unfold members_of. intros ([r' k'] & -> & [Hk Hin]%list_elem_of_filter)%list_elem_of_fmap.
  simpl in *. subst k'.
  apply list_elem_of_lookup in Hin as [i Hi].
  apply lookup_zip_with_Some in Hi as (x & y & [= -> ->] & Hx & Hy). eauto.
Qed.

Lemma members_of_disjoint r k k' cs a :
  NoDup cs → r ∈ members_of k cs a → r ∈ members_of k' cs a → k = k'.
Proof.
  intros Hnd (i & Hi & Hk)%elem_of_members_of (j & Hj & Hk')%elem_of_members_of.
  assert (i = j) as -> by (by eapply NoDup_lookup).
  congruence.
Qed.

Lemma collect_fold_items cls : ∀ h acc,
  (fold_left collect_step cls (h, acc)).2 = acc ++ (best <$> cls).
Proof.
  induction cls as [|cl cls IH]; intros h acc; simpl; [by rewrite app_nil_r|].
  rewrite IH. by rewrite <- app_assoc.
Qed.

Lemma collect_fold_frame cls : ∀ h acc r,
  r ∉ best <$> cls → deref (fold_left collect_step cls (h, acc)).1 r = deref h r.
Proof.
  induction cls as [|cl cls IH]; intros h acc r Hr; simpl; [done|].
  rewrite fmap_cons in Hr. apply not_elem_of_cons in Hr as [Hne Hr].
  rewrite IH by done. by apply deref_assign_ne.
Qed.

Lemma collect_fold_label cls : ∀ h acc k cl,
  NoDup (best <$> cls) →
  Forall (fun cl => best cl < length h) cls →
  cls !! k = Some cl →
  phashClusterId (deref (fold_left collect_step cls (h, acc)).1 (best cl)) = cluster_id cl.
Proof.
  induction cls as [|cl0 cls IH]; intros h acc k cl Hnd Hvalid Hk; [done|].
  rewrite fmap_cons in Hnd. apply NoDup_cons in Hnd as [Hnotin Hnd].
  apply Forall_cons in Hvalid as [Hv0 Hvalid].
  simpl. destruct k as [|k]; simpl in Hk.
  - injection Hk as ->. rewrite collect_fold_frame by done.
    by rewrite deref_assign_eq.
  - eapply IH; [done | | done].
    eapply Forall_impl; [exact Hvalid|]. intros c Hc. by rewrite length_assign.
Qed.

(** After [cluster_candidates], the k-th survivor carries the label of the
    k-th cluster created. *)
Lemma cluster_candidates_labels h cs :
  NoDup cs → Forall (fun r => r < length h) cs →
  (fun r => phashClusterId (deref (cluster_candidates h cs).1 r)) <$> (cluster_candidates h cs).2
  = cluster_label <$> seq 1 (length (cluster_candidates h cs).2)
  ∧ length (cluster_candidates h cs).2 = length (cluster_loop h cs).2.
Proof.
  intros Hnd Hvalid. unfold cluster_candidates.
  pose proof (cluster_loop_refines h cs) as (_ & _ & _ & _ & Hk).
  pose proof (cluster_fold_best cs h [] (Forall_nil_2 _)) as Hbest.
  pose proof (cluster_fold_length cs h []) as Hlen.
  fold (cluster_loop h cs) in Hbest, Hlen.
  destruct (cluster_loop h cs) as [h1 cls] eqn:E. simpl in *.
  set (a := spec_assign [] (fps h cs)) in *.
  assert (∀ k cl, cls !! k = Some cl →
                  cluster_id cl = cluster_label (k + 1) ∧ best cl ∈ members_of k cs a) as Hcl.
  { intros k cl Hcl. destruct (Hk k) as (cl' & Hcl' & Hrest); [by eapply lookup_lt_Some|].
    rewrite Hcl in Hcl'. injection Hcl' as <-. simpl in Hrest.
    destruct Hrest as (Hid & Hitems & _). split; [done|]. rewrite <- Hitems.
    eapply Forall_lookup_1 in Hbest; [|done]. by destruct Hbest. }
  assert (NoDup (best <$> cls)) as Hnd'.
  { apply NoDup_alt. intros i j r Hi Hj.
    apply list_lookup_fmap_Some in Hi as (ci & -> & Hi).
    apply list_lookup_fmap_Some in Hj as (cj & Hr & Hj).
    destruct (Hcl i ci Hi) as [_ Hmi]. destruct (Hcl j cj Hj) as [_ Hmj].
    rewrite Hr in Hmi. by eapply members_of_disjoint. }
  assert (Forall (fun cl => best cl < length h1) cls) as Hvalid'.
  { apply Forall_lookup. intros k cl Hcl'. destruct (Hcl k cl Hcl') as [_ Hm].
    apply elem_of_members_of in Hm as (i & Hi & _). rewrite Hlen.
    by eapply Forall_lookup_1 in Hvalid. }
  rewrite collect_fold_items. simpl. rewrite length_fmap. split; [|done].
  apply list_eq. intros k. rewrite !list_lookup_fmap.
  destruct (cls !! k) as [cl|] eqn:Hclk; simpl.
  - rewrite lookup_seq_lt by (by eapply lookup_lt_Some). simpl.
    rewrite (collect_fold_label cls h1 [] k cl) by done.
    destruct (Hcl k cl Hclk) as [-> _]. do 2 f_equal. lia.
  - rewrite lookup_seq_ge; [done|]. by apply lookup_ge_None.
Qed.

End Labels.

(** ** The manifest of a run *)

Section Manifest.

Lemma finish_fields W st :
  candidates (finish W st) = (cluster_candidates (found_store st) (found_refs st)).1 ∧
  deduped (finish W st) = (cluster_candidates (found_store st) (found_refs st)).2 ∧
  manifest (finish W st) =
    build_manifest (cluster_candidates (found_store st) (found_refs st)).1
                   (cluster_candidates (found_store st) (found_refs st)).2.
Proof.
  unfold finish. by destruct (cluster_candidates (found_store st) (found_refs st)).
Qed.

Lemma found_refs_valid st :
  NoDup (found_refs st) ∧ Forall (fun r => r < length (found_store st)) (found_refs st).
Proof.
  unfold found_refs. split; [apply NoDup_seq|].
  apply Forall_forall. intros r Hr%elem_of_seq. lia.
Qed.

Lemma label_lt_table :
  forallb (fun k => match Py.str_compare (cluster_label k) (cluster_label (S k)) with
                    | Lt => true
                    | _ => false
                    end) (seq 1 998) = true.
Proof. vm_compute. reflexivity. Qed.

Lemma label_lt k : 1 ≤ k → k < 999 → str_lt (cluster_label k) (cluster_label (S k)).
Proof.
  intros H1 H2. pose proof label_lt_table as T.
  rewrite forallb_forall in T. specialize (T k).
  unfold str_lt. destruct (Py.str_compare _ _); try done.
  - discriminate T. apply in_seq. lia.
  - discriminate T. apply in_seq. lia.
Qed.

Lemma labels_sorted (l : list Candidate) : ∀ start,
  1 ≤ start → start + length l ≤ 1000 →
  phashClusterId <$> l = cluster_label <$> seq start (length l) →
  Sorted candidate_le l.
Proof.
  induction l as [|x l IH]; intros start H1 H2 Hl; [constructor|].
  simpl in *. injection Hl as Hx Hl. constructor.
  - apply (IH (S start)); [lia | lia | done].
  - destruct l as [|y l]; [constructor|]. constructor.
    simpl in Hl, H2. injection Hl as Hy _. left. rewrite Hx, Hy. apply label_lt; lia.
Qed.

Lemma StronglySorted_lookup {A} (R : relation A) (l : list A) i j x y :
  StronglySorted R l → i < j → l !! i = Some x → l !! j = Some y → R x y.
Proof.
  intros Hs. revert i j. induction Hs as [|z l Hs IH Hall]; intros i j Hij Hi Hj; [done|].
  destruct j as [|j]; [lia|]. destruct i as [|i]; simpl in *.
  - injection Hi as ->. eapply Forall_forall in Hall; [done|].
    apply list_elem_of_lookup. eauto.
  - eapply (IH i j); [lia | done | done].
Qed.

(** C5 (amended). The manifest is sorted by cluster label ascending, in
    string order, then by byte size descending, and holds the survivors
    and nothing else; survivors labelled 001, 003, 002 are written in the
    order 001, 002, 003; and as long as there are at most 999 clusters, the
    labels of the manifest are those of the clusters in creation order. *)
Theorem manifest_order (W : World) (st : Crawl) :
  let r := finish W st in
  (∀ (h : heap) (survivors : list ref),
      StronglySorted manifest_le (build_manifest h survivors)) ∧
  StronglySorted manifest_le (manifest r) ∧
  manifest r ≡ₚ (fun c => manifest_entry (deref (candidates r) c)) <$> deduped r ∧
  m_phashClusterId <$> build_manifest Labelled.store [0; 1; 2]
    = ["cluster-001"; "cluster-002"; "cluster-003"] ∧
  (length (deduped r) ≤ 999 → labels_in_creation_order r).
Proof.
  intros r. subst r.
  destruct (finish_fields W st) as (Hc & Hd & Hm).
  split_and!.
  - intros h survivors. apply build_manifest_sorted.
  - rewrite Hm. apply build_manifest_sorted.
  - rewrite Hm, Hc, Hd. apply build_manifest_perm.
  - by vm_compute.
  - intros Hle. unfold labels_in_creation_order. rewrite Hm, Hd. rewrite Hd in Hle.
    destruct (found_refs_valid st) as [Hnd Hvalid].
    destruct (cluster_candidates_labels _ _ Hnd Hvalid) as [Hlabels _].
    destruct (cluster_candidates (found_store st) (found_refs st)) as [h2 ded]. simpl in *.
    unfold build_manifest. rewrite sorted_by_id.
    + rewrite <- Hlabels. rewrite <- !list_fmap_compose. done.
    + apply (labels_sorted _ 1); [lia | rewrite length_fmap; lia |].
      rewrite length_fmap, <- Hlabels. by rewrite <- list_fmap_compose.
Qed.

Lemma manifest_order_witness : labels_in_creation_order (finish Site.world Run.final).
Proof.
  apply (manifest_order Site.world Run.final). by_evaluation.
Defined.

End Manifest.

(** ** A thousand clusters *)

Section ThousandClusters.

Lemma first_within_far reps fp :
  Forall (fun r => far_from r fp) reps → first_within reps fp = None.
Proof.
  induction 1 as [|r reps Hr _ IH]; [done|]. simpl.
  unfold far_from, PHASH_DISTANCE_THRESHOLD in Hr.
  destruct (Z.leb_spec (hamming_distance_hex fp r) 6); [lia|]. by rewrite IH.
Qed.

(** Fingerprints that are pairwise too far apart open a cluster each. *)
Lemma spec_assign_far fps : ∀ reps,
  Forall (fun fp => Forall (fun r => far_from r fp) reps) fps →
  StronglySorted far_from fps →
  spec_assign reps fps = seq (length reps) (length fps).
Proof.
  induction fps as [|fp fps IH]; intros reps Hreps Hs; [done|].
  apply Forall_cons in Hreps as [Hfp Hreps].
  apply StronglySorted_inv in Hs as [Hs Hall].
  simpl. rewrite (first_within_far reps fp Hfp). f_equal.
  rewrite IH; [by rewrite length_app, Nat.add_1_r | | done].
  apply Forall_forall. intros fp' Hin. apply Forall_app. split.
  - by eapply Forall_forall in Hreps.
  - apply Forall_singleton. by eapply Forall_forall in Hall.
Qed.

Lemma fps_all (h : heap) : fps h (seq 0 (length h)) = phash <$> h.
Proof.
  unfold fps. apply list_eq. intros i. rewrite !list_lookup_fmap.
  destruct (h !! i) as [c|] eqn:E; simpl.
  - rewrite lookup_seq_lt by (by eapply lookup_lt_Some). simpl.
    unfold deref. by rewrite (list_lookup_total_correct _ _ _ E).
  - rewrite lookup_seq_ge; [done|]. by apply lookup_ge_None.
Qed.

Lemma digest_table :
  forallb (fun i => bool_decide (Py.int16 (Py.format_016x (N.of_nat i)) = Some (Z.of_nat i)))
          (seq 1 1000) = true.
Proof. vm_compute. reflexivity. Qed.

Lemma digest_inj i j :
  1 ≤ i ≤ 1000 → 1 ≤ j ≤ 1000 →
  Py.format_016x (N.of_nat i) = Py.format_016x (N.of_nat j) → i = j.
Proof.
  intros Hi Hj Heq. pose proof digest_table as T. rewrite forallb_forall in T.
  pose proof (T i ltac:(apply in_seq; lia)) as Ti. apply bool_decide_eq_true in Ti.
  pose proof (T j ltac:(apply in_seq; lia)) as Tj. apply bool_decide_eq_true in Tj.
  rewrite Heq in Ti. rewrite Ti in Tj. injection Tj as Tj. lia.
Qed.

Lemma thousand_far i j :
  1 ≤ i ≤ 1000 → 1 ≤ j ≤ 1000 → i ≠ j →
  far_from (phash (Thousand.nth_candidate i)) (phash (Thousand.nth_candidate j)).
Proof.
  intros Hi Hj Hne. unfold far_from, PHASH_DISTANCE_THRESHOLD, hamming_distance_hex.
  assert (∀ k, Py.startswith (phash (Thousand.nth_candidate k)) "ahash-" = true) as Hp.
  { intros k. apply fallback_prefix_app. }
  rewrite !Hp. simpl andb.
  destruct (String.eqb_spec (phash (Thousand.nth_candidate j)) (phash (Thousand.nth_candidate i)))
    as [Heq|_]; [|simpl; lia].
  exfalso. apply Hne. simpl in Heq. injection Heq as Heq. symmetry. by apply digest_inj.
Qed.

Lemma thousand_sorted : ∀ n start,
  1 ≤ start → start + n ≤ 1001 →
  StronglySorted far_from ((fun i => phash (Thousand.nth_candidate i)) <$> seq start n).
Proof.
  induction n as [|n IH]; intros start H1 H2; [constructor|].
  simpl. constructor; [apply IH; lia|].
  apply Forall_fmap, Forall_forall. intros j Hj%elem_of_seq. simpl.
  apply thousand_far; lia.
Qed.

Lemma thousand_store :
  phash <$> found_store Thousand.crawled
  = (fun i => phash (Thousand.nth_candidate i)) <$> seq 1 1000.
Proof.
  unfold found_store, Thousand.crawled. cbn [downloaded_by_url].
  by rewrite <- !list_fmap_compose.
Qed.

Lemma thousand_length : length (found_store Thousand.crawled) = 1000.
Proof.
  unfold found_store, Thousand.crawled. cbn [downloaded_by_url].
  by rewrite !length_fmap, length_seq.
Qed.

(** C5, as stated, fails: with a thousand clusters the manifest does not
    list the labels in creation order. *)
Lemma thousand_clusters_out_of_order :
  ¬ labels_in_creation_order (finish Offline.world Thousand.crawled).
Proof.
  unfold labels_in_creation_order. intros Horder.
  destruct (finish_fields Offline.world Thousand.crawled) as (_ & Hd & Hm).
  pose proof (build_manifest_sorted
                (cluster_candidates (found_store Thousand.crawled) (found_refs Thousand.crawled)).1
                (cluster_candidates (found_store Thousand.crawled) (found_refs Thousand.crawled)).2)
    as Hsorted.
  rewrite <- Hm in Hsorted.
  destruct (found_refs_valid Thousand.crawled) as [Hnd Hvalid].
  destruct (cluster_candidates_labels _ _ Hnd Hvalid) as [_ Hlen].
  rewrite <- Hd in Hlen.
  pose proof (cluster_loop_refines (found_store Thousand.crawled) (found_refs Thousand.crawled))
    as (_ & _ & _ & Hbound & _).
  change (rep_fps (found_store Thousand.crawled) []) with (@nil string) in Hbound.
  unfold found_refs in Hbound at 1. rewrite fps_all, thousand_store in Hbound.
  rewrite spec_assign_far in Hbound.
  2: { apply Forall_forall. intros fp _. constructor. }
  2: { apply thousand_sorted; lia. }
  rewrite length_fmap, length_seq in Hbound.
  change (length (@nil string)) with 0 in Hbound.
  specialize (Hbound 999 ltac:(apply elem_of_seq; lia)).
  rewrite <- Hlen in Hbound.
  set (r := finish Offline.world Thousand.crawled) in *.
  assert ((m_phashClusterId <$> manifest r) !! 998 = Some (cluster_label 999)) as H998.
  { rewrite Horder, list_lookup_fmap, lookup_seq_lt by lia. reflexivity. }
  assert ((m_phashClusterId <$> manifest r) !! 999 = Some (cluster_label 1000)) as H999.
  { rewrite Horder, list_lookup_fmap, lookup_seq_lt by lia. reflexivity. }
  apply list_lookup_fmap_Some in H998 as (x & Hx & Hix).
  apply list_lookup_fmap_Some in H999 as (y & Hy & Hiy).
  pose proof (StronglySorted_lookup _ _ 998 999 x y Hsorted ltac:(lia) Hix Hiy) as [Hlt | [Heq _]].
  - rewrite <- Hx, <- Hy in Hlt. by vm_compute in Hlt.
  - rewrite <- Hx, <- Hy in Heq. by vm_compute in Heq.
Qed.

End ThousandClusters.

(** ** The fetcher *)

Section Fetcher.
Context (W : World).

Lemma page_gets_app l1 l2 : page_gets (l1 ++ l2) = page_gets l1 ++ page_gets l2.
Proof. apply omap_app. Qed.

Lemma image_gets_app l1 l2 : image_gets (l1 ++ l2) = image_gets l1 ++ image_gets l2.
Proof. apply omap_app. Qed.

Lemma sleeps_app l1 l2 : sleeps (l1 ++ l2) = sleeps l1 ++ sleeps l2.
Proof. apply omap_app. Qed.

(** What [download_image] adds to the log: requests for this image and
    sleeps, at most one request per attempt. *)
Lemma download_attempts_log url attempts : ∀ l,
  ∃ evs, (download_attempts W url attempts l).2 = l ++ evs
         ∧ page_gets evs = []
         ∧ image_gets evs = replicate (length (image_gets evs)) url
         ∧ length (image_gets evs) ≤ length attempts.
Proof.
  induction attempts as [|k rest IH]; intros l.
  - exists []. simpl. by rewrite app_nil_r.
  - simpl. destruct (session_get W l url) as [r|].
    + destruct (_ || _)%Z.
      { exists [EvGet ImageFetch url]. simpl. split_and!; [done | done | done | lia]. }
      destruct (500 <=? status_code r)%Z.
      { destruct (IH ((l ++ [EvGet ImageFetch url]) ++ [EvSleep (500 * k)]))
          as (evs & -> & Hp & Hi & Hn).
        exists ([EvGet ImageFetch url; EvSleep (500 * k)] ++ evs).
        rewrite <- !app_assoc. split; [done|].
        rewrite page_gets_app, image_gets_app, Hp. simpl.
        split_and!; [done | by rewrite <- Hi | lia]. }
      destruct (negb (ok r));
        exists [EvGet ImageFetch url]; simpl; split_and!; done || lia.
    + destruct (IH ((l ++ [EvGet ImageFetch url]) ++ [EvSleep (350 * k)]))
        as (evs & -> & Hp & Hi & Hn).
      exists ([EvGet ImageFetch url; EvSleep (350 * k)] ++ evs).
      rewrite <- !app_assoc. split; [done|].
      rewrite page_gets_app, image_gets_app, Hp. simpl.
      split_and!; [done | by rewrite <- Hi | lia].
Qed.

Lemma download_image_log url l :
  ∃ evs, (download_image W url l).2 = l ++ evs
         ∧ page_gets evs = []
         ∧ image_gets evs = replicate (length (image_gets evs)) url
         ∧ length (image_gets evs) ≤ 3.
Proof. apply (download_attempts_log url (seqZ 1 MAX_RETRIES)). Qed.

(** The body of the image loop leaves the frontier alone and requests no
    page. *)
Lemma process_image_frame allowed page_url st found :
  let st' := process_image W allowed page_url st found in
  queue st' = queue st ∧ visited_pages st' = visited_pages st
  ∧ ∃ evs, log st' = log st ++ evs ∧ page_gets evs = [].
Proof.
  destruct found as [image_url a]. unfold process_image.
  assert (queue st = queue st ∧ visited_pages st = visited_pages st
          ∧ ∃ evs, log st = log st ++ evs ∧ page_gets evs = []) as Hsame.
  { split_and!; [done | done |]. exists []. by rewrite app_nil_r. }
  destruct (is_downloaded st image_url); [done|].
  destruct (negb (allowed_image_domain W image_url allowed)); [done|].
  destruct (prefiltered W image_url); [done|].
  destruct (download_image_log image_url (log st)) as (evs & Hlog & Hp & _).
  destruct (download_image W image_url (log st)) as [blob log1]. simpl in Hlog. subst log1.
  assert (∀ s, queue s = queue st → visited_pages s = visited_pages st →
               log s = log st ++ evs →
               queue s = queue st ∧ visited_pages s = visited_pages st
               ∧ ∃ evs, log s = log st ++ evs ∧ page_gets evs = []) as Hok.
  { intros s Hq Hv Hl. split_and!; [done | done | by exists evs]. }
  destruct blob as [[|c blob]|]; [by apply Hok | | by apply Hok].
  destruct (image_open W (String c blob)) as [image|]; [|by apply Hok].
  destruct (image_size image) as [w h].
  destruct (should_skip _ _ _ _ _ _); by apply Hok.
Qed.

Lemma process_images_frame allowed page_url found : ∀ st,
  let st' := fold_left (process_image W allowed page_url) found st in
  queue st' = queue st ∧ visited_pages st' = visited_pages st
  ∧ ∃ evs, log st' = log st ++ evs ∧ page_gets evs = [].
Proof.
  induction found as [|f found IH]; intros st.
  - simpl. split_and!; [done | done |]. exists []. by rewrite app_nil_r.
  - simpl. destruct (IH (process_image W allowed page_url st f)) as (Hq & Hv & evs2 & Hl & Hp2).
    destruct (process_image_frame allowed page_url st f) as (Hq1 & Hv1 & evs1 & Hl1 & Hp1).
    split_and!; [congruence | congruence |].
    exists (evs1 ++ evs2). rewrite Hl, Hl1, <- app_assoc. split; [done|].
    by rewrite page_gets_app, Hp1, Hp2.
Qed.

End Fetcher.

(** ** The frontier walker *)

Section Walker.
Context (W : World) (args : Args) (allowed : list string) (bh : string).

Abbreviation crawl_step' := (crawl_step W args allowed bh).
Abbreviation step' := (step W args allowed bh).

(** The two kinds of turn: the dequeued page is dropped without a request,
    or it is requested once and marked visited. *)
Lemma crawl_step_cases st st' :
  crawl_step' st = Some st' →
  ∃ page_url depth rest,
    queue st = (page_url, depth) :: rest ∧
    (Z.of_nat (size (visited_pages st)) < max_pages args)%Z ∧
    ((st' = with_queue st rest ∧
      ((page_url ∈ visited_pages st) ∨ (max_depth args < depth)%Z ∨ (can_fetch W page_url = false)))
     ∨
     ((page_url ∉ visited_pages st) ∧ (depth ≤ max_depth args)%Z ∧ can_fetch W page_url = true ∧
      visited_pages st' = {[page_url]} ∪ visited_pages st ∧
      (∃ evs, log st' = log st ++ EvGet PageFetch page_url :: evs ∧ page_gets evs = []) ∧
      match html_response (session_get W (log st) page_url) with
      | None =>
          st' = visit (with_log (with_queue st rest) (log st ++ [EvGet PageFetch page_url])) page_url
      | Some r =>
          queue st' =
            rest ++ ((fun link => (link, (depth + 1)%Z)) <$>
                     filter (fun link => link ∉ {[page_url]} ∪ visited_pages st)
                            (extract_links W (text r) page_url bh))
      end)).
Proof.
  unfold crawl_step. destruct (queue st) as [|[page_url depth] rest] eqn:Hq; [done|].
  destruct (Z.ltb_spec (Z.of_nat (size (visited_pages st))) (max_pages args)) as [Hlt|]; [|done].
  simpl negb. cbv iota.
  intros Hstep. exists page_url, depth, rest. split; [done|]. split; [done|].
  cbn [visited_pages with_queue] in Hstep.
  case_bool_decide as Hin.
  { left. injection Hstep as <-. split; [done | by left]. }
  destruct (Z.ltb_spec (max_depth args) depth) as [Hd|Hd].
  { left. injection Hstep as <-. split; [done | right; by left]. }
  destruct (can_fetch W page_url) eqn:Hrobots; simpl in Hstep.
  2: { left. injection Hstep as <-. split; [done | right; by right]. }
  right. split_and!; [done | done | done | | |].
  - destruct (html_response _); injection Hstep as <-; [|done].
    by destruct (process_images_frame W allowed page_url
                   (extract_image_urls W (text r) page_url)
                   (with_queue (visit (with_log (with_queue st rest)
                                                (log st ++ [EvGet PageFetch page_url])) page_url)
                               (rest ++ ((fun link => (link, (depth + 1)%Z)) <$>
                                  filter (fun link => link ∉ {[page_url]} ∪ visited_pages st)
                                         (extract_links W (text r) page_url bh)))))
      as (_ & -> & _).
  - destruct (html_response _); injection Hstep as <-.
    + match goal with |- context [fold_left ?f ?l ?s] =>
        destruct (process_images_frame W allowed page_url l s) as (_ & _ & evs & -> & Hp)
      end.
      exists evs. simpl. by rewrite <- app_assoc.
    + exists []. done.
  - destruct (html_response _); injection Hstep as <-; [|done].
    match goal with |- context [fold_left ?f ?l ?s] =>
      by destruct (process_images_frame W allowed page_url l s) as (-> & _ & _)
    end.
Qed.

Lemma extract_links_canonical html page_url link :
  link ∈ extract_links W html page_url bh → canonical W link.
Proof.
  unfold extract_links.
  assert (∀ (l : list string) seen x, x ∈ dedupe_on (fun x => x) seen l → x ∈ l) as Hsub.
  { induction l as [|y l IH]; intros seen x; simpl; [done|].
    case_bool_decide; [intros Hx%IH; by right|].
    intros [->|Hx%IH]%elem_of_cons; [by left | by right]. }
  intros (a & _ & Ha)%Hsub%list_elem_of_omap.
  unfold link_of in Ha.
  destruct (tag_get _ _) as [href|]; [|done].
  destruct (truthy _) as [url|]; [|done].
  destruct (negb _); [done|]. destruct (negb _); [done|].
  injection Ha as <-. by exists url.
Qed.

Lemma initial_invariant base files : crawl_invariant W args (initial W base files).
Proof.
  unfold crawl_invariant, initial. cbn [visited_pages log queue]. split_and!.
  - rewrite size_empty. lia.
  - constructor.
  - intros u. set_solver.
  - repeat constructor. by exists base.
  - intros u. set_solver.
Qed.

Lemma step_invariant st st' :
  crawl_invariant W args st → step' st st' → crawl_invariant W args st'.
Proof.
  intros (Hsize & Hnd & Hlog & Hq & Hv) Hstep.
  apply crawl_step_cases in Hstep
    as (page_url & depth & rest & Hqueue & Hlt & [[-> _] | Hfetched]).
  - unfold crawl_invariant. simpl. split_and!; [done | done | done | | done].
    rewrite Hqueue in Hq. by apply Forall_cons in Hq as [_ Hq].
  - destruct Hfetched as (Hnew & _ & _ & Hvis & (evs & Hevs & Hp) & Hresp).
    rewrite Hqueue in Hq. apply Forall_cons in Hq as [Hpage Hrest]. simpl in Hpage.
    assert (page_gets (log st') = page_gets (log st) ++ [page_url]) as Hgets.
    { rewrite Hevs, page_gets_app. simpl. by rewrite Hp. }
    unfold crawl_invariant. rewrite Hvis, Hgets. split_and!.
    + assert ({[page_url]} ## visited_pages st) as Hdisj
        by (by apply disjoint_singleton_l).
      rewrite (size_union _ _ Hdisj), size_singleton. lia.
    + apply NoDup_app. split_and!; [done | | apply NoDup_singleton].
      intros u Hu ->%list_elem_of_singleton. apply Hnew. by apply Hlog.
    + intros u. rewrite elem_of_app, list_elem_of_singleton, Hlog.
      rewrite elem_of_union, elem_of_singleton. tauto.
    + destruct (html_response _) as [r|].
      * rewrite Hresp. apply Forall_app. split; [done|].
        apply Forall_fmap, Forall_forall. intros link [_ Hlink]%list_elem_of_filter.
        simpl. by eapply extract_links_canonical.
      * by rewrite Hresp.
    + intros u [->%elem_of_singleton | Hu]%elem_of_union; [done | by apply Hv].
Qed.

Lemma reachable_invariant base files st :
  reachable W args allowed bh base files st → crawl_invariant W args st.
Proof.
  unfold reachable. revert st.
  apply (rtc_ind_r (crawl_invariant W args)); [apply initial_invariant|].
  intros y z _ Hstep Hy. by eapply step_invariant.
Qed.

(** The states of a bounded run are states of the crawl. *)
Lemma crawl_rtc fuel : ∀ st st',
  crawl W args allowed bh fuel st = Some st' → rtc step' st st'.
Proof.
  induction fuel as [|fuel IH]; intros st st'; [done|]. simpl.
  destruct (crawl_step' st) as [st1|] eqn:E.
  - intros H%IH. by eapply rtc_l.
  - intros [= <-]. apply rtc_refl.
Qed.

Lemma crawl_final fuel : ∀ st st',
  crawl W args allowed bh fuel st = Some st' → crawl_step' st' = None.
Proof.
  induction fuel as [|fuel IH]; intros st st'; [done|]. simpl.
  destruct (crawl_step' st) as [st1|] eqn:E; [apply IH|]. by intros [= <-].
Qed.

Lemma crawl_step_fuel st st' fuel fin :
  crawl_step' st = Some st' →
  crawl W args allowed bh fuel st' = Some fin →
  crawl W args allowed bh (S fuel) st = Some fin.
Proof. intros Hstep Hrun. simpl. by rewrite Hstep. Qed.

(** The loop ends: every turn either shortens the queue and leaves the
    visited set alone, or adds a page to the visited set, which the page
    limit bounds. *)
Lemma crawl_terminates_measure k : ∀ n st,
  Z.to_nat (max_pages args - Z.of_nat (size (visited_pages st))) ≤ k →
  length (queue st) ≤ n →
  ∃ fuel fin, crawl W args allowed bh fuel st = Some fin.
Proof.
  induction k as [|k IHk]; intros n st Hk Hn.
  - exists 1, st. simpl. unfold crawl_step.
    destruct (queue st) as [|[page_url depth] rest]; [done|].
    destruct (Z.ltb_spec (Z.of_nat (size (visited_pages st))) (max_pages args)); [lia | done].
  - revert st Hk Hn. induction n as [|n IHn]; intros st Hk Hn.
    + exists 1, st. simpl. unfold crawl_step.
      destruct (queue st); [done | simpl in Hn; lia].
    + destruct (crawl_step' st) as [st'|] eqn:Hstep.
      2: { exists 1, st. simpl. by rewrite Hstep. }
      pose proof Hstep as Hcases.
      apply crawl_step_cases in Hcases
        as (page_url & depth & rest & Hqueue & Hlt & [[-> _] | Hfetched]).
      * destruct (IHn (with_queue st rest)) as (fuel & fin & Hrun).
        { done. }
        { rewrite Hqueue in Hn. simpl in *. lia. }
        exists (S fuel), fin. by eapply crawl_step_fuel.
      * destruct Hfetched as (Hnew & _ & _ & Hvis & _).
        destruct (IHk (length (queue st')) st') as (fuel & fin & Hrun); [|done|].
        { rewrite Hvis.
          assert ({[page_url]} ## visited_pages st) as Hdisj
            by (by apply disjoint_singleton_l).
          rewrite (size_union _ _ Hdisj), size_singleton. lia. }
        exists (S fuel), fin. by eapply crawl_step_fuel.
Qed.

Lemma crawl_terminates st : ∃ fuel fin, crawl W args allowed bh fuel st = Some fin.
Proof. by eapply crawl_terminates_measure. Qed.

End Walker.

(** ** The claims on the frontier walker *)

Section WalkerClaims.

Lemma html_response_None resp :
  html_response resp = None ↔
  resp = None ∨
  ∃ r, resp = Some r ∧
       (ok r = false ∨ Py.contains (default "" (content_type r)) "text/html" = false).
Proof.
  unfold html_response. destruct resp as [r|].
  - split.
    + intros H. right. exists r. split; [done|].
      destruct (ok r); [|by left]. destruct (Py.contains _ _); [done | by right].
    + intros [Hn | (r' & Hr & Hbad)]; [done|]. injection Hr as <-.
      destruct Hbad as [-> | ->]; [done|]. by rewrite orb_true_r.
  - split; [by left | done].
Qed.

Lemma visited_is_fetched W args st :
  crawl_invariant W args st →
  size (visited_pages st) = length (page_gets (log st)).
Proof.
  intros (_ & Hnd & Hlog & _).
  rewrite <- (size_list_to_set (C := gset string) (page_gets (log st))) by done.
  f_equal. apply set_eq. intros u. rewrite elem_of_list_to_set. by rewrite Hlog.
Qed.

(** C9. With a page limit N of at least one, the visited set never holds
    more than N pages, at any point of the crawl.  Every URL that enters
    the queue, and so every URL checked against the visited set and every
    visited URL, is a canonical page URL: scheme, [://], network location
    and path ([/] when the path is empty), with neither query nor fragment.
    The pages requested are exactly the visited ones and none is requested
    twice; and the loop ends. *)
Theorem visit_bound (W : World) (args : Args) (allowed : list string)
    (bh base : string) (files : gset string) (st : Crawl) :
  (1 ≤ max_pages args)%Z →
  reachable W args allowed bh base files st →
  (Z.of_nat (size (visited_pages st)) ≤ max_pages args)%Z ∧
  (∀ u, u ∈ visited_pages st → canonical W u) ∧
  Forall (fun item => canonical W item.1) (queue st) ∧
  (∀ u, canonical_page W u =
        scheme (urlparse W u) +:+ "://" +:+ netloc (urlparse W u)
          +:+ (if (path (urlparse W u) =? "")%string then "/" else path (urlparse W u))) ∧
  NoDup (page_gets (log st)) ∧
  (∀ u, u ∈ page_gets (log st) ↔ u ∈ visited_pages st) ∧
  (Z.of_nat (length (page_gets (log st))) ≤ max_pages args)%Z ∧
  (∃ fuel fin, crawl W args allowed bh fuel st = Some fin).
Proof.
  intros HN Hreach.
  pose proof (reachable_invariant W args allowed bh base files st Hreach) as Hinv.
  pose proof (visited_is_fetched W args st Hinv) as Hsize.
  destruct Hinv as (Hbound & Hnd & Hlog & Hq & Hv).
  split_and!; [lia | done | done | done | done | done | lia |].
  apply crawl_terminates.
Qed.

Lemma sample_crawl :
  crawl Site.world Site.args Site.allowed Run.host 3 Run.start = Some Run.final.
Proof. vm_compute. reflexivity. Qed.

Lemma visit_bound_witness :
  (Z.of_nat (size (visited_pages Run.final)) ≤ 200)%Z.
Proof.
  exact (proj1 (visit_bound Site.world Site.args Site.allowed Run.host Run.base ∅ Run.final
                  ltac:(simpl; lia)
                  (crawl_rtc Site.world Site.args Site.allowed Run.host 3 _ _ sample_crawl))).
Defined.

(** A turn whose fetch gives no usable HTML. *)
Lemma crawl_step_failed_fetch (W : World) (args : Args) (allowed : list string)
    (bh : string) (st : Crawl) (page_url : string) (depth : Z) (rest : list (string * Z)) :
  queue st = (page_url, depth) :: rest →
  (Z.of_nat (size (visited_pages st)) < max_pages args)%Z →
  page_url ∉ visited_pages st →
  (depth ≤ max_depth args)%Z →
  can_fetch W page_url = true →
  (session_get W (log st) page_url = None ∨
   ∃ r, session_get W (log st) page_url = Some r ∧
        (ok r = false ∨ Py.contains (default "" (content_type r)) "text/html" = false)) →
  ∃ st', crawl_step W args allowed bh st = Some st' ∧
         visited_pages st' = {[page_url]} ∪ visited_pages st ∧
         size (visited_pages st') = S (size (visited_pages st)) ∧
         queue st' = rest ∧
         downloaded_by_url st' = downloaded_by_url st ∧
         output_files st' = output_files st ∧
         log st' = log st ++ [EvGet PageFetch page_url].
Proof.
  intros Hq Hlt Hnew Hdepth Hrobots Hfail%html_response_None.
  unfold crawl_step. rewrite Hq.
  destruct (Z.ltb_spec (Z.of_nat (size (visited_pages st))) (max_pages args)); [|lia].
  cbn [negb visited_pages with_queue].
  rewrite bool_decide_eq_false_2 by done.
  destruct (Z.ltb_spec (max_depth args) depth); [lia|].
  rewrite Hrobots. cbn [negb polite_get with_log log with_queue]. rewrite Hfail.
  eexists. split; [done|]. cbn [visit visited_pages queue downloaded_by_url output_files log].
  split_and!; try done.
  assert ({[page_url]} ## visited_pages st) as Hdisj by (by apply disjoint_singleton_l).
  rewrite (size_union _ _ Hdisj), size_singleton. done.
Qed.

(** C10. When the dequeued page has passed the visited, depth and robots
    checks and its fetch gives no usable HTML (a network error, a status
    that is not OK, or a Content-Type without [text/html]), the turn ends
    with the page added to the visited set, which grows by one, and with
    nothing else done: the queue only loses the page, no candidate and no
    file is added, and the only request is the one for the page. *)
Theorem failed_fetch_is_visited (W : World) (args : Args) (allowed : list string)
    (bh : string) (st : Crawl) (page_url : string) (depth : Z) (rest : list (string * Z)) :
  queue st = (page_url, depth) :: rest →
  (Z.of_nat (size (visited_pages st)) < max_pages args)%Z →
  page_url ∉ visited_pages st →
  (depth ≤ max_depth args)%Z →
  can_fetch W page_url = true →
  (session_get W (log st) page_url = None ∨
   ∃ r, session_get W (log st) page_url = Some r ∧
        (ok r = false ∨ Py.contains (default "" (content_type r)) "text/html" = false)) →
  ∃ st', crawl_step W args allowed bh st = Some st' ∧
         visited_pages st' = {[page_url]} ∪ visited_pages st ∧
         size (visited_pages st') = S (size (visited_pages st)) ∧
         queue st' = rest ∧
         downloaded_by_url st' = downloaded_by_url st ∧
         output_files st' = output_files st ∧
         log st' = log st ++ [EvGet PageFetch page_url].
Proof. apply crawl_step_failed_fetch. Qed.

Lemma failed_fetch_is_visited_witness :
  ∃ st', crawl_step Site.down Site.args Site.allowed Run.host Run.start_down = Some st' ∧
         visited_pages st' = {[Site.home]} ∪ ∅ ∧
         size (visited_pages st') = 1 ∧
         queue st' = [] ∧
         downloaded_by_url st' = [] ∧
         output_files st' = ∅ ∧
         log st' = [] ++ [EvGet PageFetch Site.home].
Proof.
  apply (failed_fetch_is_visited Site.down Site.args Site.allowed Run.host
           Run.start_down Site.home 0%Z []).
  - by vm_compute.
  - by vm_compute.
  - apply not_elem_of_empty.
  - by vm_compute.
  - reflexivity.
  - right. exists Site.unavailable. split; [reflexivity | left; reflexivity].
Defined.

End WalkerClaims.

(** ** The claims on the fetch policy *)

Section FetchPolicy.

Ltac fetch_cases W :=
  repeat match goal with
         | |- context [session_get W ?l ?u] =>
             let r := fresh "r" in
             let E := fresh "E" in
             destruct (session_get W l u) as [r|] eqn:E; cbn [download_attempts polite_get]
         | |- context [((status_code ?r =? 403) || (status_code ?r =? 404))%Z] =>
             destruct ((status_code r =? 403) || (status_code r =? 404))%Z eqn:?
         | |- context [(500 <=? status_code ?r)%Z] =>
             destruct (Z.leb_spec 500 (status_code r))
         | |- context [negb (ok ?r)] =>
             destruct (ok r) eqn:?; cbn [negb]
         end.

Lemma attempts_123 : seqZ 1 MAX_RETRIES = [1; 2; 3]%Z.
Proof. reflexivity. Qed.

(** The back-off sleeps of one download grow from one to the next. *)
Lemma download_image_backoff W url l :
  ∃ evs, (download_image W url l).2 = l ++ evs ∧ StronglySorted Z.lt (sleeps evs).
Proof.
  unfold download_image. rewrite attempts_123. cbn [download_attempts polite_get].
  fetch_cases W; cbn [snd]; rewrite <- ?app_assoc; cbn [app];
    (eexists; split; [reflexivity|]); cbn;
    repeat (constructor; try lia).
Qed.

(** A client error ends the download at once. *)
Lemma download_image_client_error W url l r :
  session_get W l url = Some r →
  (400 ≤ status_code r < 500)%Z →
  download_image W url l = (None, l ++ [EvGet ImageFetch url]).
Proof.
  intros Hr Hs. unfold download_image. rewrite attempts_123.
  cbn [download_attempts polite_get]. rewrite Hr.
  destruct (_ || _)%Z; [done|].
  destruct (Z.leb_spec 500 (status_code r)); [lia|].
  unfold ok. destruct (Z.leb_spec 400 (status_code r)); [|lia].
  destruct (Z.ltb_spec (status_code r) 600); [done | lia].
Qed.

Lemma download_attempts_cons W url k rest l :
  download_attempts W url (k :: rest) l =
    match session_get W l url with
    | None => download_attempts W url rest ((l ++ [EvGet ImageFetch url]) ++ [EvSleep (350 * k)])
    | Some r =>
        if ((status_code r =? 403) || (status_code r =? 404))%Z
        then (None, l ++ [EvGet ImageFetch url])
        else if (500 <=? status_code r)%Z
             then download_attempts W url rest
                    ((l ++ [EvGet ImageFetch url]) ++ [EvSleep (500 * k)])
             else if negb (ok r) then (None, l ++ [EvGet ImageFetch url])
                  else (Some (content r), l ++ [EvGet ImageFetch url])
    end.
Proof. reflexivity. Qed.

(** Every attempt starts with a request. *)
Lemma download_attempts_first W url k rest l :
  ∃ evs, (download_attempts W url (k :: rest) l).2 = l ++ EvGet ImageFetch url :: evs.
Proof.
  cbn [download_attempts polite_get].
  destruct (session_get W l url) as [r|].
  - destruct (_ || _)%Z; [by exists []|].
    destruct (500 <=? status_code r)%Z.
    + destruct (download_attempts_log W url rest
                  ((l ++ [EvGet ImageFetch url]) ++ [EvSleep (500 * k)])) as (evs & -> & _).
      exists (EvSleep (500 * k) :: evs). by rewrite <- !app_assoc.
    + destruct (negb (ok r)); by exists [].
  - destruct (download_attempts_log W url rest
                ((l ++ [EvGet ImageFetch url]) ++ [EvSleep (350 * k)])) as (evs & -> & _).
    exists (EvSleep (350 * k) :: evs). by rewrite <- !app_assoc.
Qed.

(** A network error or a server error is followed by a sleep and a second
    request. *)
Lemma download_image_retries W url l :
  (session_get W l url = None ∨
   ∃ r, session_get W l url = Some r ∧ (500 ≤ status_code r)%Z) →
  ∃ ms evs, (download_image W url l).2
            = l ++ [EvGet ImageFetch url; EvSleep ms; EvGet ImageFetch url] ++ evs.
Proof.
  intros Hfail. unfold download_image. rewrite attempts_123.
  rewrite download_attempts_cons.
  destruct Hfail as [-> | (r & -> & Hr)].
  - destruct (download_attempts_first W url 2 [3%Z]
                ((l ++ [EvGet ImageFetch url]) ++ [EvSleep (350 * 1)])) as (evs & ->).
    exists (350 * 1)%Z, evs. by rewrite <- !app_assoc.
  - assert ((status_code r =? 403) || (status_code r =? 404) = false)%Z as ->.
    { apply orb_false_intro; apply Z.eqb_neq; lia. }
    destruct (Z.leb_spec 500 (status_code r)); [|lia].
    destruct (download_attempts_first W url 2 [3%Z]
                ((l ++ [EvGet ImageFetch url]) ++ [EvSleep (500 * 1)])) as (evs & ->).
    exists (500 * 1)%Z, evs. by rewrite <- !app_assoc.
Qed.

End FetchPolicy.

Section FetchPolicyClaims.

(** C6 (amended). A page is requested once and never again, whatever the
    outcome: a turn of the crawl issues at most one page request, a failed
    one (network error, 4xx, 5xx, no HTML) is followed by no sleep and no
    second request, and no page is requested twice in a crawl.  The bounded
    retry belongs to image downloads: at most three requests, a network
    error or a 5xx answer is followed by a sleep and a new request, the
    sleeps grow from one attempt to the next, and a 4xx answer ends the
    download at once. *)
Theorem fetch_retry_policy (W : World) :
  (∀ args allowed bh st st',
      crawl_step W args allowed bh st = Some st' →
      ∃ evs, log st' = log st ++ evs ∧ length (page_gets evs) ≤ 1) ∧
  (∀ args allowed bh st page_url depth rest,
      queue st = (page_url, depth) :: rest →
      (Z.of_nat (size (visited_pages st)) < max_pages args)%Z →
      page_url ∉ visited_pages st →
      (depth ≤ max_depth args)%Z →
      can_fetch W page_url = true →
      (session_get W (log st) page_url = None ∨
       ∃ r, session_get W (log st) page_url = Some r ∧ ok r = false) →
      ∃ st', crawl_step W args allowed bh st = Some st' ∧
             page_url ∈ visited_pages st' ∧
             log st' = log st ++ [EvGet PageFetch page_url]) ∧
  (∀ args allowed bh base files st,
      reachable W args allowed bh base files st → NoDup (page_gets (log st))) ∧
  (∀ url l,
      ∃ evs, (download_image W url l).2 = l ++ evs
             ∧ image_gets evs = replicate (length (image_gets evs)) url
             ∧ (Z.of_nat (length (image_gets evs)) ≤ MAX_RETRIES)%Z
             ∧ StronglySorted Z.lt (sleeps evs)) ∧
  (∀ url l,
      (session_get W l url = None ∨
       ∃ r, session_get W l url = Some r ∧ (500 ≤ status_code r)%Z) →
      ∃ ms evs, (download_image W url l).2
                = l ++ [EvGet ImageFetch url; EvSleep ms; EvGet ImageFetch url] ++ evs) ∧
  (∀ url l r,
      session_get W l url = Some r → (400 ≤ status_code r < 500)%Z →
      download_image W url l = (None, l ++ [EvGet ImageFetch url])).
Proof.
  split_and!.
  - intros args allowed bh st st' Hstep.
    apply crawl_step_cases in Hstep
      as (page_url & depth & rest & _ & _ & [[-> _] | Hfetched]).
    + exists []. simpl. split; [by rewrite app_nil_r | lia].
    + destruct Hfetched as (_ & _ & _ & _ & (evs & -> & Hp) & _).
      exists (EvGet PageFetch page_url :: evs). split; [done|].
      simpl. rewrite Hp. simpl. lia.
  - intros args allowed bh st page_url depth rest Hq Hlt Hnew Hd Hrobots Hfail.
    destruct (crawl_step_failed_fetch W args allowed bh st page_url depth rest)
      as (st' & Hstep & Hvis & _ & _ & _ & _ & Hlog); try done.
    { destruct Hfail as [Hn | (r & Hr & Hok)]; [by left|]. right. exists r. by split; [|left]. }
    exists st'. split; [done|]. split; [|done]. rewrite Hvis.
    apply elem_of_union_l. by apply elem_of_singleton.
  - intros args allowed bh base files st Hr.
    by destruct (reachable_invariant W args allowed bh base files st Hr) as (_ & Hnd & _).
  - intros url l.
    destruct (download_image_log W url l) as (evs & Hlog & _ & Hall & Hn).
    destruct (download_image_backoff W url l) as (evs' & Hlog' & Hsorted).
    rewrite Hlog in Hlog'. apply app_inv_head in Hlog'. subst evs'.
    exists evs. split_and!; [done | done | unfold MAX_RETRIES; lia | done].
  - intros url l. apply download_image_retries.
  - intros url l r. apply download_image_client_error.
Qed.

Lemma down_run :
  (fun r => (events r, pages_visited r)) <$> Run.report_of (main Site.down Site.args ∅ 2)
  = Some ([EvGet PageFetch Site.home], {[Site.home]}).
Proof. by_evaluation. Qed.

(** C6, as stated, fails: a page that only ever gets a 503 is requested
    once and given up. *)
Lemma failed_page_not_retried : ¬ retries_failed_page Site.down Site.args Site.home.
Proof.
  intros Hclaim. pose proof down_run as Hrun.
  destruct (main Site.down Site.args ∅ 2) as [[|r]|] eqn:Hmain; try done.
  simpl in Hrun. injection Hrun as Hev Hvis.
  specialize (Hclaim ltac:(intros l; exists Site.unavailable; split; [done | simpl; lia])
                     2 r Hmain ltac:(rewrite Hvis; by apply elem_of_singleton)).
  unfold retried in Hclaim. rewrite Hev in Hclaim. vm_compute in Hclaim. lia.
Qed.

(** C7 (amended). An image URL whose path carries an extension other than
    [.svg] and whose full text, query and fragment included, has no match
    of [IMG_EXT_RE] is dropped before any request: the state, its log
    included, is left as it was. *)
Theorem prefilter_rejects (W : World) (allowed : list string) (page_url : string)
    (st : Crawl) (image_url a : string) :
  Py.lower (Py.path_suffix (path (urlparse W image_url))) ≠ "" →
  Py.lower (Py.path_suffix (path (urlparse W image_url))) ≠ ".svg" →
  IMG_EXT_RE_search image_url = false →
  process_image W allowed page_url st (image_url, a) = st.
Proof.
  intros Hext Hsvg Hre. unfold process_image.
  destruct (is_downloaded st image_url); [done|].
  destruct (negb (allowed_image_domain W image_url allowed)); [done|].
  assert (prefiltered W image_url = true) as ->; [|done].
  unfold prefiltered. rewrite Hre.
  rewrite (proj2 (String.eqb_neq _ _) Hext), (proj2 (String.eqb_neq _ _) Hsvg). done.
Qed.

Lemma prefilter_rejects_witness :
  process_image Site.world Site.allowed Site.home Run.start (Stale.report, "") = Run.start.
Proof.
  apply (prefilter_rejects Site.world Site.allowed Site.home Run.start Stale.report "").
  - by vm_compute.
  - by vm_compute.
  - by vm_compute.
Defined.

(** C7, as stated, fails: the path of the script URL ends in [.php], and
    the URL is requested all the same, because its query ends in [.jpg]. *)
Lemma script_url_is_requested : ¬ rejects_unknown_extension Site.world Site.script.
Proof.
  intros Hclaim.
  assert (unknown_extension Site.world Site.script) as Hunknown.
  { unfold unknown_extension. vm_compute. split_and!; [done | | done].
    intros Hin. repeat (apply elem_of_cons in Hin as [Hin | Hin]; [done|]).
    by apply elem_of_nil in Hin. }
  specialize (Hclaim Hunknown Site.allowed Site.home Run.start "").
  by vm_compute in Hclaim.
Qed.

(** C3: the thumbnail shown on two pages is downloaded with success twice,
    since the quality filter rejects it and nothing records that. *)
Theorem thumbnail_requested_twice :
  (fun r => filter (fun u => u = Site.thumb) (image_gets (events r)))
    <$> Run.report_of (main Site.world Site.args ∅ 3)
  = Some [Site.thumb; Site.thumb]
  ∧ session_get Site.world [] Site.thumb = Some (Site.picture "image/jpeg" Site.thumb_bytes)
  ∧ ok (Site.picture "image/jpeg" Site.thumb_bytes) = true
  ∧ should_skip Site.world Site.thumb 120 90
      (Z.of_nat (String.length Site.thumb_bytes)) ".jpg" = true.
Proof. split_and!; by_evaluation. Qed.

(** C8: the pipeline stores an accepted image under the extension [.avif],
    the pruning loop never unlinks a file with that extension, and so a
    stale [.avif] file outlives a run whose manifest is empty, while a stale
    [.jpg] file is deleted. *)
Theorem stale_avif_survives :
  (∀ image, guess_extension Site.world Site.field image = ".avif") ∧
  (∀ W keep name, Py.lower (Py.name_suffix name) = ".avif" → pruned W keep name = false) ∧
  (fun r => (manifest r, files_left r))
    <$> Run.report_of (main Site.down Site.args Stale.files 2)
  = Some ([], {[ Stale.avif; "manifest.json"; "approved-manifest.json"; "review.html" ]}).
Proof.
  split_and!.
  - intros image. reflexivity.
  - intros W keep name Hs. unfold pruned. rewrite Hs. reflexivity.
  - by_evaluation.
Qed.

End FetchPolicyClaims.

(** * Further properties of the code *)

(** ** The distance between fingerprints *)

Section Distance.

Lemma bit_count_nonneg x : (0 ≤ Py.bit_count x)%Z.
Proof.
  assert (∀ p, (0 < Py.pos_bit_count p)%Z) as Hpos by (induction p; simpl; lia).
  destruct x as [|p|p]; simpl; [lia | |]; specialize (Hpos p); lia.
Qed.

Lemma string_eqb_sym (a b : string) : (a =? b)%string = (b =? a)%string.
Proof.
  destruct (String.eqb_spec a b) as [->|Hne].
  - by rewrite String.eqb_refl.
  - symmetry. apply String.eqb_neq. congruence.
Qed.

(** X1. [hamming_distance_hex] is symmetric and never negative, for all
    strings, parseable or not. *)
Theorem hamming_distance_symmetric (a b : string) :
  hamming_distance_hex a b = hamming_distance_hex b a ∧
  (0 ≤ hamming_distance_hex a b)%Z.
Proof.
  unfold hamming_distance_hex.
  rewrite (orb_comm (Py.startswith b "ahash-")), (string_eqb_sym b a).
  destruct (_ || _).
  - destruct (a =? b)%string; split; (done || lia).
  - destruct (Py.int16 a) as [x|], (Py.int16 b) as [y|]; try (split; (done || lia)).
    rewrite (Z.lxor_comm y x). split; [done | apply bit_count_nonneg].
Qed.


(** X3. As soon as one of the two strings is a fallback fingerprint, they
    are within the clustering threshold exactly when they are equal: the
    fallback hash only ever groups identical fingerprints. *)
Theorem fallback_matches_only_itself (a b : string) :
  Py.startswith a "ahash-" = true ∨ Py.startswith b "ahash-" = true →
  ((hamming_distance_hex a b ≤ PHASH_DISTANCE_THRESHOLD)%Z ↔ a = b).
Proof.
  intros Hp. unfold hamming_distance_hex, PHASH_DISTANCE_THRESHOLD.
  assert (Py.startswith a "ahash-" || Py.startswith b "ahash-" = true) as ->.
  { destruct Hp as [-> | ->]; [done | apply orb_true_r]. }
  destruct (String.eqb_spec a b); split; (done || lia).
Qed.

Lemma fallback_matches_only_itself_witness :
  (hamming_distance_hex "ahash-0f0f0f0f0f0f0f0f" "ahash-0f0f0f0f0f0f0f0e"
   ≤ PHASH_DISTANCE_THRESHOLD)%Z
  ↔ "ahash-0f0f0f0f0f0f0f0f" = "ahash-0f0f0f0f0f0f0f0e".
Proof.
  apply (fallback_matches_only_itself "ahash-0f0f0f0f0f0f0f0f" "ahash-0f0f0f0f0f0f0f0e").
  left. reflexivity.
Defined.

End Distance.

(** ** The clusters *)

Section Clusters.
Implicit Types (h : heap) (cls : list Cluster) (cs : list ref).

(** An invariant of the clusters that one turn of the loop keeps is kept by
    the whole loop. *)
Lemma cluster_fold_ind (P : heap → list Cluster → Prop) :
  (∀ h cls c, P h cls → P (cluster_step (h, cls) c).1 (cluster_step (h, cls) c).2) →
  ∀ cs h cls, P h cls →
    P (fold_left cluster_step cs (h, cls)).1 (fold_left cluster_step cs (h, cls)).2.
Proof.
  intros Hstep. induction cs as [|c cs IH]; intros h cls HP; [done|].
  change (fold_left cluster_step (c :: cs) (h, cls))
    with (fold_left cluster_step cs (cluster_step (h, cls) c)).
  specialize (Hstep h cls c HP).
  destruct (cluster_step (h, cls) c) as [h1 cls1]. by apply IH.
Qed.

Lemma members_near_rep_assign h r label cl :
  members_near_rep h cl → members_near_rep (assign_cluster h r label) cl.
Proof.
  intros [Hhd Hnear]. split; [done|]. intros r' Hr'. rewrite !phash_assign. by apply Hnear.
Qed.

Lemma cluster_step_near h cls c :
  Forall (members_near_rep h) cls →
  Forall (members_near_rep (cluster_step (h, cls) c).1) (cluster_step (h, cls) c).2.
Proof.
  intros Hall.
  pose proof (find_match_first_within h (phash (deref h c)) 0 cls) as Hfm.
  destruct (find_match h (phash (deref h c)) 0 cls) as [[i m]|] eqn:E.
  - rewrite (cluster_step_match _ _ _ _ _ E). simpl.
    destruct Hfm as (k & _ & -> & Hm). simpl.
    apply Forall_insert.
    + eapply Forall_impl; [exact Hall|]. intros cl. apply members_near_rep_assign.
    + pose proof (Forall_lookup_1 _ _ _ _ Hall Hm) as [Hhd Hnear].
      split; simpl.
      * revert Hhd. by destruct (items m).
      * intros r. rewrite !phash_assign. revert Hnear.
        destruct (items m) as [|x xs]; simpl; intros Hnear Hr.
        -- by apply elem_of_nil in Hr.
        -- apply elem_of_app in Hr as [Hr | ->%list_elem_of_singleton].
           ++ by apply Hnear.
           ++ by eapply find_match_sound.
  - rewrite (cluster_step_new _ _ _ E). simpl.
    apply Forall_app. split.
    + eapply Forall_impl; [exact Hall|]. intros cl. apply members_near_rep_assign.
    + apply Forall_singleton. split; simpl; [done|]. intros r Hr. by apply elem_of_nil in Hr.
Qed.

Lemma cluster_members_near_representative_aux h cs :
  Forall (members_near_rep (cluster_loop h cs).1) (cluster_loop h cs).2.
Proof.
  apply (cluster_fold_ind (fun h cls => Forall (members_near_rep h) cls)).
  - intros h' cls c. apply cluster_step_near.
  - constructor.
Qed.

(** X4. In every cluster the loop builds, the representative is the first
    member, and every later member is within Hamming distance 6 of it. *)
Theorem cluster_members_near_representative h cs :
  Forall (members_near_rep (cluster_loop h cs).1) (cluster_loop h cs).2.
Proof. apply cluster_members_near_representative_aux. Qed.

Lemma concat_items_insert cls k m m' c :
  cls !! k = Some m → items m' = items m ++ [c] →
  concat (items <$> <[k := m']> cls) ≡ₚ concat (items <$> cls) ++ [c].
Proof.
  revert k. induction cls as [|cl cls IH]; intros k Hk Hitems; [done|].
  destruct k as [|k]; simpl in *.
  - injection Hk as ->. rewrite Hitems, <- !app_assoc.
    apply Permutation_app_head, Permutation_app_comm.
  - rewrite (IH k Hk Hitems). by rewrite app_assoc.
Qed.

Lemma cluster_step_items h cls c :
  concat (items <$> (cluster_step (h, cls) c).2) ≡ₚ concat (items <$> cls) ++ [c].
Proof.
  pose proof (find_match_first_within h (phash (deref h c)) 0 cls) as Hfm.
  destruct (find_match h (phash (deref h c)) 0 cls) as [[i m]|] eqn:E.
  - rewrite (cluster_step_match _ _ _ _ _ E). simpl.
    destruct Hfm as (k & _ & -> & Hm). simpl. by eapply concat_items_insert.
  - rewrite (cluster_step_new _ _ _ E). simpl.
    by rewrite fmap_app, concat_app.
Qed.

Lemma cluster_fold_items cs : ∀ h cls,
  concat (items <$> (fold_left cluster_step cs (h, cls)).2) ≡ₚ concat (items <$> cls) ++ cs.
Proof.
  induction cs as [|c cs IH]; intros h cls.
  - simpl. by rewrite app_nil_r.
  - change (fold_left cluster_step (c :: cs) (h, cls))
      with (fold_left cluster_step cs (cluster_step (h, cls) c)).
    pose proof (cluster_step_items h cls c) as Hstep.
    destruct (cluster_step (h, cls) c) as [h1 cls1]. simpl in Hstep.
    etrans; [apply IH|]. rewrite Hstep, <- app_assoc. done.
Qed.

Lemma survivors_are_best h cs :
  (cluster_candidates h cs).2 = best <$> (cluster_loop h cs).2.
Proof.
  unfold cluster_candidates. destruct (cluster_loop h cs) as [h1 cls].
  by rewrite collect_fold_items.
Qed.

Lemma survivors_nodup h cs :
  NoDup cs → NoDup (best <$> (cluster_loop h cs).2).
Proof.
  intros Hnd.
  pose proof (cluster_loop_refines h cs) as (_ & _ & _ & _ & Hk).
  pose proof (cluster_fold_best cs h [] (Forall_nil_2 _)) as Hbest.
  fold (cluster_loop h cs) in Hbest.
  apply NoDup_alt. intros i j r Hi Hj.
  apply list_lookup_fmap_Some in Hi as (ci & -> & Hi).
  apply list_lookup_fmap_Some in Hj as (cj & Hr & Hj).
  destruct (Hk i) as (ci' & Hci & _ & Hitems_i & _); [by eapply lookup_lt_Some|].
  destruct (Hk j) as (cj' & Hcj & _ & Hitems_j & _); [by eapply lookup_lt_Some|].
  rewrite Hi in Hci. injection Hci as <-. rewrite Hj in Hcj. injection Hcj as <-.
  destruct (Forall_lookup_1 _ _ _ _ Hbest Hi) as [Hbi _].
  destruct (Forall_lookup_1 _ _ _ _ Hbest Hj) as [Hbj _].
  rewrite Hitems_i in Hbi. rewrite Hitems_j, <- Hr in Hbj.
  by eapply members_of_disjoint.
Qed.

Lemma elem_of_concat {A} (x : A) (ls : list (list A)) :
  x ∈ concat ls ↔ ∃ l, x ∈ l ∧ l ∈ ls.
Proof.
  induction ls as [|l ls IH]; simpl.
  - split; [by intros ?%elem_of_nil | by intros (l & _ & ?%elem_of_nil)].
  - rewrite elem_of_app, IH. split.
    + intros [Hx | (l' & Hx & Hl')]; [exists l | exists l']; split; try done.
      * by left.
      * by right.
    + intros (l' & Hx & [-> | Hl']%elem_of_cons); [by left | right; eauto].
Qed.

Lemma concat_length_nonempty {A} (ls : list (list A)) :
  Forall (fun l => l ≠ []) ls → length ls ≤ length (concat ls).
Proof.
  induction 1 as [|l ls Hl _ IH]; simpl; [done|].
  rewrite length_app. destruct l; [done | simpl; lia].
Qed.

(** X5. The clusters partition the input: every candidate is a member of
    exactly one cluster (the members of all clusters, put together, are a
    permutation of the input).  [cluster_candidates] returns one survivor
    per cluster, each taken from the input; so there are never more
    survivors than candidates, none for an empty input, at least one
    otherwise, and no survivor twice when no candidate is given twice. *)
Theorem clusters_partition_candidates h cs :
  let cls := (cluster_loop h cs).2 in
  let out := (cluster_candidates h cs).2 in
  concat (items <$> cls) ≡ₚ cs ∧
  length out = length cls ∧
  length out ≤ length cs ∧
  (∀ r, r ∈ out → r ∈ cs) ∧
  (cs = [] → out = []) ∧
  (cs ≠ [] → out ≠ []) ∧
  (NoDup cs → NoDup out).
Proof.
  intros cls out.
  assert (concat (items <$> cls) ≡ₚ cs) as Hperm by apply (cluster_fold_items cs h []).
  assert (out = best <$> cls) as Hout by apply survivors_are_best.
  pose proof (cluster_fold_best cs h [] (Forall_nil_2 _)) as Hbest.
  pose proof (cluster_members_near_representative_aux h cs) as Hnear.
  fold (cluster_loop h cs) in Hbest. fold cls in Hbest, Hnear.
  assert (length cls ≤ length cs) as Hlen.
  { rewrite <- Hperm. etrans; [|apply concat_length_nonempty].
    - by rewrite length_fmap.
    - apply Forall_fmap. eapply Forall_impl; [exact Hnear|].
      intros cl [Hhd _] Hempty. simpl in Hempty. by rewrite Hempty in Hhd. }
  split_and!.
  - done.
  - by rewrite Hout, length_fmap.
  - by rewrite Hout, length_fmap.
  - intros r. rewrite Hout. intros (cl & -> & Hcl)%list_elem_of_fmap.
    rewrite <- Hperm. apply elem_of_concat. exists (items cl). split.
    + eapply Forall_forall in Hbest; [|done]. by destruct Hbest.
    + apply list_elem_of_fmap. eauto.
  - intros ->. done.
  - intros Hne Hnil. rewrite Hout in Hnil. apply fmap_nil_inv in Hnil.
    rewrite Hnil in Hperm. simpl in Hperm. apply Permutation_nil_l in Hperm. done.
  - intros Hnd. rewrite Hout. by apply survivors_nodup.
Qed.

(** *** What clustering does to the store *)

Lemma same_but_label_assign h r r' label :
  same_but_label (deref (assign_cluster h r label) r') (deref h r').
Proof.
  unfold same_but_label. by destruct (deref_assign_frame h r r' label) as [-> | ->].
Qed.

Lemma cluster_step_heap h cls c :
  ∃ label, (cluster_step (h, cls) c).1 = assign_cluster h c label.
Proof.
  unfold cluster_step. destruct (find_match _ _ _ _) as [[i m]|]; simpl; eauto.
Qed.

Lemma cluster_fold_frame cs : ∀ h cls r,
  same_but_label (deref (fold_left cluster_step cs (h, cls)).1 r) (deref h r) ∧
  (r ∉ cs → deref (fold_left cluster_step cs (h, cls)).1 r = deref h r).
Proof.
  induction cs as [|c cs IH]; intros h cls r; [done|].
  change (fold_left cluster_step (c :: cs) (h, cls))
    with (fold_left cluster_step cs (cluster_step (h, cls) c)).
  destruct (cluster_step_heap h cls c) as [label Hheap].
  destruct (cluster_step (h, cls) c) as [h1 cls1]. simpl in Hheap. subst h1.
  destruct (IH (assign_cluster h c label) cls1 r) as [Hsame Hout]. split.
  - unfold same_but_label in *. rewrite Hsame. apply same_but_label_assign.
  - intros [Hne Hr]%not_elem_of_cons. rewrite Hout by done. by apply deref_assign_ne.
Qed.

Lemma collect_fold_same cls : ∀ h acc r,
  same_but_label (deref (fold_left collect_step cls (h, acc)).1 r) (deref h r).
Proof.
  induction cls as [|cl cls IH]; intros h acc r; [done|]. simpl.
  unfold same_but_label in *. rewrite IH. apply same_but_label_assign.
Qed.

Lemma collect_fold_length cls : ∀ h acc,
  length (fold_left collect_step cls (h, acc)).1 = length h.
Proof.
  induction cls as [|cl cls IH]; intros h acc; [done|]. simpl.
  by rewrite IH, length_assign.
Qed.

(** X6. [cluster_candidates] writes cluster labels and nothing else: the
    store keeps its size, every object keeps all its other fields, and an
    object that is not among the candidates is not touched at all. *)
Theorem clustering_only_relabels h cs r :
  let h' := (cluster_candidates h cs).1 in
  length h' = length h ∧
  same_but_label (deref h' r) (deref h r) ∧
  (r ∉ cs → deref h' r = deref h r).
Proof.
  intros h'. subst h'. unfold cluster_candidates.
  pose proof (cluster_fold_frame cs h [] r) as [Hsame Hout].
  pose proof (cluster_fold_length cs h []) as Hlen.
  pose proof (cluster_fold_best cs h [] (Forall_nil_2 _)) as Hbest.
  pose proof (cluster_fold_items cs h []) as Hperm.
  fold (cluster_loop h cs) in Hsame, Hout, Hlen, Hbest, Hperm.
  destruct (cluster_loop h cs) as [h1 cls]. simpl in *.
  split_and!.
  - by rewrite collect_fold_length.
  - unfold same_but_label in *. rewrite <- Hsame. apply collect_fold_same.
  - intros Hr. rewrite collect_fold_frame; [by apply Hout|].
    intros (cl & -> & Hcl)%list_elem_of_fmap. apply Hr.
    rewrite <- Hperm. apply elem_of_concat. exists (items cl). split.
    + eapply Forall_forall in Hbest; [|done]. by destruct Hbest.
    + apply list_elem_of_fmap. eauto.
Qed.

(** *** The labels of all candidates *)








End Clusters.

(** ** The extractor *)

Section Extractor.
Context (W : World).

Lemma dedupe_on_spec {A} (key : A → string) (l : list A) : ∀ seen,
  NoDup (key <$> dedupe_on key seen l) ∧
  (∀ x, x ∈ dedupe_on key seen l → x ∈ l ∧ key x ∉ seen) ∧
  (∀ x, x ∈ l → key x ∉ seen → key x ∈ key <$> dedupe_on key seen l).
Proof.
  induction l as [|y l IH]; intros seen; simpl.
  - split_and!; [constructor | by intros x ?%elem_of_nil | by intros x ?%elem_of_nil].
  - case_bool_decide as Hy.
    + destruct (IH seen) as (Hnd & Hin & Hall). split_and!; [done | |].
      * intros x Hx. destruct (Hin x Hx). split; [by right | done].
      * intros x [-> | Hx]%elem_of_cons Hk; [done | by apply Hall].
    + destruct (IH ({[key y]} ∪ seen)) as (Hnd & Hin & Hall). split_and!.
      * rewrite fmap_cons. apply NoDup_cons. split; [|done].
        intros (x & Hk & Hx)%list_elem_of_fmap. destruct (Hin x Hx) as [_ Hout].
        apply Hout. rewrite <- Hk. by apply elem_of_union_l, elem_of_singleton.
      * intros x [-> | Hx]%elem_of_cons; [by split; [left|]|].
        destruct (Hin x Hx) as [Hl Hout]. split; [by right|].
        intros Hs. apply Hout. by apply elem_of_union_r.
      * intros x Hx Hk. rewrite fmap_cons.
        destruct (decide (key x = key y)) as [->|Hne]; [by left|]. right.
        apply elem_of_cons in Hx as [-> | Hx]; [done|]. apply Hall; [done|].
        intros [Heq%elem_of_singleton | Hs]%elem_of_union; done.
Qed.

Lemma truthy_nonempty o u : truthy o = Some u → u ≠ "".
Proof. destruct o as [[|c s]|]; simpl; intros [= <-]; done. Qed.

Lemma parse_srcset_nonempty srcset page_url u :
  u ∈ parse_srcset W srcset page_url → u ≠ "".
Proof.
  unfold parse_srcset. intros (part & _ & Hu)%list_elem_of_omap. by eapply truthy_nonempty.
Qed.

Lemma found_images_nonempty html page_url u a :
  (u, a) ∈ extract_image_urls W html page_url → u ≠ "".
Proof.
  unfold extract_image_urls. intros Hin.
  apply (dedupe_on_spec fst) in Hin as [Hin _].
  apply elem_of_app in Hin as [Hin | Hin]; [|apply elem_of_app in Hin as [Hin | Hin]].
  - apply list_elem_of_bind in Hin as (img & Hin & _). unfold img_entries in Hin.
    apply elem_of_app in Hin as [Hin | Hin].
    + destruct (truthy _) as [src|] eqn:Hsrc; [|by apply elem_of_nil in Hin].
      apply list_elem_of_singleton in Hin as [= -> _]. by eapply truthy_nonempty.
    + apply list_elem_of_fmap in Hin as (u' & [= -> _] & Hu). by eapply parse_srcset_nonempty.
  - apply list_elem_of_bind in Hin as (meta & Hin & _). unfold meta_entries in Hin.
    destruct (_ =? _)%string; [|by apply elem_of_nil in Hin].
    destruct (truthy (normalize_url _ _ _)) as [c|] eqn:Hc; [|by apply elem_of_nil in Hin].
    apply list_elem_of_singleton in Hin as [= -> _]. by eapply truthy_nonempty.
  - apply list_elem_of_bind in Hin as (node & Hin & _). unfold style_entries in Hin.
    destruct (tag_get _ _) as [style|]; [|by apply elem_of_nil in Hin].
    apply list_elem_of_omap in Hin as (m & _ & Hm).
    destruct (truthy _) as [v|] eqn:Hv; [|done]. simpl in Hm. injection Hm as -> _.
    by eapply truthy_nonempty.
Qed.

(** X8. What the extractor returns for a page: no image URL twice and none
    empty; no link twice, and every link the canonical form of an [http] or
    [https] URL on the base host. *)
Theorem extractor_output (html page_url base_hostname : string) :
  NoDup (fst <$> extract_image_urls W html page_url) ∧
  (∀ u a, (u, a) ∈ extract_image_urls W html page_url → u ≠ "") ∧
  NoDup (extract_links W html page_url base_hostname) ∧
  (∀ link, link ∈ extract_links W html page_url base_hostname →
           ∃ url, link = canonical_page W url
                  ∧ (scheme (urlparse W url) = "http" ∨ scheme (urlparse W url) = "https")
                  ∧ hostname (urlparse W url) = Some base_hostname).
Proof.
  split_and!.
  - unfold extract_image_urls. apply (dedupe_on_spec fst).
  - apply found_images_nonempty.
  - unfold extract_links.
    match goal with |- NoDup (dedupe_on ?k ?s ?l) =>
      destruct (dedupe_on_spec k l s) as (Hnd & _) end.
    by rewrite list_fmap_id in Hnd.
  - unfold extract_links. intros link Hin.
    apply (dedupe_on_spec (fun x => x)) in Hin as [Hin _].
    apply list_elem_of_omap in Hin as (a & _ & Ha). unfold link_of in Ha.
    destruct (tag_get _ _) as [href|]; [|done].
    destruct (truthy _) as [url|]; [|done].
    destruct ((_ =? "http")%string) eqn:E1; destruct ((_ =? "https")%string) eqn:E2;
      simpl in Ha; try done;
      unfold same_domain in Ha; case_bool_decide as Hd; simpl in Ha; try done;
      injection Ha as <-; exists url; (split; [done|]); (split; [|done]).
    + left. by apply String.eqb_eq.
    + left. by apply String.eqb_eq.
    + right. by apply String.eqb_eq.
Qed.

(** X9. [guess_extension] always answers a dotted extension and never
    [.jpeg]: both a [.jpeg] URL and a JPEG decoder format give [.jpg]. *)
Theorem guess_extension_normalised (url : string) (image : Image) :
  Py.startswith (guess_extension W url image) "." = true ∧
  guess_extension W url image ≠ ".jpeg".
Proof.
  unfold guess_extension.
  set (ext := Py.lower (Py.path_suffix (path (urlparse W url)))).
  case_bool_decide as Hext.
  - unfold GUESS_EXTENSIONS in Hext.
    repeat (apply elem_of_cons in Hext as [-> | Hext]; [by split|]).
    by apply elem_of_nil in Hext.
  - set (fmt := Py.lower (default "" (format image))).
    destruct (String.eqb_spec fmt "jpeg") as [|Hne]; [by split|].
    destruct (String.eqb_spec fmt "") as [|Hne']; [by split|]. simpl. split.
    + unfold Py.startswith. simpl. by destruct fmt.
    + intros [= Heq]. done.
Qed.

End Extractor.

(** ** The image fetcher *)

Section Downloads.
Context (W : World).

Lemma download_attempts_some url attempts : ∀ l b l',
  download_attempts W url attempts l = (Some b, l') →
  ∃ l0 r, l' = l0 ++ [EvGet ImageFetch url] ∧ session_get W l0 url = Some r
          ∧ ok r = true ∧ (status_code r < 400)%Z ∧ content r = b.
Proof.
  induction attempts as [|k rest IH]; intros l b l'; [done|].
  rewrite download_attempts_cons.
  destruct (session_get W l url) as [r|] eqn:Hr; [|apply IH].
  destruct (_ || _)%Z; [done|].
  destruct (Z.leb_spec 500 (status_code r)) as [|Hlt]; [apply IH|].
  destruct (ok r) eqn:Hok; simpl; [|done].
  intros [= <- <-]. exists l, r. split_and!; try done.
  unfold ok in Hok. apply negb_true_iff, andb_false_iff in Hok as [Hok | Hok].
  - apply Z.leb_gt in Hok. lia.
  - apply Z.ltb_ge in Hok. lia.
Qed.

(** X10. When [download_image] returns bytes, they are the body of the
    answer to its last request, and that answer had a status below 400. *)
Theorem download_image_returns_ok_body (url : string) (l : list Event)
    (b : string) (l' : list Event) :
  download_image W url l = (Some b, l') →
  ∃ l0 r, l' = l0 ++ [EvGet ImageFetch url] ∧ session_get W l0 url = Some r
          ∧ ok r = true ∧ (status_code r < 400)%Z ∧ content r = b.
Proof. apply download_attempts_some. Qed.

End Downloads.

Lemma download_image_returns_ok_body_witness :
  ∃ l0 r, [EvGet ImageFetch Site.thumb] = l0 ++ [EvGet ImageFetch Site.thumb]
          ∧ session_get Site.world l0 Site.thumb = Some r
          ∧ ok r = true ∧ (status_code r < 400)%Z ∧ content r = Site.thumb_bytes.
Proof.
  apply (download_image_returns_ok_body Site.world Site.thumb []
           Site.thumb_bytes [EvGet ImageFetch Site.thumb]).
  reflexivity.
Defined.

(** ** Runs of the crawler *)

Section Runs.
Context (W : World) (args : Args) (allowed : list string) (bh : string).

Abbreviation crawl_step'' := (crawl_step W args allowed bh).



(** A property of the state that the bookkeeping of a turn and the
    handling of an image keep is kept by a turn. *)
Lemma crawl_step_ind (P : Crawl → Prop) :
  (∀ st q, P st → P (with_queue st q)) →
  (∀ st p, P st → P (visit st p)) →
  (∀ st p, P st → can_fetch W p = true → P (with_log st (log st ++ [EvGet PageFetch p]))) →
  (∀ st page found, P st → P (process_image W allowed page st found)) →
  ∀ st st', P st → crawl_step'' st = Some st' → P st'.
Proof.
  intros Hq Hv Hl Hi st st' HP. unfold crawl_step.
  destruct (queue st) as [|[page_url depth] rest]; [done|].
  destruct (negb _); [done|].
  case_bool_decide; [intros [= <-]; by apply Hq|].
  destruct (_ <? _)%Z; [intros [= <-]; by apply Hq|].
  destruct (can_fetch W page_url) eqn:Hrobots; simpl; [|intros [= <-]; by apply Hq].
  assert (P (with_log (with_queue st rest)
                      (log (with_queue st rest) ++ [EvGet PageFetch page_url]))) as HP1.
  { apply Hl; [by apply Hq | done]. }
  destruct (html_response _) as [r|]; intros [= <-]; [|by apply Hv].
  match goal with |- P (fold_left _ ?l ?s) =>
    assert (P s) as HP2 by (by apply Hq, Hv); revert HP2; generalize s; generalize l end.
  induction l as [|f l IH]; intros s Hs; [done|]. simpl. by apply IH, Hi.
Qed.

Lemma reachable_ind (P : Crawl → Prop) base files :
  P (initial W base files) →
  (∀ st st', P st → crawl_step'' st = Some st' → P st') →
  ∀ st, reachable W args allowed bh base files st → P st.
Proof.
  intros Hinit Hstep. unfold reachable.
  apply (rtc_ind_r P); [done|]. intros y z _ Hyz Hy. by eapply Hstep.
Qed.

Lemma is_downloaded_false st u :
  is_downloaded st u = false → u ∉ fst <$> downloaded_by_url st.
Proof.
  unfold is_downloaded. intros Hex (kv & -> & Hin)%list_elem_of_fmap.
  assert (existsb (fun kv' => (kv'.1 =? kv.1)%string) (downloaded_by_url st) = true) as Ht.
  { apply existsb_exists. exists kv. split; [by apply list_elem_of_In | apply String.eqb_refl]. }
  congruence.
Qed.

Lemma should_skip_false url w h n ext :
  should_skip W url w h n ext = false →
  ext ≠ ".svg" ∧
  LOGO_HINT_RE_search (Py.lower (Py.path_name (path (urlparse W url)))) = false ∧
  (MIN_BYTES ≤ n)%Z ∧ (MIN_LONGEST_SIDE ≤ Z.max w h)%Z.
Proof.
  unfold should_skip.
  destruct (String.eqb_spec ext ".svg"); [done|].
  destruct (LOGO_HINT_RE_search _); [done|].
  destruct (Z.ltb_spec n MIN_BYTES); [done|].
  destruct (Z.ltb_spec (Z.max w h) MIN_LONGEST_SIDE); [done|]. done.
Qed.

(** What the handling of one image can do: nothing; or, for a URL not yet
    accepted, on an allowed host and past the cheap test, a download
    followed or not by the acceptance of a candidate that passed the gate. *)
Lemma process_image_cases page_url st u a :
  let st' := process_image W allowed page_url st (u, a) in
  st' = st ∨
  (is_downloaded st u = false ∧ allowed_image_domain W u allowed = true
   ∧ prefiltered W u = false ∧
   (st' = with_log st (download_image W u (log st)).2 ∨
    ∃ c, st' = accept (with_log st (download_image W u (log st)).2) c
         ∧ passed_gate W allowed (output_files st') (u, c))).
Proof.
  unfold process_image.
  destruct (is_downloaded st u) eqn:Hd; [by left|].
  destruct (allowed_image_domain W u allowed) eqn:Ha; [|by left]. simpl.
  destruct (prefiltered W u) eqn:Hp; [by left|].
  right. split_and!; try done.
  destruct (download_image W u (log st)) as [blob log1]. simpl.
  destruct blob as [[|ch blob]|]; [by left | | by left].
  destruct (image_open W (String ch blob)) as [image|]; [|by left].
  destruct (image_size image) as [w h].
  destruct (should_skip _ _ _ _ _ _) eqn:Hskip; [by left|].
  apply should_skip_false in Hskip as (Hsvg & Hlogo & Hbytes & Hside).
  right. eexists. split; [done|]. unfold passed_gate. simpl.
  split_and!; try done. by apply elem_of_union_l, elem_of_singleton.
Qed.

Lemma passed_gate_mono files files' kv :
  files ⊆ files' → passed_gate W allowed files kv → passed_gate W allowed files' kv.
Proof.
  intros Hsub (H1 & H2 & H3 & H4 & H5 & H6 & H7). unfold passed_gate.
  split_and!; try done. by apply Hsub.
Qed.

Lemma process_image_accepted page_url st found :
  accepted_ok W allowed st → accepted_ok W allowed (process_image W allowed page_url st found).
Proof.
  intros [Hnd Hall]. destruct found as [u a].
  destruct (process_image_cases page_url st u a)
    as [-> | (Hd & _ & _ & [-> | (c & -> & Hc)])]; [done | done |].
  pose proof Hc as (Hurl & _). simpl in Hurl.
  unfold accepted_ok. simpl in *. rewrite Hurl. split.
  - rewrite fmap_app. apply NoDup_app. split_and!; [done | | apply NoDup_singleton].
    intros x Hx ->%list_elem_of_singleton. by apply (is_downloaded_false st u).
  - apply Forall_app. split; [|by apply Forall_singleton].
    eapply Forall_impl; [exact Hall|]. intros kv. apply passed_gate_mono.
    apply union_subseteq_r.
Qed.

Lemma process_image_requests page_url st found :
  requests_ok W allowed st → requests_ok W allowed (process_image W allowed page_url st found).
Proof.
  intros Hok. destruct found as [u a].
  assert (requests_ok W allowed (with_log st (download_image W u (log st)).2) ∨
          ¬ (allowed_image_domain W u allowed = true ∧ prefiltered W u = false)) as Hlog.
  { destruct (allowed_image_domain W u allowed) eqn:Ha; [|right; by intros [? _]].
    destruct (prefiltered W u) eqn:Hp; [right; by intros [_ ?]|]. left.
    destruct (download_image_log W u (log st)) as (evs & Hevs & _ & Hrep & _).
    intros x. unfold requests_ok in Hok. simpl. rewrite Hevs, image_gets_app.
    intros [Hx | Hx]%elem_of_app; [by apply Hok|].
    rewrite Hrep in Hx. apply elem_of_replicate in Hx as [-> _]. done. }
  destruct (process_image_cases page_url st u a)
    as [-> | (_ & Ha & Hp & [-> | (c & -> & _)])]; [done | |];
    (destruct Hlog as [Hlog | Hno]; [exact Hlog | by destruct Hno]).
Qed.

Lemma reachable_accepted (base : string) (files : gset string) (st : Crawl) :
  reachable W args allowed bh base files st → accepted_ok W allowed st.
Proof.
  apply (reachable_ind (accepted_ok W allowed)).
  - split; [apply NoDup_nil_2 | apply Forall_nil_2].
  - apply crawl_step_ind; try done. intros s page found. apply process_image_accepted.
Qed.

(** X11. At every point of a crawl, the accepted candidates are filed
    under distinct URLs, each under its own; each has at least [MIN_BYTES]
    bytes and a longest side of at least [MIN_LONGEST_SIDE] pixels, a file
    name without logo hint, an allowed host and no cluster label yet, and
    its file is in the output directory. *)
Theorem accepted_passed_gate (base : string) (files : gset string) (st : Crawl) :
  reachable W args allowed bh base files st → accepted_ok W allowed st.
Proof. apply reachable_accepted. Qed.

Lemma reachable_requests (base : string) (files : gset string) (st : Crawl) :
  reachable W args allowed bh base files st → requests_ok W allowed st.
Proof.
  apply (reachable_ind (requests_ok W allowed)).
  - intros u Hu. simpl in Hu. by apply elem_of_nil in Hu.
  - apply crawl_step_ind; try done.
    + intros s p Hs _ u. simpl. rewrite image_gets_app. simpl. rewrite app_nil_r. apply Hs.
    + intros s page found. apply process_image_requests.
Qed.

(** X12. Every image request of a crawl goes to an allowed host, for a URL
    that passed the test made before any download. *)
Theorem image_requests_allowed (base : string) (files : gset string) (st : Crawl) :
  reachable W args allowed bh base files st → requests_ok W allowed st.
Proof. apply reachable_requests. Qed.

Lemma reachable_pages (base : string) (files : gset string) (st : Crawl) :
  reachable W args allowed bh base files st → pages_ok W args st.
Proof.
  apply (reachable_ind (pages_ok W args)).
  - split; [intros u Hu; simpl in Hu; by apply elem_of_nil in Hu|].
    apply Forall_singleton. simpl. lia.
  - intros s s' [Hlog Hq] Hstep.
    apply crawl_step_cases in Hstep
      as (page_url & depth & rest & Hqueue & _ & [[-> _] | (_ & Hdepth & Hrobots & _ & (evs & Hevs & Hpg) & Hrest)]).
    + rewrite Hqueue in Hq. apply Forall_cons in Hq as [_ Hq]. by split.
    + rewrite Hqueue in Hq. apply Forall_cons in Hq as [Hd Hq]. simpl in Hd. split.
      * intros u. rewrite Hevs, page_gets_app. simpl. rewrite Hpg.
        intros [Hu | ->%list_elem_of_singleton]%elem_of_app; [by apply Hlog | done].
      * destruct (html_response _) as [r|]; [rewrite Hrest | by rewrite Hrest].
        apply Forall_app. split; [done|]. apply Forall_fmap, Forall_forall.
        intros link _. simpl. lia.
Qed.

(** X13. Every page request of a crawl is for a URL that the robots rules
    allow, and the depth of every queued page is between 0 and
    [max_depth + 1]. *)
Theorem page_requests_allowed (base : string) (files : gset string) (st : Crawl) :
  reachable W args allowed bh base files st → pages_ok W args st.
Proof. apply reachable_pages. Qed.

Lemma process_image_files files page_url st found :
  files_ok files st → files_ok files (process_image W allowed page_url st found).
Proof.
  intros Hok. destruct found as [u a].
  destruct (process_image_cases page_url st u a)
    as [-> | (_ & _ & _ & [-> | (c & -> & _)])]; [done | done |].
  intros f. simpl. rewrite fmap_app, elem_of_union, elem_of_app, elem_of_singleton.
  simpl. rewrite list_elem_of_singleton. specialize (Hok f). tauto.
Qed.

Lemma reachable_files (base : string) (files : gset string) (st : Crawl) :
  reachable W args allowed bh base files st → files_ok files st.
Proof.
  apply (reachable_ind (files_ok files)).
  - intros f. simpl. split; [by left|]. intros [?|Hf]; [done|]. by apply elem_of_nil in Hf.
  - apply crawl_step_ind; try done. intros s page found. apply process_image_files.
Qed.

End Runs.

(** ** The whole run *)

Section Whole.
Context (W : World) (args : Args).

Lemma same_but_label_fields (x y : Candidate) :
  same_but_label x y →
  id x = id y ∧ filename x = filename y ∧ sourcePage x = sourcePage y ∧
  sourceImageUrl x = sourceImageUrl y ∧ alt x = alt y ∧ width x = width y ∧
  height x = height y ∧ bytes x = bytes y ∧ phash x = phash y.
Proof.
  unfold same_but_label, set_phashClusterId. intros [= ? ? ? ? ? ? ? ? ?]. done.
Qed.

Lemma survivors_subset (h : heap) (cs : list ref) (r : ref) :
  r ∈ (cluster_candidates h cs).2 → r ∈ cs.
Proof.
  rewrite survivors_are_best. intros (cl & -> & Hcl)%list_elem_of_fmap.
  pose proof (cluster_fold_best cs h [] (Forall_nil_2 _)) as Hbest.
  pose proof (cluster_fold_items cs h []) as Hperm.
  fold (cluster_loop h cs) in Hbest, Hperm. simpl in Hperm.
  rewrite <- Hperm. apply elem_of_concat. exists (items cl). split.
  - eapply Forall_forall in Hbest; [|done]. by destruct Hbest.
  - apply list_elem_of_fmap. eauto.
Qed.

Lemma cluster_candidates_same (h : heap) (cs : list ref) (r : ref) :
  same_but_label (deref (cluster_candidates h cs).1 r) (deref h r).
Proof.
  unfold cluster_candidates.
  pose proof (cluster_fold_frame cs h [] r) as [Hsame _].
  fold (cluster_loop h cs) in Hsame.
  destruct (cluster_loop h cs) as [h1 cls]. simpl in *.
  unfold same_but_label in *. rewrite <- Hsame. apply collect_fold_same.
Qed.

(** A run that goes past the check of the start URL ends in a state of the
    crawl, from which the report is made. *)
Lemma main_exit0 (files : gset string) (fuel : nat) (r : Report) :
  main W args files fuel = Some (Exit0 r) →
  ∃ st, reachable W args (allowlist args (base_host W args)) (base_host W args)
                  (Py.rstrip_char "/" (base_url args)) files st
        ∧ r = finish W st.
Proof.
  unfold main, base_host, allowlist. cbv zeta.
  destruct (truthy (hostname (urlparse W (Py.rstrip_char "/" (base_url args))))) as [host|];
    [|done].
  destruct (negb _); [done|]. simpl.
  destruct (crawl W args _ host fuel _) as [fin|] eqn:Hrun; [|done].
  simpl. intros [= <-]. exists fin. split; [|done]. by eapply crawl_rtc.
Qed.

(** The survivors of a run are stored candidates, each the value of a
    distinct entry of the table of downloads. *)
Lemma survivor_lookup (st : Crawl) (r : ref) :
  r ∈ deduped (finish W st) →
  ∃ u c, downloaded_by_url st !! r = Some (u, c)
         ∧ same_but_label (deref (candidates (finish W st)) r) c.
Proof.
  destruct (finish_fields W st) as (-> & -> & _).
  intros Hr. pose proof (survivors_subset _ _ _ Hr) as Hin.
  unfold found_refs in Hin. apply elem_of_seq in Hin as [_ Hlt]. simpl in Hlt.
  unfold found_store in Hlt. rewrite length_fmap in Hlt.
  destruct (lookup_lt_is_Some_2 _ _ Hlt) as [[u c] Hlook].
  exists u, c. split; [done|].
  assert (deref (found_store st) r = c) as <-.
  { unfold deref, found_store. apply list_lookup_total_correct.
    by rewrite list_lookup_fmap, Hlook. }
  apply cluster_candidates_same.
Qed.

Lemma pruned_kept (keep : gset string) (name : string) :
  name ∈ keep → pruned W keep name = false.
Proof.
  intros Hin. unfold pruned. rewrite (bool_decide_eq_true_2 (name ∈ keep)) by done.
  simpl. by rewrite andb_false_r.
Qed.

Lemma written_not_prunable (f : string) :
  f ∈ ({[ "manifest.json"; "approved-manifest.json"; "review.html" ]} : gset string) →
  ¬ prunable W f.
Proof.
  intros Hf [Hsuffix _]. revert Hsuffix.
  apply elem_of_union in Hf as [Hf | Hf]; [apply elem_of_union in Hf as [Hf | Hf]|];
    apply elem_of_singleton in Hf; subst f; by_evaluation.
Qed.

Lemma manifest_filenames (st : Crawl) (f : string) :
  f ∈ m_filename <$> manifest (finish W st) ↔
  f ∈ (fun r => filename (deref (candidates (finish W st)) r)) <$> deduped (finish W st).
Proof.
  destruct (finish_fields W st) as (-> & -> & ->).
  rewrite build_manifest_perm, <- list_fmap_compose. done.
Qed.


(** X15. At the end of a run, the file of every manifest entry is in the
    output directory; every entry has at least [MIN_BYTES] bytes, a longest
    side of at least [MIN_LONGEST_SIDE] pixels, a file name without logo
    hint and an allowed host; no two entries have the same source URL; and the manifest has one
    entry for each survivor, at most as many as there are candidates. *)
Theorem manifest_entries_ok (files : gset string) (fuel : nat) (r : Report) :
  main W args files fuel = Some (Exit0 r) →
  Forall (entry_ok W (allowlist args (base_host W args)) r) (manifest r) ∧
  NoDup (m_sourceImageUrl <$> manifest r) ∧
  length (manifest r) = length (deduped r) ∧
  length (deduped r) ≤ length (candidates r).
Proof.
  intros (st & Hreach & ->)%main_exit0.
  pose proof (reachable_accepted _ _ _ _ _ _ _ Hreach) as [Hnd Hgate].
  assert (NoDup (deduped (finish W st))) as Hnd_out.
  { destruct (finish_fields W st) as (_ & -> & _).
    rewrite survivors_are_best. apply survivors_nodup, (found_refs_valid st). }
  assert (manifest (finish W st) ≡ₚ
          (fun r => manifest_entry (deref (candidates (finish W st)) r)) <$> deduped (finish W st))
    as Hperm.
  { destruct (finish_fields W st) as (-> & -> & ->). apply build_manifest_perm. }
  split_and!.
  - rewrite Hperm. apply Forall_fmap, Forall_forall. intros ref Href.
    pose proof Href as (u & c & Hlook & Hsame)%survivor_lookup.
    apply same_but_label_fields in Hsame as (_ & Hname & _ & Hurl & _ & Hw & Hh & Hb & _).
    eapply Forall_forall in Hgate; [|by eapply list_elem_of_lookup_2].
    destruct Hgate as (Hkey & Hbytes & Hside & Hlogo & Hhost & _ & Hfile). simpl in *.
    unfold entry_ok. simpl. rewrite Hurl, Hw, Hh, Hb, Hkey.
    split_and!; try done.
    unfold finish. destruct (cluster_candidates _ _) as [h' best_items] eqn:E. simpl.
    unfold finish in Href, Hname. rewrite E in Href, Hname. simpl in Href, Hname.
    apply elem_of_union_r, elem_of_filter. split; [|by rewrite Hname].
    apply pruned_kept, elem_of_list_to_set, list_elem_of_fmap. by exists ref.
  - rewrite Hperm, <- list_fmap_compose. apply NoDup_fmap_2_strong; [|done].
    intros r1 r2 Hr1 Hr2. simpl.
    apply survivor_lookup in Hr1 as (u1 & c1 & Hl1 & Hs1).
    apply survivor_lookup in Hr2 as (u2 & c2 & Hl2 & Hs2).
    apply same_but_label_fields in Hs1 as (_ & _ & _ & -> & _).
    apply same_but_label_fields in Hs2 as (_ & _ & _ & -> & _).
    pose proof Hgate as Hg1. eapply Forall_forall in Hg1; [|by eapply list_elem_of_lookup_2, Hl1].
    eapply Forall_forall in Hgate; [|by eapply list_elem_of_lookup_2, Hl2].
    destruct Hg1 as [Hk1 _]. destruct Hgate as [Hk2 _]. simpl in Hk1, Hk2.
    rewrite Hk1, Hk2. intros Heq.
    eapply NoDup_lookup; [exact Hnd | |];
      rewrite list_lookup_fmap; [by rewrite Hl1 | by rewrite Hl2, Heq].
  - by rewrite Hperm, length_fmap.
  - destruct (finish_fields W st) as (Hc & Hd & _). rewrite Hc, Hd in *.
    etrans; [apply submseteq_length, NoDup_submseteq; [done | apply survivors_subset]|].
    unfold found_refs. rewrite length_seq.
    unfold cluster_candidates.
    pose proof (cluster_fold_length (found_refs st) (found_store st) []) as Hlen.
    fold (cluster_loop (found_store st) (found_refs st)) in Hlen.
    destruct (cluster_loop _ _) as [h1 cls]. simpl in *.
    by rewrite collect_fold_length, Hlen.
Qed.

(** X16. Pruning at the end of a run: a file that was in the output
    directory at the start and cannot be pruned is still there; a file left
    that can be pruned is the file of a manifest entry; and every file left
    was there at the start, or is written at the end, or is the file of a
    candidate. *)
Theorem prune_postcondition (files : gset string) (fuel : nat) (r : Report) :
  main W args files fuel = Some (Exit0 r) →
  (∀ f, f ∈ files → ¬ prunable W f → f ∈ files_left r) ∧
  (∀ f, f ∈ files_left r → prunable W f → f ∈ m_filename <$> manifest r) ∧
  (∀ f, f ∈ files_left r →
        f ∈ files ∨ f ∈ ["manifest.json"; "approved-manifest.json"; "review.html"]
        ∨ f ∈ filename <$> candidates r).
Proof.
  intros (st & Hreach & ->)%main_exit0.
  pose proof (reachable_files _ _ _ _ _ _ _ Hreach) as Hfiles.
  split_and!.
  - intros f Hf Hno. unfold finish. destruct (cluster_candidates _ _) as [h' best_items].
    simpl. apply elem_of_union_r, elem_of_filter. split; [|apply Hfiles; by left].
    unfold pruned. unfold prunable in Hno.
    case_bool_decide as Hs; [|done]. simpl.
    destruct (unlink_fails W f); [by rewrite andb_false_r|]. destruct Hno. done.
  - intros f Hf Hp. apply manifest_filenames.
    revert Hf. unfold finish. destruct (cluster_candidates _ _) as [h' best_items].
    simpl. intros [Hf | Hf]%elem_of_union; [by destruct (written_not_prunable f)|].
    apply elem_of_filter in Hf as [Hkeep _]. destruct Hp as [Hs Hu].
    unfold pruned in Hkeep. rewrite (bool_decide_eq_true_2 _ Hs), Hu in Hkeep.
    simpl in Hkeep. rewrite andb_true_r in Hkeep. apply negb_false_iff in Hkeep.
    apply bool_decide_eq_true_1 in Hkeep. by apply elem_of_list_to_set in Hkeep.
  - intros f Hf.
    assert (f ∈ ({[ "manifest.json"; "approved-manifest.json"; "review.html" ]} : gset string)
            ∨ f ∈ output_files st) as [Hw | Hout].
    { revert Hf. unfold finish. destruct (cluster_candidates _ _) as [h' best_items].
      simpl. intros [Hf | Hf]%elem_of_union; [by left | right].
      by apply elem_of_filter in Hf as [_ Hf]. }
    + right; left. set_unfold. tauto.
    + apply Hfiles in Hout as [? | Hout]; [by left | right; right].
      apply list_elem_of_fmap in Hout as ([u c] & -> & Hin). simpl.
      apply list_elem_of_lookup_1 in Hin as [i Hi].
      assert (i < length (found_store st)) as Hlt.
      { unfold found_store. rewrite length_fmap. by eapply lookup_lt_Some. }
      pose proof (cluster_candidates_same (found_store st) (found_refs st) i) as Hsame.
      apply same_but_label_fields in Hsame as (_ & Hname & _).
      assert (deref (found_store st) i = c) as Hc.
      { unfold deref, found_store. apply list_lookup_total_correct.
        by rewrite list_lookup_fmap, Hi. }
      rewrite Hc in Hname. rewrite <- Hname.
      destruct (finish_fields W st) as (-> & _ & _).
      apply list_elem_of_fmap.
      exists (deref (cluster_candidates (found_store st) (found_refs st)).1 i).
      split; [done|]. unfold deref. apply list_elem_of_lookup_total_2.
      pose proof (cluster_fold_length (found_refs st) (found_store st) []) as Hlen.
      unfold cluster_candidates. fold (cluster_loop (found_store st) (found_refs st)) in Hlen.
      destruct (cluster_loop _ _) as [h1 cls]. simpl in *.
      by rewrite collect_fold_length, Hlen.
Qed.

End Whole.

(** ** The fallback fingerprint *)

Section Fallback.






End Fallback.

(** ** The list of allowed hosts *)

Section Allowlist.
Context (W : World) (args : Args).

Lemma lower_char_idemp (c : ascii) : Py.lower_char (Py.lower_char c) = Py.lower_char c.
Proof. destruct c as [[] [] [] [] [] [] [] []]; reflexivity. Qed.

Lemma lower_idemp (s : string) : Py.lower (Py.lower s) = Py.lower s.
Proof. induction s as [|c s IH]; simpl; [done|]. by rewrite lower_char_idemp, IH. Qed.

Lemma lower_nonempty (s : string) : s ≠ "" → Py.lower s ≠ "".
Proof. by destruct s. Qed.

Lemma parse_allow_domains_spec (s d : string) :
  d ∈ parse_allow_domains s →
  ∃ piece, piece ∈ Py.split "," s ∧ Py.strip piece ≠ "" ∧ d = Py.lower (Py.strip piece).
Proof.
  unfold parse_allow_domains. intros (piece & Hin & Hd)%list_elem_of_omap.
  exists piece. destruct (String.eqb_spec (Py.strip piece) ""); [done|].
  by injection Hd as <-.
Qed.

(** X18. The list of allowed hosts of a run: every entry is in lower case,
    no entry taken from [--allow-domains] is empty, and an image whose host
    is the base host, whatever the case of its letters, is allowed. *)
Theorem allowlist_normalised (bh : string) :
  (∀ d, d ∈ allowlist args bh → Py.lower d = d) ∧
  (∀ d, d ∈ parse_allow_domains (allow_domains args) → d ≠ "") ∧
  (∀ url h, hostname (urlparse W url) = Some h → Py.lower h = Py.lower bh →
            allowed_image_domain W url (allowlist args bh) = true).
Proof.
  split_and!.
  - intros d [Hd | Hd]%elem_of_app.
    + apply parse_allow_domains_spec in Hd as (piece & _ & _ & ->). apply lower_idemp.
    + apply list_elem_of_singleton in Hd as ->. apply lower_idemp.
  - intros d (piece & _ & Hne & ->)%parse_allow_domains_spec. by apply lower_nonempty.
  - intros url h Hh Hlow. unfold allowed_image_domain. apply existsb_exists.
    exists (Py.lower bh). split.
    + apply list_elem_of_In, elem_of_app. right. by apply list_elem_of_singleton.
    + rewrite Hh. simpl. rewrite lower_idemp, Hlow, String.eqb_refl. done.
Qed.

End Allowlist.

(** ** The end of the crawl *)

Section Exit.
Context (W : World) (args : Args) (allowed : list string) (bh : string).

Lemma crawl_step_None (st : Crawl) :
  crawl_step W args allowed bh st = None →
  queue st = [] ∨ (max_pages args ≤ Z.of_nat (size (visited_pages st)))%Z.
Proof.
  unfold crawl_step. destruct (queue st) as [|[page_url depth] rest]; [by left|].
  destruct (Z.ltb_spec (Z.of_nat (size (visited_pages st))) (max_pages args)); [|by right].
  simpl. case_bool_decide; [done|]. destruct (_ <? _)%Z; [done|].
  destruct (negb _); [done|]. simpl. by destruct (html_response _).
Qed.

(** X19. The crawl stops only when the queue is empty or the number of
    visited pages has reached [--max-pages] exactly (0 when that bound is
    negative). *)
Theorem crawl_exit_condition (base : string) (files : gset string) (fuel : nat) (fin : Crawl) :
  crawl W args allowed bh fuel (initial W base files) = Some fin →
  queue fin = [] ∨ Z.of_nat (size (visited_pages fin)) = Z.max 0 (max_pages args).
Proof.
  intros Hrun.
  pose proof (crawl_rtc W args allowed bh fuel _ _ Hrun) as Hreach.
  apply (reachable_invariant W args allowed bh base files) in Hreach as [Hbound _].
  apply crawl_final, crawl_step_None in Hrun as [Hq | Hfull]; [by left | right]. lia.
Qed.

End Exit.

Lemma crawl_exit_condition_witness :
  queue Run.final = [] ∨ Z.of_nat (size (visited_pages Run.final)) = Z.max 0 (max_pages Site.args).
Proof.
  exact (crawl_exit_condition Site.world Site.args Site.allowed Run.host Run.base ∅ 3 Run.final
           sample_crawl).
Defined.


(** ** The sample run, from start to report *)

Lemma sample_reachable :
  reachable Site.world Site.args Site.allowed Run.host Run.base ∅ Run.final.
Proof. exact (crawl_rtc Site.world Site.args Site.allowed Run.host 3 _ _ sample_crawl). Defined.

Lemma sample_main :
  main Site.world Site.args ∅ 3 = Some (Exit0 (finish Site.world Run.final)).
Proof.
  change (main Site.world Site.args ∅ 3)
    with (Exit0 <$> (finish Site.world <$>
            crawl Site.world Site.args Site.allowed Run.host 3 Run.start)).
  rewrite sample_crawl. reflexivity.
Defined.

Lemma accepted_passed_gate_witness : accepted_ok Site.world Site.allowed Run.final.
Proof.
  exact (accepted_passed_gate Site.world Site.args Site.allowed Run.host Run.base ∅ Run.final
           sample_reachable).
Defined.

Lemma image_requests_allowed_witness : requests_ok Site.world Site.allowed Run.final.
Proof.
  exact (image_requests_allowed Site.world Site.args Site.allowed Run.host Run.base ∅ Run.final
           sample_reachable).
Defined.

Lemma page_requests_allowed_witness : pages_ok Site.world Site.args Run.final.
Proof.
  exact (page_requests_allowed Site.world Site.args Site.allowed Run.host Run.base ∅ Run.final
           sample_reachable).
Defined.

Lemma manifest_entries_ok_witness :
  Forall (entry_ok Site.world (allowlist Site.args (base_host Site.world Site.args))
                   (finish Site.world Run.final))
         (manifest (finish Site.world Run.final)) ∧
  NoDup (m_sourceImageUrl <$> manifest (finish Site.world Run.final)) ∧
  length (manifest (finish Site.world Run.final)) = length (deduped (finish Site.world Run.final)) ∧
  length (deduped (finish Site.world Run.final)) ≤ length (candidates (finish Site.world Run.final)).
Proof. exact (manifest_entries_ok Site.world Site.args ∅ 3 _ sample_main). Defined.

Lemma stale_crawl :
  crawl Site.world Site.args Site.allowed Run.host 3 stale_start = Some stale_final.
Proof. vm_compute. reflexivity. Qed.

Lemma stale_main :
  main Site.world Site.args Stale.files 3 = Some (Exit0 (finish Site.world stale_final)).
Proof.
  change (main Site.world Site.args Stale.files 3)
    with (Exit0 <$> (finish Site.world <$>
            crawl Site.world Site.args Site.allowed Run.host 3 stale_start)).
  rewrite stale_crawl. reflexivity.
Defined.

Lemma prune_postcondition_witness :
  (∀ f, f ∈ Stale.files → ¬ prunable Site.world f →
        f ∈ files_left (finish Site.world stale_final)) ∧
  (∀ f, f ∈ files_left (finish Site.world stale_final) → prunable Site.world f →
        f ∈ m_filename <$> manifest (finish Site.world stale_final)) ∧
  (∀ f, f ∈ files_left (finish Site.world stale_final) →
        f ∈ Stale.files ∨ f ∈ ["manifest.json"; "approved-manifest.json"; "review.html"]
        ∨ f ∈ filename <$> candidates (finish Site.world stale_final)).
Proof. exact (prune_postcondition Site.world Site.args Stale.files 3 _ stale_main). Defined.

(** * The availability converter *)

Section Converter.
Import Slots.
Context (repr : Json → string) (args : Args).

(** ** Loops that may raise *)

Lemma for_each_ind {A} (body : list Row * nat → A → option (list Row * nat))
    (P : list Row * nat → Prop) :
  (∀ st x st', P st → body st x = Some st' → P st') →
  ∀ l st st', P st → for_each body l st = Some st' → P st'.
Proof.
  intros Hbody. induction l as [|x l IH]; intros st st' HP; simpl.
  - by intros [= <-].
  - destruct (body st x) as [st1|] eqn:E; [|done]. apply IH. by eapply Hbody.
Qed.

Lemma for_each_None {A} (body : list Row * nat → A → option (list Row * nat))
    (raises : A → bool) :
  (∀ st x, body st x = None ↔ raises x = true) →
  ∀ l st, for_each body l st = None ↔ existsb raises l = true.
Proof.
  intros Hbody. induction l as [|x l IH]; intros st; simpl; [done|].
  destruct (body st x) as [st1|] eqn:E.
  - rewrite IH. destruct (raises x) eqn:Hx; [|done].
    apply (Hbody st) in Hx. rewrite Hx in E. done.
  - apply Hbody in E. by rewrite E.
Qed.

Lemma for_each_measure {A} (body : list Row * nat → A → option (list Row * nat))
    (m : list Row * nat → nat) (items : A → nat) :
  (∀ st x st', body st x = Some st' → m st' = m st + items x) →
  ∀ l st st', for_each body l st = Some st' → m st' = m st + sum_list (items <$> l).
Proof.
  intros Hbody. induction l as [|x l IH]; intros st st'; cbn [for_each].
  - intros [= <-]. simpl. lia.
  - destruct (body st x) as [st1|] eqn:E; [|done]. intros Hrest.
    apply IH in Hrest. apply Hbody in E.
    change (m st' = m st + (items x + sum_list (items <$> l))). lia.
Qed.

Lemma for_each_app {A} (body : list Row * nat → A → option (list Row * nat)) (l1 l2 : list A) :
  ∀ st, for_each body (l1 ++ l2) st = for_each body l1 st ≫= for_each body l2.
Proof.
  induction l1 as [|x l1 IH]; intros st; simpl; [done|].
  destruct (body st x) as [st1|]; [apply IH | done].
Qed.


Lemma shift_shift st d e : shift (shift st d) e = shift st (shift d e).
Proof. unfold shift. simpl. f_equal; [by rewrite app_assoc | lia]. Qed.

Lemma shift_zero d : shift ([], 0) d = d.
Proof. by destruct d. Qed.

Lemma for_each_additive {A} (body : list Row * nat → A → option (list Row * nat)) (l : list A) :
  additive body → ∀ st, for_each body l st = shift st <$> for_each body l ([], 0).
Proof.
  intros Hadd. induction l as [|x l IH]; intros st; simpl.
  - unfold shift. simpl. by rewrite app_nil_r, Nat.add_0_r, <- surjective_pairing.
  - rewrite (Hadd st x). destruct (body ([], 0) x) as [d|]; simpl; [|done].
    rewrite (IH (shift st d)), (IH d).
    destruct (for_each body l ([], 0)) as [e|]; simpl; [|done].
    by rewrite shift_shift.
Qed.

(** ** [.get] *)


Lemma or_empty_get_None v key : or_empty_get v key = None ↔ breaks v = true.
Proof.
  unfold or_empty_get, breaks. destruct (truthy v); [|done]. by destruct v.
Qed.

Lemma or_empty_get_Some v key :
  breaks v = false → or_empty_get v key = Some (get v key).
Proof.
  unfold or_empty_get, breaks. destruct (truthy v) eqn:Ht.
  - by destruct v.
  - intros _. destruct v; try done. simpl in *.
    apply negb_false_iff, Nat.eqb_eq, map_size_empty_inv in Ht. subst d.
    by rewrite lookup_empty.
Qed.

Lemma entered_get v key list_key :
  entered v key list_key =
    if truthy (get v key) then
      match or_empty_list (get v list_key) with
      | JList l => Some l
      | _ => None
      end
    else None.
Proof. by destruct v. Qed.

Lemma complete_get slot :
  complete slot =
    truthy (get slot "division") && truthy (get slot "startTimeLocal")
    && truthy (get slot "endTimeLocal").
Proof. by destruct slot. Qed.

(** ** The three bodies *)


Lemma slot_body_None date field_key st slot :
  slot_body repr args date field_key st slot = None ↔ breaks slot = true.
Proof.
  unfold slot_body. destruct (breaks slot) eqn:Hb.
  - apply (or_empty_get_None slot "division") in Hb. by rewrite Hb.
  - rewrite !(or_empty_get_Some _ _ Hb). simpl. by destruct (negb _).
Qed.

Lemma slot_body_Some date field_key st slot :
  breaks slot = false →
  slot_body repr args date field_key st slot =
    Some (if complete slot then (st.1 ++ [row_of repr args date field_key slot], st.2) else skip st).
Proof.
  intros Hb. unfold slot_body. rewrite !(or_empty_get_Some _ _ Hb). simpl.
  rewrite complete_get. by destruct (_ && _).
Qed.

Lemma field_body_cases date st field :
  breaks field = false →
  field_body repr args date st field =
    match slots_of field with
    | None => Some (skip st)
    | Some slots => for_each (slot_body repr args date (get field "fieldKey")) slots st
    end.
Proof.
  intros Hb. unfold field_body, slots_of. rewrite entered_get.
  rewrite !(or_empty_get_Some _ _ Hb). simpl.
  destruct (or_empty_list (get field "slots")); by destruct (truthy (get field "fieldKey")).
Qed.

Lemma field_body_None date st field :
  field_body repr args date st field = None ↔ field_breaks field = true.
Proof.
  unfold field_breaks. destruct (breaks field) eqn:Hb.
  - unfold field_body. apply (or_empty_get_None field "fieldKey") in Hb. by rewrite Hb.
  - rewrite field_body_cases by done. simpl. destruct (slots_of field) as [slots|]; [|done].
    apply for_each_None. intros st' x. apply slot_body_None.
Qed.

Lemma day_body_cases st day :
  breaks day = false →
  day_body repr args st day =
    match fields_of day with
    | None => Some (skip st)
    | Some fields => for_each (field_body repr args (get day "date")) fields st
    end.
Proof.
  intros Hb. unfold day_body, fields_of. rewrite entered_get.
  rewrite !(or_empty_get_Some _ _ Hb). simpl.
  destruct (or_empty_list (get day "fields")); by destruct (truthy (get day "date")).
Qed.

Lemma day_body_None st day :
  day_body repr args st day = None ↔ day_breaks day = true.
Proof.
  unfold day_breaks. destruct (breaks day) eqn:Hb.
  - unfold day_body. apply (or_empty_get_None day "date") in Hb. by rewrite Hb.
  - rewrite day_body_cases by done. simpl. destruct (fields_of day) as [fields|]; [|done].
    apply for_each_None. intros st' x. apply field_body_None.
Qed.

Lemma body_breaks {A} (body : list Row * nat → A → option (list Row * nat)) raises st x st' :
  (∀ st x, body st x = None ↔ raises x = true) →
  body st x = Some st' → raises x = false.
Proof.
  intros Hnone Hsome. destruct (raises x) eqn:Hx; [|done].
  apply (Hnone st) in Hx. rewrite Hx in Hsome. done.
Qed.

(** ** The rows *)

Lemma entered_truthy v key list_key l :
  entered v key list_key = Some l → truthy (get v key) = true.
Proof. rewrite entered_get. by destruct (truthy _). Qed.

Lemma slot_body_rows date field_key st slot st' :
  truthy date = true → truthy field_key = true →
  Forall (row_ok args) st.1 →
  slot_body repr args date field_key st slot = Some st' →
  Forall (row_ok args) st'.1.
Proof.
  intros Hdate Hkey Hst Hbody.
  pose proof (body_breaks _ _ _ _ _ (slot_body_None date field_key) Hbody) as Hb.
  rewrite (slot_body_Some _ _ _ _ Hb) in Hbody. injection Hbody as <-.
  destruct (complete slot) eqn:Hc; [|done]. simpl.
  apply Forall_app. split; [done|]. apply Forall_singleton.
  rewrite complete_get in Hc. apply andb_prop in Hc as [[Hd Hs]%andb_prop He].
  unfold row_ok. simpl. split_and!; try done.
  intros Hinc. unfold slot_notes. by rewrite Hinc.
Qed.

Lemma field_body_rows date st field st' :
  truthy date = true →
  Forall (row_ok args) st.1 →
  field_body repr args date st field = Some st' →
  Forall (row_ok args) st'.1.
Proof.
  intros Hdate Hst Hbody.
  pose proof (body_breaks _ _ _ _ _ (field_body_None date) Hbody) as Hb.
  apply orb_false_elim in Hb as [Hb _]. rewrite (field_body_cases _ _ _ Hb) in Hbody.
  destruct (slots_of field) as [slots|] eqn:Hslots; [|by injection Hbody as <-].
  apply entered_truthy in Hslots.
  revert Hst Hbody. apply (for_each_ind _ (fun s => Forall (row_ok args) s.1)). intros s x s'. by apply slot_body_rows.
Qed.

Lemma day_body_rows st day st' :
  Forall (row_ok args) st.1 →
  day_body repr args st day = Some st' →
  Forall (row_ok args) st'.1.
Proof.
  intros Hst Hbody.
  pose proof (body_breaks _ _ _ _ _ day_body_None Hbody) as Hb.
  apply orb_false_elim in Hb as [Hb _]. rewrite (day_body_cases _ _ Hb) in Hbody.
  destruct (fields_of day) as [fields|] eqn:Hfields; [|by injection Hbody as <-].
  apply entered_truthy in Hfields.
  revert Hst Hbody. apply (for_each_ind _ (fun s => Forall (row_ok args) s.1)). intros s x s'. by apply field_body_rows.
Qed.

(** X20. Every row handed to the CSV writer has a true division, date,
    start time, end time and field key, carries the team, game type and
    status of the command line, and, unless [--include-slot-type] is given,
    the notes of the command line. *)
Theorem rows_are_complete (days : list Json) (rows : list Row) (skipped : nat) :
  main repr args (Some (JList days)) = Return0 rows skipped →
  Forall (row_ok args) rows.
Proof.
  unfold main. destruct (for_each _ _ _) as [[rows' skipped']|] eqn:Hrun; [|done].
  intros [= <- <-].
  apply (for_each_ind _ (fun s => Forall (row_ok args) s.1) (λ s x s', day_body_rows s x s')
           days ([], 0) (rows', skipped') (Forall_nil_2 _) Hrun).
Qed.


(** ** Counting *)

Lemma slot_body_count date field_key st slot st' :
  slot_body repr args date field_key st slot = Some st' →
  length st'.1 + st'.2 = length st.1 + st.2 + 1 ∧
  length st'.1 = length st.1 + (if complete slot then 1 else 0).
Proof.
  intros Hbody.
  pose proof (body_breaks _ _ _ _ _ (slot_body_None date field_key) Hbody) as Hb.
  rewrite (slot_body_Some _ _ _ _ Hb) in Hbody. injection Hbody as <-.
  destruct (complete slot); simpl; rewrite ?length_app; simpl; lia.
Qed.

Lemma sum_list_ones {A} (l : list A) : sum_list ((fun _ => 1) <$> l) = length l.
Proof.
  induction l as [|x l IH]; [done|].
  change (sum_list ((fun _ => 1) <$> x :: l)) with (1 + sum_list ((fun _ : A => 1) <$> l)).
  by rewrite IH.
Qed.

Lemma sum_list_filter {A} (f : A → bool) (l : list A) :
  sum_list ((fun x => if f x then 1 else 0) <$> l) = length (List.filter f l).
Proof.
  induction l as [|x l IH]; [done|].
  change (sum_list ((fun x => if f x then 1 else 0) <$> x :: l))
    with ((if f x then 1 else 0) + sum_list ((fun x => if f x then 1 else 0) <$> l)).
  rewrite IH. simpl. by destruct (f x).
Qed.

Lemma field_body_count date st field st' :
  field_body repr args date st field = Some st' →
  length st'.1 + st'.2 = length st.1 + st.2 + field_items field ∧
  length st'.1 = length st.1 + field_rows field.
Proof.
  intros Hbody.
  pose proof (body_breaks _ _ _ _ _ (field_body_None date) Hbody) as Hb.
  apply orb_false_elim in Hb as [Hb _]. rewrite (field_body_cases _ _ _ Hb) in Hbody.
  unfold field_items, field_rows.
  destruct (slots_of field) as [slots|]; [|injection Hbody as <-; simpl; lia].
  split.
  - rewrite <- (sum_list_ones slots). revert Hbody.
    apply (for_each_measure _ (fun s => length s.1 + s.2)).
    intros s x s' Hs. by apply slot_body_count in Hs as [? _].
  - rewrite <- (sum_list_filter complete slots). revert Hbody.
    apply (for_each_measure _ (fun s => length s.1)).
    intros s x s' Hs. by apply slot_body_count in Hs as [_ ?].
Qed.

Lemma day_body_count st day st' :
  day_body repr args st day = Some st' →
  length st'.1 + st'.2 = length st.1 + st.2 + day_items day ∧
  length st'.1 = length st.1 + day_rows day.
Proof.
  intros Hbody.
  pose proof (body_breaks _ _ _ _ _ day_body_None Hbody) as Hb.
  apply orb_false_elim in Hb as [Hb _]. rewrite (day_body_cases _ _ Hb) in Hbody.
  unfold day_items, day_rows.
  destruct (fields_of day) as [fields|]; [|injection Hbody as <-; simpl; lia].
  split.
  - revert Hbody. apply (for_each_measure _ (fun s => length s.1 + s.2)).
    intros s x s' Hs. by apply field_body_count in Hs as [? _].
  - revert Hbody. apply (for_each_measure _ (fun s => length s.1)).
    intros s x s' Hs. by apply field_body_count in Hs as [_ ?].
Qed.

(** X22. The two numbers [main] prints account for every item: a day the
    loop does not enter, a field it does not enter and a slot it reaches
    each count once, as a row or as skipped; and the rows are as many as the
    slots reached that have a true division, start time and end time. *)
Theorem rows_and_skipped_count (days : list Json) (rows : list Row) (skipped : nat) :
  main repr args (Some (JList days)) = Return0 rows skipped →
  length rows + skipped = sum_list (day_items <$> days) ∧
  length rows = sum_list (day_rows <$> days).
Proof.
  unfold main. destruct (for_each _ _ _) as [[rows' skipped']|] eqn:Hrun; [|done].
  intros [= <- <-]. split.
  - apply (for_each_measure _ (fun s => length s.1 + s.2) day_items) in Hrun; [done|].
    intros s x s' Hs. by apply day_body_count in Hs as [? _].
  - apply (for_each_measure _ (fun s => length s.1) day_rows) in Hrun; [done|].
    intros s x s' Hs. by apply day_body_count in Hs as [_ ?].
Qed.

(** ** Days are converted one by one *)

Lemma slot_body_additive date field_key : additive (slot_body repr args date field_key).
Proof.
  intros st slot. destruct (breaks slot) eqn:Hb.
  - pose proof (proj2 (slot_body_None date field_key st slot) Hb) as ->.
    by pose proof (proj2 (slot_body_None date field_key ([], 0) slot) Hb) as ->.
  - rewrite !slot_body_Some by done. simpl. unfold shift, skip.
    destruct (complete slot); simpl; f_equal; f_equal; [lia | by rewrite app_nil_r | lia].
Qed.

Lemma skip_shift st : Some (skip st) = shift st <$> Some (skip ([], 0)).
Proof. simpl. unfold shift, skip. simpl. f_equal. f_equal; [by rewrite app_nil_r | lia]. Qed.

Lemma field_body_additive date : additive (field_body repr args date).
Proof.
  intros st field. destruct (breaks field) eqn:Hb.
  - assert (field_breaks field = true) as Hfb by (unfold field_breaks; by rewrite Hb).
    pose proof (proj2 (field_body_None date st field) Hfb) as ->.
    by pose proof (proj2 (field_body_None date ([], 0) field) Hfb) as ->.
  - rewrite !field_body_cases by done. destruct (slots_of field) as [slots|].
    + apply for_each_additive, slot_body_additive.
    + apply skip_shift.
Qed.

Lemma day_body_additive : additive (day_body repr args).
Proof.
  intros st day. destruct (breaks day) eqn:Hb.
  - assert (day_breaks day = true) as Hdb by (unfold day_breaks; by rewrite Hb).
    pose proof (proj2 (day_body_None st day) Hdb) as ->.
    by pose proof (proj2 (day_body_None ([], 0) day) Hdb) as ->.
  - rewrite !day_body_cases by done. destruct (fields_of day) as [fields|].
    + apply for_each_additive, field_body_additive.
    + apply skip_shift.
Qed.

(** X23. Days are converted one after the other and independently: the
    outcome for a document is the outcome for its first days followed by
    the outcome for the others, rows in order and skipped items added; and
    it is [AttributeError] as soon as it is for either part. *)
Theorem main_app (days1 days2 : list Json) :
  main repr args (Some (JList (days1 ++ days2))) =
    match main repr args (Some (JList days1)), main repr args (Some (JList days2)) with
    | Return0 rows1 skipped1, Return0 rows2 skipped2 =>
        Return0 (rows1 ++ rows2) (skipped1 + skipped2)
    | _, _ => Raised
    end.
Proof.
  unfold main. rewrite for_each_app.
  destruct (for_each (day_body repr args) days1 ([], 0)) as [[rows1 skipped1]|]; simpl; [|done].
  rewrite (for_each_additive _ days2 day_body_additive (rows1, skipped1)).
  by destruct (for_each (day_body repr args) days2 ([], 0)) as [[rows2 skipped2]|].
Qed.

(** ** The notes *)

Lemma rstrip_chars_last chars s c :
  last_char (rstrip_chars chars s) = Some c → in_chars chars c = false.
Proof.
  induction s as [|a s IH]; simpl; [done|].
  destruct (rstrip_chars chars s) as [|b r] eqn:E.
  - destruct (in_chars chars a) eqn:Ha; simpl; [done|]. by intros [= <-].
  - change (last_char (String a (String b r)))
      with (match last_char (String b r) with None => Some a | last => last end).
    destruct (last_char (String b r)) eqn:El; [exact IH|].
    simpl in El. by destruct (last_char r).
Qed.

Lemma rstrip_chars_first chars s c :
  first_char (rstrip_chars chars s) = Some c → first_char s = Some c.
Proof.
  destruct s as [|a s]; simpl; [done|].
  destruct (rstrip_chars chars s); [|done]. by destruct (in_chars chars a).
Qed.

Lemma lstrip_chars_first chars s c :
  first_char (lstrip_chars chars s) = Some c → in_chars chars c = false.
Proof.
  induction s as [|a s IH]; simpl; [done|].
  destruct (in_chars chars a) eqn:Ha; [exact IH|]. simpl. by intros [= <-].
Qed.

Lemma strip_chars_trimmed chars s : trimmed chars (strip_chars chars s).
Proof.
  split; intros c Hc.
  - eapply lstrip_chars_first, rstrip_chars_first, Hc.
  - eapply rstrip_chars_last, Hc.
Qed.

Lemma rstrip_chars_id chars s :
  (∀ c, last_char s = Some c → in_chars chars c = false) → rstrip_chars chars s = s.
Proof.
  induction s as [|a s IH]; simpl; [done|]. intros Hlast.
  destruct (last_char s) as [l|] eqn:El.
  - rewrite IH by done. destruct s; [done|]. done.
  - destruct s as [|b s]; [|simpl in El; by destruct (last_char s)].
    simpl. by rewrite (Hlast a).
Qed.

Lemma strip_chars_id chars s : trimmed chars s → strip_chars chars s = s.
Proof.
  intros [Hfirst Hlast]. unfold strip_chars.
  assert (lstrip_chars chars s = s) as ->.
  { destruct s as [|a s]; [done|]. simpl. by rewrite (Hfirst a). }
  by apply rstrip_chars_id.
Qed.

(** X24. When the slot type is appended to notes that are not empty, the
    notes of the row neither begin nor end with a space or a bar; they are
    the notes, [ | ] and the slot type when the notes do not begin and the
    slot type does not end with one. *)
Theorem slot_notes_trimmed (slot_type : Json) :
  include_slot_type args = true →
  truthy slot_type = true →
  notes args ≠ "" →
  trimmed " |" (slot_notes repr args slot_type) ∧
  (trimmed " |" (notes args +:+ " | " +:+ py_str repr slot_type) →
   slot_notes repr args slot_type = notes args +:+ " | " +:+ py_str repr slot_type).
Proof.
  intros Hinc Htrue Hnotes. unfold slot_notes. rewrite Hinc, Htrue. simpl.
  destruct (String.eqb_spec (notes args) ""); [done|]. simpl. split.
  - apply strip_chars_trimmed.
  - apply strip_chars_id.
Qed.

End Converter.

(** ** The sample document *)

Lemma sample_conversion :
  Slots.main Slots.sample_repr Slots.sample_args (Some (Slots.JList Slots.sample_days))
  = Slots.Return0 Slots.sample_rows 4.
Proof. vm_compute. reflexivity. Qed.

Lemma rows_are_complete_witness : Forall (Slots.row_ok Slots.sample_args) Slots.sample_rows.
Proof.
  exact (rows_are_complete Slots.sample_repr Slots.sample_args Slots.sample_days
           Slots.sample_rows 4 sample_conversion).
Defined.

Lemma rows_and_skipped_count_witness :
  length Slots.sample_rows + 4 = sum_list (Slots.day_items <$> Slots.sample_days) ∧
  length Slots.sample_rows = sum_list (Slots.day_rows <$> Slots.sample_days).
Proof.
  exact (rows_and_skipped_count Slots.sample_repr Slots.sample_args Slots.sample_days
           Slots.sample_rows 4 sample_conversion).
Defined.

Lemma slot_notes_trimmed_witness :
  Slots.trimmed " |" (Slots.slot_notes Slots.sample_repr Slots.sample_args (Slots.JStr "practice")) ∧
  (Slots.trimmed " |" (Slots.notes Slots.sample_args +:+ " | "
                        +:+ Slots.py_str Slots.sample_repr (Slots.JStr "practice")) →
   Slots.slot_notes Slots.sample_repr Slots.sample_args (Slots.JStr "practice")
   = Slots.notes Slots.sample_args +:+ " | "
     +:+ Slots.py_str Slots.sample_repr (Slots.JStr "practice")).
Proof.
  apply (slot_notes_trimmed Slots.sample_repr Slots.sample_args (Slots.JStr "practice"));
    [reflexivity | reflexivity | discriminate].
Defined.
